(** * LogFolderProcessor: path matching and re-bundling

    A shallow embedding of the [FileProcessor] component of the repository,
    in the variants the repository holds of it, and the properties of its
    path normaliser, its entry resolvers and its grouping loop.

    Strings are sequences of 8-bit code units ([list ascii]); the archive
    libraries (JSZip and the TAR reader) are modelled through the calls
    the component makes of them. *)

From Stdlib Require Import Ascii String ZArith Lia.
From stdpp Require Import gmap strings list.

Set Default Proof Using "Type".
Set Warnings "-clear-no-such-hyp".
Open Scope Z_scope.

(** ** Strings *)

Abbreviation str := (list ascii).
Notation "$ s" := (list_ascii_of_string s) (at level 1, format "$ s").

Module JS.

Definition slash : ascii := "/"%char.
Definition backslash : ascii := "\"%char.

Definition is_slash (c : ascii) : bool := bool_decide (c = slash).

(** [s.split(sep)] for a one-character separator: never empty, and
    [[""]] on the empty string. *)
Fixpoint split (sep : ascii) (s : str) : list str :=
  match s with
  | [] => [[]]
  | c :: r =>
      if bool_decide (c = sep) then [] :: split sep r
      else match split sep r with
           | seg :: segs => (c :: seg) :: segs
           | [] => [[c]]
           end
  end.

(** [parts.pop()] as an expression: the last element, [undefined] on []. *)
Definition pop (parts : list str) : option str := last parts.

(** [l[i]] for a possibly negative index: [undefined] out of range. *)
Definition at_index {A} (l : list A) (i : Z) : option A :=
  if bool_decide (0 ≤ i) then l !! Z.to_nat i else None.

Definition startsWith (s p : str) : bool := bool_decide (p `prefix_of` s).
Definition endsWith (s p : str) : bool := bool_decide (p `suffix_of` s).

(** [s.includes(w)] *)
Fixpoint includes (s w : str) : bool :=
  startsWith s w ||
  match s with
  | [] => false
  | _ :: r => includes r w
  end.

(** [s.replace(pat, rep)] for a string pattern: the first occurrence. *)
Fixpoint replace_first (pat rep s : str) : str :=
  if startsWith s pat then rep ++ drop (length pat) s
  else match s with
       | [] => []
       | c :: r => c :: replace_first pat rep r
       end.

(** [s.toLowerCase()] on code units below 256: A-Z, and the Latin-1
    capitals U+00C0-U+00DE other than the multiplication sign. *)
Definition lower_char (c : ascii) : ascii :=
  let n := nat_of_ascii c in
  if ((65 <=? n) && (n <=? 90))%nat
     || ((192 <=? n) && (n <=? 222) && negb (n =? 215))%nat
  then ascii_of_nat (n + 32) else c.

Definition toLowerCase (s : str) : str := map lower_char s.

End JS.

(** ** PathNormalizer *)

(** [path.replace(/\\/g, '/')] *)
Definition replace_backslashes (s : str) : str :=
  map (λ c, if bool_decide (c = JS.backslash) then JS.slash else c) s.

(** [.replace(/^\/+/, '')] *)
Fixpoint strip_leading_slashes (s : str) : str :=
  match s with
  | c :: r => if JS.is_slash c then strip_leading_slashes r else s
  | [] => []
  end.

(** [.replace(/\/+/g, '/')]: a scan that emits one slash per maximal run;
    [in_run] tells that the previous character was a slash of the run
    being consumed. *)
Fixpoint collapse_slashes (in_run : bool) (s : str) : str :=
  match s with
  | [] => []
  | c :: r =>
      if JS.is_slash c
      then (if in_run then collapse_slashes true r
            else JS.slash :: collapse_slashes true r)
      else c :: collapse_slashes false r
  end.

Definition normalizeFilePath (path : str) : str :=
  collapse_slashes false (strip_leading_slashes (replace_backslashes path)).

(** The segments of a path: [p.split('/')]. *)
Definition segments (p : str) : list str := JS.split JS.slash p.

(** ** Archives as the component reads them *)

Abbreviation bytes := (list Byte.byte).

(** An entry of [zip.files]; [zip.files[k].name] is [k]. *)
Record JSZipObject := {
  name : str;
  dir : bool;
  data : bytes;       (* what [file.async('uint8array')] resolves to *)
}.

(** A loaded archive: the values of [zip.files] in [Object.keys] order. *)
Abbreviation JSZip := (list JSZipObject).

(** [zip.file(path)] with one string argument, on a loaded archive (whose
    root is empty): the entry stored under exactly that key, unless it is
    a directory. *)
Definition zip_file (zip : JSZip) (path : str) : option JSZipObject :=
  match find (λ o, bool_decide (name o = path)) zip with
  | Some o => if dir o then None else Some o
  | None => None
  end.

(** [Object.keys(zip.files).map(normalizeFilePath)] *)
Definition allFiles (zip : JSZip) : list str :=
  map (λ o, normalizeFilePath (name o)) zip.

(** An entry as the TAR reader yields it. *)
Record TarEntry := {
  tar_name : str;
  buffer : bytes;
}.

(** What [tarReader.next()] yields while [tarReader.hasNext()]: entries,
    or nothing ([None]) for a record the reader cannot decode. *)
Abbreviation Tar := (list (option TarEntry)).

(** ** Values parsed from the configuration *)

(** A double as this component can observe one: whether it is zero (and so
    falsy) and the text [ToString] gives for it. *)
Record number := {
  is_zero : bool;
  decimal : str;
}.

(** What [JSON.parse] returns. The members of an object are in the order of
    the text, and a later member of the same name replaces an earlier one. *)
#[warnings="-register-all"] Inductive JSON :=
| JNull
| JBool (b : bool)
| JNum (n : number)
| JStr (s : str)
| JArr (items : list JSON)
| JObj (members : list (str * JSON)).

(** A JavaScript value of the component: [None] is [undefined]. *)
Abbreviation value := (option JSON).

Module Value.

Definition truthy (v : value) : bool :=
  match v with
  | None | Some JNull => false
  | Some (JBool b) => b
  | Some (JNum n) => negb (is_zero n)
  | Some (JStr s) => negb (bool_decide (s = []))
  | Some (JArr _) | Some (JObj _) => true
  end.

(** [typeof v === 'object'] *)
Definition is_object (v : JSON) : bool :=
  match v with
  | JNull | JArr _ | JObj _ => true
  | _ => false
  end.

(** [typeof v === 'string'] *)
Definition is_string (v : value) : bool :=
  match v with
  | Some (JStr _) => true
  | _ => false
  end.

(** [Array.isArray(v)] *)
Definition isArray (v : value) : bool :=
  match v with
  | Some (JArr _) => true
  | _ => false
  end.

Fixpoint lookup_last (k : str) (ms : list (str * JSON)) : value :=
  match ms with
  | [] => None
  | (k', v) :: rest =>
      match lookup_last k rest with
      | Some w => Some w
      | None => if bool_decide (k' = k) then Some v else None
      end
  end.

(** [v[k]] on a value other than [null], for a key that is neither an
    index nor the name of a built-in property: the component reads
    ['Review Test'], ['Review Text'] and [Links]. *)
Definition get (k : str) (v : JSON) : value :=
  match v with
  | JObj ms => lookup_last k ms
  | _ => None
  end.

Fixpoint join_strings (sep : str) (l : list str) : str :=
  match l with
  | [] => []
  | [s] => s
  | s :: rest => s ++ sep ++ join_strings sep rest
  end.

(** [ToString], as template literals and string concatenation apply it.
    An object stands for one without members named [toString] or
    [valueOf]. *)
Fixpoint to_string (v : JSON) : str :=
  match v with
  | JNull => $"null"
  | JBool true => $"true"
  | JBool false => $"false"
  | JNum n => decimal n
  | JStr s => s
  | JArr items =>
      join_strings $","
        (map (λ x, match x with JNull => [] | _ => to_string x end) items)
  | JObj _ => $"[object Object]"
  end.

Definition show (v : value) : str :=
  match v with
  | None => $"undefined"
  | Some w => to_string w
  end.

(** [items.join(sep)] *)
Definition join (sep : str) (items : list JSON) : str :=
  join_strings sep
    (map (λ x, match x with JNull => [] | _ => to_string x end) items).

End Value.

(** ** The component: state, effects, errors *)

(** Modelled from the spec: the declaration of [ProcessingStatus] (in
    [types.ts]) is not among the sources; these are the run states the
    components pass to [onStatusChange] and compare against. *)
Inductive ProcessingStatus := idle | processing | success | error.

(** What a run can throw. *)
Inductive Error :=
| InvalidFormat                 (* new Error('Invalid JSON format: ...') *)
| TypeError (message : str)     (* of the runtime; the text is the engine's *)
| LibraryError (message : str). (* JSON.parse and the archive libraries *)

Definition message (e : Error) : str :=
  match e with
  | InvalidFormat => $"Invalid JSON format: expected an array"
  | TypeError m => m
  | LibraryError m => m
  end.

Definition not_iterable : Error := TypeError $"object is not iterable".
Definition not_a_function (what : str) : Error :=
  TypeError (what ++ $" is not a function").
Definition cannot_read (what whose : str) : Error :=
  TypeError ($"Cannot read properties of " ++ whose ++ $" (reading '" ++ what
             ++ $"')").

(** The file entries of the archive under construction, by full path; the
    blob [generateAsync] resolves to holds the same. *)
Abbreviation Blob := (gmap str bytes).

Module Output.

Definition forceTrailingSlash (path : str) : str :=
  if JS.endsWith path [JS.slash] then path else path ++ [JS.slash].

(** [zip.folder(arg)], as the root of the object it returns. *)
Definition folder (root : str) (arg : value) : str :=
  if Value.truthy arg then forceTrailingSlash (root ++ Value.show arg)
  else root.

(** [zip.folder(arg)?.file(fileName, content)] on the new archive. *)
Definition folder_file (zip : Blob) (arg : value) (fileName : str)
    (content : bytes) : Blob :=
  <[folder [] arg ++ fileName := content]> zip.

End Output.

(** The files a run is given. *)
Record ArchiveFile := {
  file_name : str;
  file_type : str;
  (** what [JSZip.loadAsync] resolves to, or rejects with *)
  as_zip : Error + JSZip;
  (** what the TAR reader yields over the file's bytes *)
  as_tar : Tar;
}.

Record JsonFile := {
  (** what [JSON.parse(await jsonFile.text())] returns, or throws *)
  parsed : Error + JSON;
}.

Inductive FileRead := ReadJson | ReadArchive.

(** The state a run acts on: the status and error of the parent (through
    [onStatusChange] and [onError]), the component's own state, and the
    reads of the two input files, in order. Log lines are held without the
    time of day [addDebugLog] puts in front. *)
Record Component {Stats : Type} := {
  status : ProcessingStatus;
  errorMessage : option str;
  processedZip : option Blob;
  debug : list str;
  folderStats : list Stats;
  reads : list FileRead;
}.
Arguments Component : clear implicits.

Inductive outcome (A : Type) :=
| Returned (a : A)
| Thrown (e : Error).
Arguments Returned {A} a.
Arguments Thrown {A} e.

Section Effects.
Context {Stats : Type}.

Definition M (A : Type) : Type :=
  Component Stats → Component Stats * outcome A.

Definition ret {A} (a : A) : M A := λ c, (c, Returned a).

Definition bind {A B} (m : M A) (k : A → M B) : M B :=
  λ c, match m c with
       | (c', Returned a) => k a c'
       | (c', Thrown e) => (c', Thrown e)
       end.

Definition throw {A} (e : Error) : M A := λ c, (c, Thrown e).

Definition try_catch (body : M unit) (handler : Error → M unit) : M unit :=
  λ c, match body c with
       | (c', Returned tt) => (c', Returned tt)
       | (c', Thrown e) => handler e c'
       end.

Definition modify (f : Component Stats → Component Stats) : M unit :=
  λ c, (f c, Returned tt).

Definition onStatusChange (s : ProcessingStatus) : M unit :=
  modify (λ c, {| status := s; errorMessage := errorMessage c;
                  processedZip := processedZip c; debug := debug c;
                  folderStats := folderStats c; reads := reads c |}).

Definition onError (m : str) : M unit :=
  modify (λ c, {| status := status c; errorMessage := Some m;
                  processedZip := processedZip c; debug := debug c;
                  folderStats := folderStats c; reads := reads c |}).

Definition setProcessedZip (b : Blob) : M unit :=
  modify (λ c, {| status := status c; errorMessage := errorMessage c;
                  processedZip := Some b; debug := debug c;
                  folderStats := folderStats c; reads := reads c |}).

Definition setDebug (f : list str → list str) : M unit :=
  modify (λ c, {| status := status c; errorMessage := errorMessage c;
                  processedZip := processedZip c; debug := f (debug c);
                  folderStats := folderStats c; reads := reads c |}).

Definition addDebugLog (m : str) : M unit := setDebug (λ prev, prev ++ [m]).

Definition setFolderStats (s : list Stats) : M unit :=
  modify (λ c, {| status := status c; errorMessage := errorMessage c;
                  processedZip := processedZip c; debug := debug c;
                  folderStats := s; reads := reads c |}).

Definition read (r : FileRead) : M unit :=
  modify (λ c, {| status := status c; errorMessage := errorMessage c;
                  processedZip := processedZip c; debug := debug c;
                  folderStats := folderStats c; reads := reads c ++ [r] |}).

Definition lift {A} (r : Error + A) : M A :=
  match r with
  | inl e => throw e
  | inr a => ret a
  end.

(** [for (const x of xs) body], the variables the body assigns held in
    [acc]. *)
Fixpoint for_of {A B} (xs : list A) (body : B → A → M B) (acc : B) : M B :=
  match xs with
  | [] => ret acc
  | x :: rest => bind (body acc x) (for_of rest body)
  end.

(** [JSON.parse(await jsonFile.text())] *)
Definition parse (jsonFile : JsonFile) : M JSON :=
  bind (read ReadJson) (λ _, lift (parsed jsonFile)).

(** [await JSZip.loadAsync(archiveFile)] *)
Definition loadAsync (archiveFile : ArchiveFile) : M JSZip :=
  bind (read ReadArchive) (λ _, lift (as_zip archiveFile)).

(** [await archiveFile.arrayBuffer()], as the entries a reader finds. *)
Definition arrayBuffer (archiveFile : ArchiveFile) : M Tar :=
  bind (read ReadArchive) (λ _, ret (as_tar archiveFile)).

End Effects.

Global Instance M_ret {Stats} : MRet (@M Stats) := @ret Stats.
Global Instance M_bind {Stats} : MBind (@M Stats) := λ A B k m, bind m k.

(** The values a [for ... of] visits, or the [TypeError] it throws. *)
Definition iterate (v : value) : Error + list JSON :=
  match v with
  | Some (JArr items) => inr items
  | Some (JStr s) => inr (map (λ c, JStr [c]) s)
  | _ => inl not_iterable
  end.

(** [for (const x of v) body] over a value. *)
Definition for_each {Stats B} (v : value) (body : B → JSON → M (Stats:=Stats) B)
    (acc : B) : M (Stats:=Stats) B :=
  items ← lift (iterate v);
  for_of items body acc.

(** The receiver [v] of a string method in [expr.method(...)]: the string,
    or the [TypeError] the call throws on another value. *)
Definition receiver (expr method : str) (v : value) : Error + str :=
  match v with
  | Some (JStr s) => inr s
  | Some JNull => inl (cannot_read method $"null")
  | None => inl (cannot_read method $"undefined")
  | _ => inl (not_a_function (expr ++ $"." ++ method))
  end.

(** [normalizeFilePath(v)] on a value that need not be a string: what
    [path.replace] makes of it. *)
Definition as_path (v : JSON) : Error + str :=
  receiver $"path" $"replace" (Some v).

Definition isTarFile (file : ArchiveFile) : bool :=
  JS.endsWith (JS.toLowerCase (file_name file)) $".tar"
  || bool_decide (file_type file = $"application/x-tar").

(** [name.replace(/[^a-zA-Z0-9-_]/g, '_')] *)
Definition safe_char (c : ascii) : bool :=
  let n := nat_of_ascii c in
  ((97 <=? n) && (n <=? 122) || (65 <=? n) && (n <=? 90)
   || (48 <=? n) && (n <=? 57) || (n =? 45) || (n =? 95))%nat.

Definition sanitize (s : str) : str :=
  map (λ c, if safe_char c then c else "_"%char) s.

(** ** EntryResolver, tail-matching variant

    [findFileInZip] and [findFileInTar] as they stand, with the same text,
    in the three variants that keep statistics. *)
Module TailMatch.

(** The loop [for (let i = 1; i <= searchParts.length; i++)] with its
    early exit. *)
Definition tail_loop (parts searchParts : list str) : bool :=
  forallb
    (λ i : nat,
       bool_decide (JS.at_index parts (Z.of_nat (length parts) - Z.of_nat i)
                    = JS.at_index searchParts
                        (Z.of_nat (length searchParts) - Z.of_nat i)))
    (seq 1 (length searchParts)).

Definition findFileInZip (zip : JSZip) (searchPath : str)
  : option JSZipObject :=
  let normalizedSearchPath := normalizeFilePath searchPath in
  match zip_file zip normalizedSearchPath with
  | Some file => Some file
  | None =>
      let matchingFile :=
        find (λ f, tail_loop (segments f) (segments normalizedSearchPath))
             (allFiles zip) in
      match matchingFile with
      | Some (c :: f) => zip_file zip (c :: f)
      | Some [] => None               (* the empty string is falsy *)
      | None => None
      end
  end.

Fixpoint findFileInTar (tar : Tar) (searchPath : str) : option bytes :=
  let normalizedSearchPath := normalizeFilePath searchPath in
  match tar with
  | [] => None
  | None :: rest => findFileInTar rest searchPath
  | Some entry :: rest =>
      match tar_name entry with
      | [] => findFileInTar rest searchPath
      | _ :: _ =>
          let entryPath := normalizeFilePath (tar_name entry) in
          if tail_loop (segments entryPath) (segments normalizedSearchPath)
          then Some (buffer entry)
          else findFileInTar rest searchPath
      end
  end.

End TailMatch.

(** ** EntryResolver, [MainTestFolder] variant

    [findFileInZip] and [findFileInTar] of the variants that try a fixed
    directory prefix. *)
Module MainTestFolder.

Definition prefix : str := $"MainTestFolder/".

Definition findFileInZip (zip : JSZip) (searchPath : str)
  : option JSZipObject :=
  let normalizedSearchPath := normalizeFilePath searchPath in
  match zip_file zip normalizedSearchPath with
  | Some file => Some file
  | None =>
  match zip_file zip (prefix ++ normalizedSearchPath) with
  | Some file => Some file
  | None =>
  match (if JS.startsWith normalizedSearchPath prefix
         then zip_file zip (JS.replace_first prefix [] normalizedSearchPath)
         else None) with
  | Some file => Some file
  | None =>
      match find (λ f, JS.endsWith f normalizedSearchPath) (allFiles zip) with
      | Some (c :: f) => zip_file zip (c :: f)
      | Some [] => None
      | None => None
      end
  end end end.

Fixpoint findFileInTar (tar : Tar) (searchPath : str) : option bytes :=
  let normalizedSearchPath := normalizeFilePath searchPath in
  match tar with
  | [] => None
  | None :: rest => findFileInTar rest searchPath
  | Some entry :: rest =>
      match tar_name entry with
      | [] => findFileInTar rest searchPath
      | _ :: _ =>
          let entryPath := normalizeFilePath (tar_name entry) in
          if bool_decide (entryPath = normalizedSearchPath)
             || bool_decide (entryPath = prefix ++ normalizedSearchPath)
             || (JS.startsWith normalizedSearchPath prefix
                 && bool_decide
                      (entryPath
                       = JS.replace_first prefix [] normalizedSearchPath))
          then Some (buffer entry)
          else findFileInTar rest searchPath
      end
  end.


(** The ZIP loop body of [processFiles]. *)
Definition process_link_zip (sourceZip : JSZip) (folderName : str)
    (processedZip : Blob) (link : JSON) : M (Stats:=Empty_set) Blob :=
  if negb (Value.truthy (Some link)) || negb (Value.is_string (Some link))
  then addDebugLog $"Skipping invalid link" ;; ret processedZip
  else
    match link with
    | JStr link =>
        let normalizedLink := normalizeFilePath link in
        match findFileInZip sourceZip normalizedLink with
        | Some file =>
            addDebugLog ($"Found file: " ++ name file) ;;
            let content := data file in
            match JS.pop (segments normalizedLink) with
            | Some (c :: fileName) =>
                addDebugLog ($"Successfully processed: " ++ c :: fileName
                             ++ $" into " ++ folderName) ;;
                ret (Output.folder_file processedZip (Some (JStr folderName))
                       (c :: fileName) content)
            | _ => ret processedZip
            end
        | None =>
            addDebugLog ($"File not found: " ++ normalizedLink) ;;
            ret processedZip
        end
    | _ => ret processedZip
    end.

(** The TAR loop body of [processFiles]. *)
Definition process_link_tar (tarBuffer : Tar) (folderName : str)
    (processedZip : Blob) (link : JSON) : M (Stats:=Empty_set) Blob :=
  if negb (Value.truthy (Some link)) || negb (Value.is_string (Some link))
  then addDebugLog $"Skipping invalid link" ;; ret processedZip
  else
    match link with
    | JStr link =>
        let normalizedLink := normalizeFilePath link in
        match findFileInTar tarBuffer normalizedLink with
        | Some fileContent =>
            addDebugLog ($"Found file: " ++ normalizedLink) ;;
            match JS.pop (segments normalizedLink) with
            | Some (c :: fileName) =>
                addDebugLog ($"Successfully processed: " ++ c :: fileName
                             ++ $" into " ++ folderName) ;;
                ret (Output.folder_file processedZip (Some (JStr folderName))
                       (c :: fileName) fileContent)
            | _ => ret processedZip
            end
        | None =>
            addDebugLog ($"File not found: " ++ normalizedLink) ;;
            ret processedZip
        end
    | _ => ret processedZip
    end.

(** The body of [for (const folderConfig of config)], the same in both
    branches but for the loop over the links. *)
Definition process_folder
    (process_link : str → Blob → JSON → M (Stats:=Empty_set) Blob)
    (processedZip : Blob) (folderConfig : JSON) : M (Stats:=Empty_set) Blob :=
  if negb (Value.truthy (Some folderConfig))
     || negb (Value.is_object folderConfig)
  then addDebugLog $"Skipping invalid folder configuration" ;;
       ret processedZip
  else
    let reviewTest := Value.get $"Review Test" folderConfig in
    match reviewTest with
    | Some (JStr (c :: s)) =>
        let folderName := sanitize (c :: s) in
        let links :=
          match Value.get $"Links" folderConfig with
          | Some (JArr items) => items
          | _ => []
          end in
        if bool_decide (length links = 0%nat)
        then addDebugLog ($"No links found for folder: " ++ folderName) ;;
             ret processedZip
        else
          addDebugLog ($"Processing folder: " ++ folderName) ;;
          addDebugLog ($"Looking for files: " ++ Value.join $", " links) ;;
          for_of links (process_link folderName) processedZip
    | _ =>
        addDebugLog $"Skipping folder with invalid Review Test name" ;;
        ret processedZip
    end.

Definition processFiles (archiveFile : option ArchiveFile)
    (jsonFile : option JsonFile) : M (Stats:=Empty_set) unit :=
  match archiveFile, jsonFile with
  | Some archiveFile, Some jsonFile =>
      try_catch
        (onStatusChange processing ;;
         setDebug (λ _, []) ;;
         config ← parse jsonFile;
         (if negb (Value.isArray (Some config)) then throw InvalidFormat
          else ret tt) ;;
         addDebugLog $"JSON config loaded successfully" ;;
         processedZip ←
           (if isTarFile archiveFile
            then
              tarBuffer ← arrayBuffer archiveFile;
              addDebugLog $"TAR file loaded successfully" ;;
              for_each (Some config)
                (process_folder (process_link_tar tarBuffer)) ∅
            else
              sourceZip ← loadAsync archiveFile;
              addDebugLog ($"ZIP file loaded. Available files: "
                           ++ Value.join_strings $", " (allFiles sourceZip)) ;;
              for_each (Some config)
                (process_folder (process_link_zip sourceZip)) ∅);
         setProcessedZip processedZip ;;
         onStatusChange success ;;
         addDebugLog $"ZIP file generated successfully")
        (λ e,
           onError (message e) ;;
           onStatusChange error ;;
           addDebugLog ($"Error: " ++ message e))
  | _, _ => onError $"Please upload both archive and JSON files"
  end.

End MainTestFolder.

(** [link.split('/').pop() || link] *)
Definition link_fileName (link : str) : str :=
  match JS.pop (segments link) with
  | Some (c :: fileName) => c :: fileName
  | _ => link
  end.

(** [folderConfig.Links || []] *)
Definition or_empty (v : value) : value :=
  if Value.truthy v then v else Some (JArr []).

(** ** The first component: exact keys, sanitised group names
    ([src/components/FileProcessor.tsx]) *)
Module Plain.

Definition process_link (sourceZip : JSZip) (folderName : str)
    (processedZip : Blob) (link : JSON) : M (Stats:=Empty_set) Blob :=
  match zip_file sourceZip (Value.to_string link) with
  | Some file =>
      let content := data file in
      link ← lift (receiver $"link" $"split" (Some link));
      match JS.pop (segments link) with
      | Some fileName =>
          ret (Output.folder_file processedZip (Some (JStr folderName))
                 fileName content)
      | None => ret processedZip
      end
  | None => ret processedZip
  end.

Definition process_folder (sourceZip : JSZip) (processedZip : Blob)
    (folderConfig : JSON) : M (Stats:=Empty_set) Blob :=
  reviewTest ←
    match folderConfig with
    | JNull => throw (cannot_read $"Review Test" $"null")
    | _ => ret (Value.get $"Review Test" folderConfig)
    end;
  reviewTest ← lift (receiver $"folderConfig.Review Test" $"replace"
                       reviewTest);
  let folderName := sanitize reviewTest in
  let links := Value.get $"Links" folderConfig in
  for_each links (process_link sourceZip folderName) processedZip.

Definition processFiles (zipFile : option ArchiveFile)
    (jsonFile : option JsonFile) : M (Stats:=Empty_set) unit :=
  match zipFile, jsonFile with
  | Some zipFile, Some jsonFile =>
      try_catch
        (onStatusChange processing ;;
         config ← parse jsonFile;
         sourceZip ← loadAsync zipFile;
         processedZip ← for_each (Some config) (process_folder sourceZip) ∅;
         setProcessedZip processedZip ;;
         onStatusChange success)
        (λ e, onError (message e) ;; onStatusChange error)
  | _, _ => onError $"Please upload both ZIP and JSON files"
  end.

End Plain.

(** ** The component that counts the files of each group
    (first file of [part_000]) *)
Module Counted.

Record FolderStats := {
  name : value;
  fileCount : nat;
  files : list str;
}.

(** The body of [for (const link of folderConfig.Links || [])], the same
    in both branches but for the resolver: [resolve] is [findFileInTar]
    on the buffer, or [findFileInZip] followed by [file.async]. *)
Definition process_link (resolve : str → option bytes) (folderName : value)
    (acc : FolderStats * Blob) (link : JSON)
  : M (Stats:=FolderStats) (FolderStats * Blob) :=
  let '(folderStat, processedZip) := acc in
  link ← lift (as_path link);
  match resolve link with
  | Some content =>
      let fileName := link_fileName link in
      let folderStat :=
        {| name := name folderStat;
           fileCount := S (fileCount folderStat);
           files := files folderStat ++ [fileName] |} in
      ret (folderStat,
           Output.folder_file processedZip folderName fileName content)
  | None => ret acc
  end.

Definition process_folder (resolve : str → option bytes)
    (acc : list FolderStats * Blob) (folderConfig : JSON)
  : M (Stats:=FolderStats) (list FolderStats * Blob) :=
  let '(newFolderStats, processedZip) := acc in
  if negb (Value.truthy (Some folderConfig))
     || negb (Value.is_object folderConfig)
  then ret acc
  else
    let folderName := Value.get $"Review Test" folderConfig in
    let folderStat := {| name := folderName; fileCount := 0; files := [] |} in
    '(folderStat, processedZip) ←
      for_each (or_empty (Value.get $"Links" folderConfig))
        (process_link resolve folderName) (folderStat, processedZip);
    ret (newFolderStats ++ [folderStat], processedZip).

Definition processFiles (archiveFile : option ArchiveFile)
    (jsonFile : option JsonFile) : M (Stats:=FolderStats) unit :=
  match archiveFile, jsonFile with
  | Some archiveFile, Some jsonFile =>
      try_catch
        (onStatusChange processing ;;
         setDebug (λ _, []) ;;
         config ← parse jsonFile;
         (if negb (Value.isArray (Some config)) then throw InvalidFormat
          else ret tt) ;;
         addDebugLog $"JSON config loaded successfully" ;;
         '(newFolderStats, processedZip) ←
           (if isTarFile archiveFile
            then
              tarBuffer ← arrayBuffer archiveFile;
              addDebugLog $"TAR file loaded successfully" ;;
              for_each (Some config)
                (process_folder (TailMatch.findFileInTar tarBuffer)) ([], ∅)
            else
              sourceZip ← loadAsync archiveFile;
              for_each (Some config)
                (process_folder
                   (λ link, data <$> TailMatch.findFileInZip sourceZip link))
                ([], ∅));
         setFolderStats newFolderStats ;;
         setProcessedZip processedZip ;;
         onStatusChange success)
        (λ e,
           onError (message e) ;;
           onStatusChange error ;;
           addDebugLog ($"Error: " ++ message e))
  | _, _ => onError $"Please upload both archive and JSON files"
  end.

End Counted.

(** ** The component with the file tree and the processing log
    (first file of [part_001]) *)
Module Logged.

Record FolderStats := {
  name : value;
  fileCount : nat;
  files : list str;
}.

(** The body of the loop over the links, the same in both branches but
    for the resolver, as in [Counted]. *)
Definition process_link (resolve : str → option bytes) (folderName : value)
    (acc : FolderStats * Blob) (link : JSON)
  : M (Stats:=FolderStats) (FolderStats * Blob) :=
  let '(folderStat, processedZip) := acc in
  addDebugLog ($"Processing file: " ++ Value.to_string link) ;;
  link ← lift (as_path link);
  match resolve link with
  | Some content =>
      let fileName := link_fileName link in
      let folderStat :=
        {| name := name folderStat;
           fileCount := S (fileCount folderStat);
           files := files folderStat ++ [fileName] |} in
      addDebugLog ($"Successfully processed file: " ++ fileName) ;;
      ret (folderStat,
           Output.folder_file processedZip folderName fileName content)
  | None =>
      addDebugLog ($"Warning: File not found: " ++ link) ;;
      ret acc
  end.

Definition process_folder (resolve : str → option bytes)
    (acc : list FolderStats * Blob) (folderConfig : JSON)
  : M (Stats:=FolderStats) (list FolderStats * Blob) :=
  let '(newFolderStats, processedZip) := acc in
  if negb (Value.truthy (Some folderConfig))
     || negb (Value.is_object folderConfig)
  then ret acc
  else
    let folderName := Value.get $"Review Text" folderConfig in
    addDebugLog ($"Processing folder: " ++ Value.show folderName) ;;
    let folderStat := {| name := folderName; fileCount := 0; files := [] |} in
    '(folderStat, processedZip) ←
      for_each (or_empty (Value.get $"Links" folderConfig))
        (process_link resolve folderName) (folderStat, processedZip);
    ret (newFolderStats ++ [folderStat], processedZip).

Definition processFiles (archiveFile : option ArchiveFile)
    (jsonFile : option JsonFile) : M (Stats:=FolderStats) unit :=
  match archiveFile, jsonFile with
  | Some archiveFile, Some jsonFile =>
      try_catch
        (onStatusChange processing ;;
         addDebugLog $"Starting file processing" ;;
         config ← parse jsonFile;
         addDebugLog $"JSON configuration loaded successfully" ;;
         (if negb (Value.isArray (Some config)) then throw InvalidFormat
          else ret tt) ;;
         '(newFolderStats, processedZip) ←
           (if isTarFile archiveFile
            then
              addDebugLog $"Processing TAR file" ;;
              tarBuffer ← arrayBuffer archiveFile;
              for_each (Some config)
                (process_folder (TailMatch.findFileInTar tarBuffer)) ([], ∅)
            else
              addDebugLog $"Processing ZIP file" ;;
              sourceZip ← loadAsync archiveFile;
              for_each (Some config)
                (process_folder
                   (λ link, data <$> TailMatch.findFileInZip sourceZip link))
                ([], ∅));
         setFolderStats newFolderStats ;;
         setProcessedZip processedZip ;;
         onStatusChange success ;;
         addDebugLog $"File processing completed successfully")
        (λ e,
           onError (message e) ;;
           onStatusChange error ;;
           addDebugLog ($"Error during processing: " ++ message e))
  | _, _ => onError $"Please upload both archive and JSON files"
  end.

End Logged.

(** ** The component that classifies each file as insert or update
    (second file of [part_002]) *)
Module Operations.

Inductive Operation := OpInsert | OpUpdate.

Definition operation_text (op : Operation) : str :=
  match op with
  | OpInsert => $"insert"
  | OpUpdate => $"update"
  end.

Record FileStat := {
  file_stat_name : str;
  operation : Operation;
}.

Record FolderStats := {
  name : value;
  fileCount : nat;
  insertCount : nat;
  updateCount : nat;
  files : list FileStat;
}.

Definition determineOperation (link : str) : Operation :=
  let lowerLink := JS.toLowerCase link in
  if JS.includes lowerLink $"update" || JS.includes lowerLink $"modify"
  then OpUpdate else OpInsert.

(** The body of [for (const link of folderConfig.Links || [])]. *)
Definition process_link (sourceZip : JSZip) (folderName : value)
    (acc : FolderStats * Blob) (link : JSON)
  : M (Stats:=FolderStats) (FolderStats * Blob) :=
  let '(folderStat, processedZip) := acc in
  addDebugLog ($"Processing file: " ++ Value.to_string link) ;;
  link ← lift (as_path link);
  match TailMatch.findFileInZip sourceZip link with
  | Some file =>
      let fileName := link_fileName link in
      let operation := determineOperation link in
      let folderStat :=
        {| name := name folderStat;
           fileCount := S (fileCount folderStat);
           insertCount :=
             match operation with
             | OpInsert => S (insertCount folderStat)
             | OpUpdate => insertCount folderStat
             end;
           updateCount :=
             match operation with
             | OpInsert => updateCount folderStat
             | OpUpdate => S (updateCount folderStat)
             end;
           files :=
             files folderStat
             ++ [{| file_stat_name := fileName; operation := operation |}]
        |} in
      let content := data file in
      addDebugLog ($"Successfully processed file: " ++ fileName ++ $" ("
                   ++ operation_text operation ++ $")") ;;
      ret (folderStat,
           Output.folder_file processedZip folderName fileName content)
  | None =>
      addDebugLog ($"Warning: File not found: " ++ link) ;;
      ret acc
  end.

Definition process_folder (sourceZip : JSZip)
    (acc : list FolderStats * Blob) (folderConfig : JSON)
  : M (Stats:=FolderStats) (list FolderStats * Blob) :=
  let '(newFolderStats, processedZip) := acc in
  if negb (Value.truthy (Some folderConfig))
     || negb (Value.is_object folderConfig)
  then ret acc
  else
    let folderName := Value.get $"Review Text" folderConfig in
    addDebugLog ($"Processing folder: " ++ Value.show folderName) ;;
    let folderStat :=
      {| name := folderName; fileCount := 0; insertCount := 0;
         updateCount := 0; files := [] |} in
    '(folderStat, processedZip) ←
      for_each (or_empty (Value.get $"Links" folderConfig))
        (process_link sourceZip folderName) (folderStat, processedZip);
    ret (newFolderStats ++ [folderStat], processedZip).

Definition processFiles (archiveFile : option ArchiveFile)
    (jsonFile : option JsonFile) : M (Stats:=FolderStats) unit :=
  match archiveFile, jsonFile with
  | Some archiveFile, Some jsonFile =>
      try_catch
        (onStatusChange processing ;;
         addDebugLog $"Starting file processing" ;;
         config ← parse jsonFile;
         addDebugLog $"JSON configuration loaded successfully" ;;
         (if negb (Value.isArray (Some config)) then throw InvalidFormat
          else ret tt) ;;
         sourceZip ← loadAsync archiveFile;
         '(newFolderStats, processedZip) ←
           for_each (Some config) (process_folder sourceZip) ([], ∅);
         setFolderStats newFolderStats ;;
         setProcessedZip processedZip ;;
         onStatusChange success ;;
         addDebugLog $"File processing completed successfully")
        (λ e,
           onError (message e) ;;
           onStatusChange error ;;
           addDebugLog ($"Error during processing: " ++ message e))
  | _, _ => onError $"Please upload both archive and JSON files"
  end.

End Operations.

(** A freshly mounted component. *)
Definition mounted {Stats} : Component Stats :=
  {| status := idle; errorMessage := None; processedZip := None;
     debug := []; folderStats := []; reads := [] |}.

(** ** The matching policy in the words of the specification

    Exact match of the normalised entry path against the normalised search
    path, then the first entry, in listing order, whose segments end with
    those of the search path. *)
Definition resolve_spec (entries : JSZip) (searchPath : str)
  : option JSZipObject :=
  let searchPath := normalizeFilePath searchPath in
  match find (λ e, bool_decide (normalizeFilePath (name e) = searchPath))
             entries with
  | Some e => Some e
  | None =>
      find (λ e, bool_decide (segments searchPath
                              `suffix_of` segments (normalizeFilePath (name e))))
           entries
  end.

(** The file entries of an archive. *)
Definition file_entries (zip : JSZip) : JSZip :=
  filter (λ o, dir o = false) zip.

(** What JSZip keeps true of [zip.files]: a key names one entry, and the
    directories are the entries whose key ends with a slash. *)
Definition well_keyed (zip : JSZip) : Prop :=
  NoDup (name <$> zip)
  ∧ ∀ o, o ∈ zip → dir o = true ↔ last (name o) = Some JS.slash.

(** A file entry, for the examples. *)
Definition file_entry (path : str) (content : bytes) : JSZipObject :=
  {| name := path; dir := false; data := content |}.

(** ** Statements *)

(** The counters of a group agree with its list of files. *)
Definition counts_agree (s : Operations.FolderStats) : Prop :=
  (Operations.insertCount s + Operations.updateCount s
   = Operations.fileCount s)%nat
  ∧ Operations.fileCount s = length (Operations.files s).

(** A word without slash or backslash: the keywords are such words. *)
Definition plain (w : str) : Prop := (JS.slash ∉ w) ∧ (JS.backslash ∉ w).

(** The state a run ends in. *)
Definition final {Stats} (run : M (Stats:=Stats) unit) (c : Component Stats)
  : Component Stats := (run c).1.

(** What a run that stops at the validation leaves: the status and the
    message of the failure, the blob and the statistics it found, and one
    read, of the configuration. *)
Definition aborted_on_validation {Stats} (c c' : Component Stats) : Prop :=
  status c' = error
  ∧ errorMessage c' = Some $"Invalid JSON format: expected an array"
  ∧ processedZip c' = processedZip c
  ∧ folderStats c' = folderStats c
  ∧ reads c' = reads c ++ [ReadJson].

(** Two states that differ in the processing log at most. *)
Definition same_but_log {Stats} (c1 c2 : Component Stats) : Prop :=
  status c1 = status c2
  ∧ errorMessage c1 = errorMessage c2
  ∧ processedZip c1 = processedZip c2
  ∧ folderStats c1 = folderStats c2
  ∧ reads c1 = reads c2.

(** Two computations that, from states that differ in the log at most,
    end alike but for the log. *)
Definition alike {Stats A} (m1 m2 : M (Stats:=Stats) A) : Prop :=
  ∀ c1 c2, same_but_log c1 c2 →
    same_but_log (m1 c1).1 (m2 c2).1 ∧ (m1 c1).2 = (m2 c2).2.




(** ** A round trip, and an archive where it is ambiguous *)
Module RoundTrip.

Definition entry : JSZipObject := file_entry $"a/b/c.txt" [Byte.x2a].

Definition zip : JSZip :=
  [file_entry $"readme.md" [Byte.x00]; entry;
   file_entry $"z/a/b/c.txt" [Byte.x07]].

Definition archive : ArchiveFile :=
  {| file_name := $"logs.zip"; file_type := $"application/zip";
     as_zip := inr zip; as_tar := [] |}.



Definition group : JSON :=
  JObj [($"Review Text", JStr $"GroupA");
        ($"Links", JArr [JStr $"b/c.txt"; JStr $"readme.md"])].

Definition config : JsonFile := {| parsed := inr (JArr [group]) |}.

End RoundTrip.

(** ** A scenario: two links, one of them an update *)
Module Scenario.

Definition archive : ArchiveFile :=
  {| file_name := $"logs.zip";
     file_type := $"application/zip";
     as_zip := inr [file_entry $"folder/update_file.txt" [Byte.x01];
                    file_entry $"x/other/file2.txt" [Byte.x02]];
     as_tar := [] |}.

Definition tar_archive : ArchiveFile :=
  {| file_name := $"logs.tar";
     file_type := $"application/x-tar";
     as_zip := inl (LibraryError $"not a zip file");
     as_tar := [Some {| tar_name := $"folder/update_file.txt";
                        buffer := [Byte.x01] |};
                Some {| tar_name := $"x/other/file2.txt";
                        buffer := [Byte.x02] |}] |}.

Definition found : list JSON :=
  [JStr $"folder/update_file.txt"; JStr $"other/file2.txt"].

(** A group, under the key the variant reads the name from. *)
Definition group (key : str) (links : list JSON) : JSON :=
  JObj [(key, JStr $"GroupA"); ($"Links", JArr links)].

(** The configuration: the two links and one that names no entry. *)
Definition config (key : str) : JsonFile :=
  {| parsed := inr (JArr [group key (found ++ [JStr $"missing.txt"])]) |}.

(** A group whose name holds a space. *)
Definition spaced : list JSON :=
  [JObj [($"Review Test", JStr $"Group A");
         ($"Links", JArr [JStr $"folder/update_file.txt"])]].


End Scenario.

(** * Runs and trees: further definitions *)

(** ** The components of a path *)

(** The components of a path: its segments that are not empty. *)
Definition components (p : str) : list str :=
  filter (λ seg, seg ≠ []) (segments p).

(** ** What a computation leaves alone *)

(** A computation that leaves every state related, by [R], to the state it
    started in, whether it returns or throws. *)
Definition keeps {Stats A} (R : relation (Component Stats))
    (m : M (Stats:=Stats) A) : Prop :=
  ∀ c, R c (m c).1.

(** The blob and the statistics of the last completed run. *)
Definition same_results {Stats} (c c' : Component Stats) : Prop :=
  processedZip c' = processedZip c ∧ folderStats c' = folderStats c.

Definition same_reads {Stats} (c c' : Component Stats) : Prop :=
  reads c' = reads c.

Definition log_grows {Stats} (c c' : Component Stats) : Prop :=
  debug c `prefix_of` debug c'.

Definition same_error {Stats} (c c' : Component Stats) : Prop :=
  errorMessage c' = errorMessage c.

(** How a run given both files ends: in [success] with a blob and the
    error message it found, or in [error] with a message and the blob and
    statistics it found. *)
Definition run_outcome {Stats} (c c' : Component Stats) : Prop :=
  (status c' = success ∧ is_Some (processedZip c')
   ∧ errorMessage c' = errorMessage c)
  ∨ (status c' = error ∧ is_Some (errorMessage c') ∧ same_results c c').

(** A computation that ends, whenever it returns, in a state where [Q]
    holds. *)
Definition returns_in {Stats A} (Q : Component Stats → Prop)
    (m : M (Stats:=Stats) A) : Prop :=
  ∀ c c' a, m c = (c', Returned a) → Q c'.

(** A computation that, started in a state related to [c0] by [R], is
    still in such a state when it throws. *)
Definition throws_in {Stats A} (R : relation (Component Stats))
    (c0 : Component Stats) (m : M (Stats:=Stats) A) : Prop :=
  ∀ c c' e, R c0 c → m c = (c', Thrown e) → R c0 c'.

(** ** The reads and the report of a run *)

(** The reads of a run given both files: the configuration, then the
    archive when the run gets that far. *)
Definition file_reads (archive : bool) : list FileRead :=
  ReadJson :: (if archive then [ReadArchive] else []).

(** The configuration file holds JSON text. *)
Definition parsed_value (jsonFile : JsonFile) : bool :=
  match parsed jsonFile with inr _ => true | inl _ => false end.

(** The configuration file holds the JSON text of an array. *)
Definition parsed_array (jsonFile : JsonFile) : bool :=
  match parsed jsonFile with
  | inr config => Value.isArray (Some config)
  | inl _ => false
  end.

(** What a run that fails on [e] leaves of the failure. *)
Definition reports {Stats} (e : Error) (c' : Component Stats) : Prop :=
  status c' = error ∧ errorMessage c' = Some (message e).

(** ** A completed run as a function of its two files

    What the loops of the three components that keep statistics leave
    when they complete, written without the loops. *)

(** The entries of the configuration the loop over the groups does not
    skip. *)
Definition is_group (folderConfig : JSON) : bool :=
  Value.truthy (Some folderConfig) && Value.is_object folderConfig.

(** The values the loop over [folderConfig.Links || []] visits. *)
Definition links_of (folderConfig : JSON) : list JSON :=
  match iterate (or_empty (Value.get $"Links" folderConfig)) with
  | inr links => links
  | inl _ => []
  end.

Definition link_text (link : JSON) : option str :=
  match link with
  | JStr l => Some l
  | _ => None
  end.

(** A group the loops get through: its links can be iterated, and each is
    a string. *)
Definition string_links (folderConfig : JSON) : bool :=
  match iterate (or_empty (Value.get $"Links" folderConfig)) with
  | inr links => forallb (λ link, Value.is_string (Some link)) links
  | inl _ => false
  end.

(** The way a run reads the archive: the TAR reader when the component has
    a TAR branch and takes the file for a TAR file, JSZip otherwise. *)
Definition source_of (tar_branch : bool) (archiveFile : ArchiveFile)
  : option (str → option bytes) :=
  if tar_branch && isTarFile archiveFile
  then Some (TailMatch.findFileInTar (as_tar archiveFile))
  else
    match as_zip archiveFile with
    | inr zip => Some (λ link, data <$> TailMatch.findFileInZip zip link)
    | inl _ => None
    end.

(** The links of a group as strings, and those that resolve. *)
Definition links_text (folderConfig : JSON) : list str :=
  omap link_text (links_of folderConfig).

Definition resolved (resolve : str → option bytes) (folderConfig : JSON)
  : list str :=
  filter (λ link, is_Some (resolve link)) (links_text folderConfig).

(** One link written to the new archive. *)
Definition write (resolve : str → option bytes) (folderName : value)
    (out : Blob) (link : str) : Blob :=
  match resolve link with
  | Some content =>
      Output.folder_file out folderName (link_fileName link) content
  | None => out
  end.

(** The new archive of a configuration. *)
Definition new_archive (key : str) (resolve : str → option bytes)
    (items : list JSON) : Blob :=
  foldl (λ out folderConfig,
           foldl (write resolve (Value.get key folderConfig)) out
                 (links_text folderConfig))
        ∅ (filter (λ g, is_group g) items).


(** The statistics of a group in the three components. *)
Definition counted_stats (resolve : str → option bytes) (folderConfig : JSON)
  : Counted.FolderStats :=
  let files := link_fileName <$> resolved resolve folderConfig in
  {| Counted.name := Value.get $"Review Test" folderConfig;
     Counted.fileCount := length files;
     Counted.files := files |}.

Definition logged_stats (resolve : str → option bytes) (folderConfig : JSON)
  : Logged.FolderStats :=
  let files := link_fileName <$> resolved resolve folderConfig in
  {| Logged.name := Value.get $"Review Text" folderConfig;
     Logged.fileCount := length files;
     Logged.files := files |}.

Global Instance operation_eq_dec : EqDecision Operations.Operation.
Proof. solve_decision. Defined.

Definition operations_stats (resolve : str → option bytes)
    (folderConfig : JSON) : Operations.FolderStats :=
  let links := resolved resolve folderConfig in
  let operations := Operations.determineOperation <$> links in
  {| Operations.name := Value.get $"Review Text" folderConfig;
     Operations.fileCount := length links;
     Operations.insertCount :=
       length (filter (λ op, op = Operations.OpInsert) operations);
     Operations.updateCount :=
       length (filter (λ op, op = Operations.OpUpdate) operations);
     Operations.files :=
       (λ link,
          {| Operations.file_stat_name := link_fileName link;
             Operations.operation := Operations.determineOperation link |})
       <$> links |}.

(** What one pass over a link computes: from a string that resolves, the
    record [add] makes and the file written; from a string that does not,
    nothing new. *)
Definition link_pass {St} (resolve : str → option bytes) (folderName : value)
    (add : St → str → St) (acc : St * Blob) (link : JSON) : St * Blob :=
  match link_text link with
  | Some l =>
      match resolve l with
      | Some content =>
          (add acc.1 l,
           Output.folder_file acc.2 folderName (link_fileName l) content)
      | None => acc
      end
  | None => acc
  end.

(** What one pass over an entry of the configuration computes. *)
Definition group_pass {St} (key : str) (resolve : str → option bytes)
    (init : value → St) (add : St → str → St)
    (acc : list St * Blob) (folderConfig : JSON) : list St * Blob :=
  if is_group folderConfig
  then
    let folderName := Value.get key folderConfig in
    let done :=
      foldl (link_pass resolve folderName add) (init folderName, acc.2)
            (links_of folderConfig) in
    (acc.1 ++ [done.1], done.2)
  else acc.

Definition counted_add (st : Counted.FolderStats) (link : str)
  : Counted.FolderStats :=
  {| Counted.name := Counted.name st;
     Counted.fileCount := S (Counted.fileCount st);
     Counted.files := Counted.files st ++ [link_fileName link] |}.

Definition logged_add (st : Logged.FolderStats) (link : str)
  : Logged.FolderStats :=
  {| Logged.name := Logged.name st;
     Logged.fileCount := S (Logged.fileCount st);
     Logged.files := Logged.files st ++ [link_fileName link] |}.

Definition operations_add (st : Operations.FolderStats) (link : str)
  : Operations.FolderStats :=
  let operation := Operations.determineOperation link in
  {| Operations.name := Operations.name st;
     Operations.fileCount := S (Operations.fileCount st);
     Operations.insertCount :=
       match operation with
       | Operations.OpInsert => S (Operations.insertCount st)
       | Operations.OpUpdate => Operations.insertCount st
       end;
     Operations.updateCount :=
       match operation with
       | Operations.OpInsert => Operations.updateCount st
       | Operations.OpUpdate => S (Operations.updateCount st)
       end;
     Operations.files :=
       Operations.files st
       ++ [{| Operations.file_stat_name := link_fileName link;
              Operations.operation := operation |}] |}.

Definition counted_init (folderName : value) : Counted.FolderStats :=
  {| Counted.name := folderName; Counted.fileCount := 0;
     Counted.files := [] |}.

Definition logged_init (folderName : value) : Logged.FolderStats :=
  {| Logged.name := folderName; Logged.fileCount := 0; Logged.files := [] |}.

Definition operations_init (folderName : value) : Operations.FolderStats :=
  {| Operations.name := folderName; Operations.fileCount := 0;
     Operations.insertCount := 0; Operations.updateCount := 0;
     Operations.files := [] |}.

(** ** Computations that cannot throw *)

(** A computation that returns from every state. *)
Definition completes {Stats A} (m : M (Stats:=Stats) A) : Prop :=
  ∀ c, ∃ c' a, m c = (c', Returned a).

(** ** The tree of the archive ([buildFileTree])

    The two components with an input tab list the entries of the archive
    as a tree. A node is a file or a folder; the later component gives a
    file its size and a folder the counts of the files below it. *)
Module FileTree.

Record FileStats := {
  empty : nat;
  nonEmpty : nat;
  total : nat;
}.

(** [TreeNode]: [size] is the field of a file, [children] and [fileStats]
    are those of a folder; the earlier component has neither [size] nor
    [fileStats], and takes [unit] for both. *)
#[warnings="-register-all"] Inductive TreeNode {Size Stats : Type} :=
| File (name path : str) (size : Size)
| Folder (name path : str) (children : list TreeNode) (fileStats : Stats).
Arguments TreeNode : clear implicits.

Definition node_name {Size Stats} (n : TreeNode Size Stats) : str :=
  match n with
  | File name _ _ | Folder name _ _ _ => name
  end.

Definition node_path {Size Stats} (n : TreeNode Size Stats) : str :=
  match n with
  | File _ path _ | Folder _ path _ _ => path
  end.

(** [currentPath += (currentPath ? '/' : '') + part] *)
Definition child_path (currentPath part : str) : str :=
  currentPath ++ (if bool_decide (currentPath = []) then [] else [JS.slash])
  ++ part.

Section ProcessNode.
Context {Size Stats : Type}.
(** [size] is what [calculateFileStats] finds for the entry at the path,
    [zero] the [fileStats] of a new folder. *)
Context (size : Size) (zero : Stats).

(** The passes of the loop over the parts of a path once [currentLevel] is
    [node.children] of a file, that is [undefined]: an empty part is
    skipped, any other throws on [currentLevel.find]. *)
Definition off_the_tree (parts : list str) : Error + unit :=
  if forallb (λ part, bool_decide (part = [])) parts
  then inr tt
  else inl (cannot_read $"find" $"undefined").

(** The loop over the parts of a path, from part [i] on: [parts] are the
    parts not yet visited, [currentPath] and [currentLevel] the variables
    of the loop. The level is returned as the passes leave it. *)
Fixpoint process_parts (endsWithSlash : bool) (currentPath : str)
    (parts : list str) (currentLevel : list (TreeNode Size Stats))
  : Error + list (TreeNode Size Stats) :=
  match parts with
  | [] => inr currentLevel
  | part :: rest =>
      if bool_decide (part = [])
      then process_parts endsWithSlash currentPath rest currentLevel
      else
        let currentPath := child_path currentPath part in
        let isFile := bool_decide (rest = []) && negb endsWithSlash in
        match list_find (λ n, node_name n = part) currentLevel with
        | None =>
            if isFile
            then inr (currentLevel ++ [File part currentPath size])
            else
              match process_parts endsWithSlash currentPath rest [] with
              | inr children =>
                  inr (currentLevel
                       ++ [Folder part currentPath children zero])
              | inl e => inl e
              end
        | Some (i, File _ _ _) =>
            if isFile then inr currentLevel
            else
              match off_the_tree rest with
              | inr _ => inr currentLevel
              | inl e => inl e
              end
        | Some (i, Folder name path children fileStats) =>
            if isFile then inr currentLevel
            else
              match process_parts endsWithSlash currentPath rest children with
              | inr children =>
                  inr (<[i := Folder name path children fileStats]>
                         currentLevel)
              | inl e => inl e
              end
        end
  end.

End ProcessNode.

(** [processNode(path, tree)] of the ZIP branch. *)
Definition processNode {Size Stats} (size : Size) (zero : Stats) (path : str)
    (tree : list (TreeNode Size Stats)) : Error + list (TreeNode Size Stats) :=
  process_parts size zero (JS.endsWith path [JS.slash]) []
    (JS.split JS.slash path) tree.

(** The body of [parts.forEach] in the TAR branch, where a part is a file
    when it is the last. *)
Definition processTarEntry {Size Stats} (size : Size) (zero : Stats)
    (path : str) (tree : list (TreeNode Size Stats))
  : Error + list (TreeNode Size Stats) :=
  process_parts size zero false [] (JS.split JS.slash path) tree.

(** A loop over the paths that stops at the first that throws. *)
Fixpoint process_all {A T} (step : A → T → Error + T) (xs : list A) (tree : T)
  : Error + T :=
  match xs with
  | [] => inr tree
  | x :: xs =>
      match step x tree with
      | inr tree => process_all step xs tree
      | inl e => inl e
      end
  end.

(** [calculateFileStats] *)
Definition calculateFileStats (file : JSZipObject) : bool * nat :=
  (bool_decide (length (data file) = 0%nat), length (data file)).

(** The counters of [updateFolderStats], over the nodes below a folder. *)
Fixpoint count_node (n : TreeNode nat FileStats) (acc : FileStats)
  : FileStats :=
  match n with
  | File _ _ size =>
      {| total := S (total acc);
         empty := if bool_decide (size = 0%nat) then S (empty acc)
                  else empty acc;
         nonEmpty := if bool_decide (size = 0%nat) then nonEmpty acc
                     else S (nonEmpty acc) |}
  | Folder _ _ children _ =>
      foldl (λ acc n, count_node n acc) acc children
  end.

Definition no_files : FileStats := {| empty := 0; nonEmpty := 0; total := 0 |}.

Fixpoint updateFolderStats (node : TreeNode nat FileStats)
  : TreeNode nat FileStats :=
  match node with
  | File name path size => File name path size
  | Folder name path children _ =>
      Folder name path (updateFolderStats <$> children)
        (foldl (λ acc n, count_node n acc) no_files children)
  end.

(** The sizes of the files at and below a node, in order. *)
Fixpoint sizes {Stats} (n : TreeNode nat Stats) : list nat :=
  match n with
  | File _ _ size => [size]
  | Folder _ _ children _ => children ≫= sizes
  end.

(** The counts of a list of sizes. *)
Definition stats_of (sizes : list nat) : FileStats :=
  {| empty := length (filter (λ size, size = 0%nat) sizes);
     nonEmpty := length (filter (λ size, size ≠ 0%nat) sizes);
     total := length sizes |}.

(** A level of a tree as [processNode] keeps it, below the path [parent]:
    the names of the level are distinct, none is empty or holds a slash,
    the path of a node is the path of its parent, a slash, and its name,
    and so on below every folder. *)
Inductive well_formed {Size Stats} :
    str → list (TreeNode Size Stats) → Prop :=
| well_formed_level parent level :
    NoDup (node_name <$> level) →
    (∀ n, n ∈ level →
          node_name n ≠ [] ∧ (JS.slash ∉ node_name n)
          ∧ node_path n = child_path parent (node_name n)) →
    (∀ name path children fileStats,
       Folder name path children fileStats ∈ level →
       well_formed path children) →
    well_formed parent level.

(** A level whose folders, at every depth, hold the counts of the files
    below them. *)
Inductive counted : list (TreeNode nat FileStats) → Prop :=
| counted_level level :
    (∀ name path children fileStats,
       Folder name path children fileStats ∈ level →
       fileStats = stats_of (children ≫= sizes)) →
    (∀ name path children fileStats,
       Folder name path children fileStats ∈ level → counted children) →
    counted level.

(** The node at a path, given by its parts. *)
Fixpoint find_node {Size Stats} (parts : list str)
    (level : list (TreeNode Size Stats)) : option (TreeNode Size Stats) :=
  match parts with
  | [] => None
  | part :: rest =>
      match list_find (λ n, node_name n = part) level with
      | Some (_, node) =>
          match rest, node with
          | [], _ => Some node
          | _, Folder _ _ children _ => find_node rest children
          | _, File _ _ _ => None
          end
      | None => None
      end
  end.


Definition add_stats (a b : FileStats) : FileStats :=
  {| empty := empty a + empty b;
     nonEmpty := nonEmpty a + nonEmpty b;
     total := total a + total b |}.

End FileTree.

(** [buildFileTree] of the component with the processing log, as the tree
    it passes to [setFileTree] or the error its [catch] receives: the ZIP
    branch runs over the keys of [zip.files], the TAR branch over the
    entries the reader yields with a name. Its nodes have neither size
    nor counts. *)
Module LoggedTree.
Import FileTree.

Definition zip_tree (zip : JSZip) : Error + list (TreeNode unit unit) :=
  process_all (processNode tt tt) (name <$> zip) [].

Definition tar_tree (tar : Tar) : Error + list (TreeNode unit unit) :=
  process_all (processTarEntry tt tt)
    (filter (λ path, path ≠ []) (tar_name <$> omap id tar)) [].

Definition buildFileTree (file : ArchiveFile)
  : Error + list (TreeNode unit unit) :=
  let fileName := JS.toLowerCase (file_name file) in
  if JS.endsWith fileName $".zip"
  then
    match as_zip file with
    | inr zip => zip_tree zip
    | inl e => inl e
    end
  else if JS.endsWith fileName $".tar"
  then tar_tree (as_tar file)
  else inr [].

End LoggedTree.

(** [buildFileTree] of the component that classifies the files: the ZIP
    branch only, over the keys of [zip.files], with the size of each file,
    read from the entry at its key, and then the counts of every folder. *)
Module OperationsTree.
Import FileTree.

(** [zip.files[path]] *)
Definition files_at (zip : JSZip) (path : str) : option JSZipObject :=
  find (λ file, bool_decide (name file = path)) zip.

(** The size [calculateFileStats] finds at a key of the listing; a path
    that is no key has no entry, and [processNode] is given none. *)
Definition size_at (zip : JSZip) (path : str) : nat :=
  match files_at zip path with
  | Some file => (calculateFileStats file).2
  | None => 0
  end.

Definition zip_tree (zip : JSZip) : Error + list (TreeNode nat FileStats) :=
  match process_all
          (λ path, processNode (size_at zip path) no_files path)
          (name <$> zip) [] with
  | inr tree => inr (updateFolderStats <$> tree)
  | inl e => inl e
  end.

Definition buildFileTree (file : ArchiveFile)
  : Error + list (TreeNode nat FileStats) :=
  if JS.endsWith (JS.toLowerCase (file_name file)) $".zip"
  then
    match as_zip file with
    | inr zip => zip_tree zip
    | inl e => inl e
    end
  else inr [].

End OperationsTree.

(** [isZipFile] of the first [MainTestFolder] component. *)
Definition isZipFile (file : ArchiveFile) : bool :=
  bool_decide (file_type file = $"application/zip")
  || bool_decide (file_type file = $"application/x-zip-compressed")
  || JS.endsWith (JS.toLowerCase (file_name file)) $".zip".

(** [isValidArchive], the same in the four components that have it. *)
Definition isValidArchive (file : ArchiveFile) : bool :=
  let fileName := JS.toLowerCase (file_name file) in
  bool_decide (file_type file = $"application/zip")
  || bool_decide (file_type file = $"application/x-zip-compressed")
  || bool_decide (file_type file = $"application/x-tar")
  || JS.endsWith fileName $".zip"
  || JS.endsWith fileName $".tar".

(** [toggleNode] and [toggleOutputFolder], as the function they pass to the
    setter of the set of expanded paths. *)
Definition toggleNode (path : str) (prev : gset str) : gset str :=
  if decide (path ∈ prev) then prev ∖ {[path]} else prev ∪ {[path]}.

(** ** The first [MainTestFolder] component: the same resolver, no guards

    [processFiles] as the ZIP-only component has it: the resolver and the
    log of the [MainTestFolder] component, without its tests of the
    configuration, of the groups and of the links. *)
Module Unguarded.

(** The receiver [v] of an array method in [expr.method(...)]: the array,
    or the [TypeError] the call throws on another value. *)
Definition array_receiver (expr method : str) (v : value)
  : Error + list JSON :=
  match v with
  | Some (JArr items) => inr items
  | Some JNull => inl (cannot_read method $"null")
  | None => inl (cannot_read method $"undefined")
  | _ => inl (not_a_function (expr ++ $"." ++ method))
  end.

(** The body of [for (const link of links)]. *)
Definition process_link (sourceZip : JSZip) (folderName : str)
    (processedZip : Blob) (link : JSON) : M (Stats:=Empty_set) Blob :=
  link ← lift (as_path link);
  let normalizedLink := normalizeFilePath link in
  match MainTestFolder.findFileInZip sourceZip normalizedLink with
  | Some file =>
      addDebugLog ($"Found file: " ++ name file) ;;
      let content := data file in
      match JS.pop (segments normalizedLink) with
      | Some (c :: fileName) =>
          addDebugLog ($"Successfully processed: " ++ c :: fileName
                       ++ $" into " ++ folderName) ;;
          ret (Output.folder_file processedZip (Some (JStr folderName))
                 (c :: fileName) content)
      | _ => ret processedZip
      end
  | None =>
      addDebugLog ($"File not found: " ++ normalizedLink) ;;
      ret processedZip
  end.

(** The body of [for (const folderConfig of config)]. *)
Definition process_folder (sourceZip : JSZip) (processedZip : Blob)
    (folderConfig : JSON) : M (Stats:=Empty_set) Blob :=
  reviewTest ←
    match folderConfig with
    | JNull => throw (cannot_read $"Review Test" $"null")
    | _ => ret (Value.get $"Review Test" folderConfig)
    end;
  reviewTest ← lift (receiver $"folderConfig.Review Test" $"replace"
                       reviewTest);
  let folderName := sanitize reviewTest in
  let links := Value.get $"Links" folderConfig in
  addDebugLog ($"Processing folder: " ++ folderName) ;;
  links ← lift (array_receiver $"links" $"join" links);
  addDebugLog ($"Looking for files: " ++ Value.join $", " links) ;;
  for_of links (process_link sourceZip folderName) processedZip.

Definition processFiles (zipFile : option ArchiveFile)
    (jsonFile : option JsonFile) : M (Stats:=Empty_set) unit :=
  match zipFile, jsonFile with
  | Some zipFile, Some jsonFile =>
      try_catch
        (onStatusChange processing ;;
         setDebug (λ _, []) ;;
         config ← parse jsonFile;
         addDebugLog $"JSON config loaded successfully" ;;
         sourceZip ← loadAsync zipFile;
         addDebugLog ($"ZIP file loaded. Available files: "
                      ++ Value.join_strings $", " (allFiles sourceZip)) ;;
         processedZip ← for_each (Some config) (process_folder sourceZip) ∅;
         setProcessedZip processedZip ;;
         onStatusChange success ;;
         addDebugLog $"ZIP file generated successfully")
        (λ e,
           onError (message e) ;;
           onStatusChange error ;;
           addDebugLog ($"Error: " ++ message e))
  | _, _ => onError $"Please upload both ZIP and JSON files"
  end.

End Unguarded.

(** ** Configurations with and without the guards *)

(** A link the guards of the [MainTestFolder] component let through. *)
Definition guarded_link (link : JSON) : bool :=
  Value.truthy (Some link) && Value.is_string (Some link).

(** A group the guards of the [MainTestFolder] component let through: an
    object with a non-empty string for name and a non-empty array of
    links, each of them let through. *)
Definition guarded_group (folderConfig : JSON) : bool :=
  Value.truthy (Some folderConfig) && Value.is_object folderConfig
  && match Value.get $"Review Test" folderConfig with
     | Some (JStr (_ :: _)) => true
     | _ => false
     end
  && match Value.get $"Links" folderConfig with
     | Some (JArr (link :: links)) => forallb guarded_link (link :: links)
     | _ => false
     end.





(** * Properties *)

(** ** PathNormalizer *)

Example normalize_ex :
  normalizeFilePath $"\\a\\b//c.txt" = $"a/b/c.txt".
Proof. reflexivity. Qed.

Example segments_ex : segments $"a/b/" = [$"a"; $"b"; $""].
Proof. reflexivity. Qed.

Lemma replace_backslashes_free s : JS.backslash ∉ replace_backslashes s.
Proof.
  unfold replace_backslashes. intros [c [Hc _]]%list_elem_of_fmap.
  case_bool_decide; [discriminate|congruence].
Qed.

Lemma replace_backslashes_id s :
  JS.backslash ∉ s → replace_backslashes s = s.
Proof.
  unfold replace_backslashes. induction s as [|c s IH]; [done|].
  intros Hs. cbn. rewrite IH by set_solver.
  case_bool_decide; [set_solver|done].
Qed.

Lemma strip_leading_slashes_head s :
  head (strip_leading_slashes s) ≠ Some JS.slash.
Proof.
  induction s as [|c s IH]; [done|]. cbn.
  unfold JS.is_slash. case_bool_decide; [done|]. cbn. congruence.
Qed.

Lemma strip_leading_slashes_id s :
  head s ≠ Some JS.slash → strip_leading_slashes s = s.
Proof.
  destruct s as [|c s]; [done|]. cbn. unfold JS.is_slash.
  case_bool_decide; [congruence|done].
Qed.

Lemma strip_leading_slashes_suffix s : strip_leading_slashes s `suffix_of` s.
Proof.
  induction s as [|c s IH]; [done|]. cbn. destruct (JS.is_slash c); [|done].
  by apply suffix_cons_r.
Qed.

Lemma collapse_slashes_elem b s c :
  c ∈ collapse_slashes b s → c ∈ s.
Proof.
  revert b. induction s as [|d s IH]; intros b; [done|]. cbn.
  unfold JS.is_slash. case_bool_decide as Hd.
  - destruct b; [|rewrite elem_of_cons; intros [->|?]]; set_solver.
  - rewrite elem_of_cons. intros [->|?]; set_solver.
Qed.

Lemma collapse_slashes_head_run s :
  head (collapse_slashes true s) ≠ Some JS.slash.
Proof.
  induction s as [|c s IH]; [done|]. cbn. unfold JS.is_slash.
  case_bool_decide; [done|]. cbn. congruence.
Qed.

Lemma collapse_slashes_head s :
  head s ≠ Some JS.slash → head (collapse_slashes false s) ≠ Some JS.slash.
Proof.
  destruct s as [|c s]; [done|]. cbn. unfold JS.is_slash.
  case_bool_decide; [congruence|]. cbn. congruence.
Qed.

Lemma collapse_slashes_single b s pre post :
  collapse_slashes b s ≠ pre ++ JS.slash :: JS.slash :: post.
Proof.
  revert b pre. induction s as [|c s IH]; intros b pre.
  - cbn. by destruct pre.
  - cbn. unfold JS.is_slash. case_bool_decide as Hc.
    + destruct b; [apply IH|].
      destruct pre as [|x pre]; cbn.
      * intros [= E]. by eapply collapse_slashes_head_run; rewrite E.
      * intros [= _ E]. by eapply IH.
    + destruct pre as [|x pre]; cbn.
      * congruence.
      * intros [= _ E]. by eapply IH.
Qed.

Lemma collapse_slashes_idemp b s :
  collapse_slashes b (collapse_slashes b s) = collapse_slashes b s.
Proof.
  revert b. induction s as [|c s IH]; intros b; [done|]. cbn.
  unfold JS.is_slash. case_bool_decide as Hc.
  - destruct b; [apply IH|]. cbn. unfold JS.is_slash.
    rewrite bool_decide_eq_true_2 by done. by rewrite IH.
  - cbn. unfold JS.is_slash. rewrite bool_decide_eq_false_2 by done.
    by rewrite IH.
Qed.

Lemma normalize_no_backslash p : JS.backslash ∉ normalizeFilePath p.
Proof.
  intros H%collapse_slashes_elem.
  eapply replace_backslashes_free, elem_of_suffix;
    [done|apply strip_leading_slashes_suffix].
Qed.

Lemma normalize_no_leading_slash p :
  head (normalizeFilePath p) ≠ Some JS.slash.
Proof. apply collapse_slashes_head, strip_leading_slashes_head. Qed.

Lemma normalize_idemp p :
  normalizeFilePath (normalizeFilePath p) = normalizeFilePath p.
Proof.
  unfold normalizeFilePath at 1.
  rewrite replace_backslashes_id by apply normalize_no_backslash.
  rewrite strip_leading_slashes_id by apply normalize_no_leading_slash.
  apply collapse_slashes_idemp.
Qed.

(** C2. [normalizeFilePath] is a function on all strings; applying it twice
    is applying it once, and its result holds no backslash, does not start
    with a slash and holds no two slashes in a row. *)
Theorem normalizeFilePath_canonical (p : str) :
  normalizeFilePath (normalizeFilePath p) = normalizeFilePath p
  ∧ (JS.backslash ∉ normalizeFilePath p)
  ∧ (head (normalizeFilePath p) ≠ Some JS.slash)
  ∧ (∀ pre post,
        normalizeFilePath p ≠ pre ++ JS.slash :: JS.slash :: post).
Proof.
  split_and!.
  - apply normalize_idemp.
  - apply normalize_no_backslash.
  - apply normalize_no_leading_slash.
  - intros pre post. apply collapse_slashes_single.
Qed.

Lemma normalizeFilePath_canonical_witness :
  normalizeFilePath (normalizeFilePath $"\\a\\b//c.txt")
  = normalizeFilePath $"\\a\\b//c.txt"
  ∧ (JS.backslash ∉ normalizeFilePath $"\\a\\b//c.txt")
  ∧ (head (normalizeFilePath $"\\a\\b//c.txt") ≠ Some JS.slash)
  ∧ (∀ pre post,
        normalizeFilePath $"\\a\\b//c.txt"
        ≠ pre ++ JS.slash :: JS.slash :: post).
Proof. exact (normalizeFilePath_canonical $"\\a\\b//c.txt"). Defined.

(** ** Lists and segments *)

Lemma find_Some_split {A} (f : A → bool) l x :
  find f l = Some x →
  ∃ l1 l2, l = l1 ++ x :: l2 ∧ f x = true ∧ ∀ y, y ∈ l1 → f y = false.
Proof.
  induction l as [|a l IH]; [done|]. cbn. destruct (f a) eqn:Ha.
  - intros [= ->]. exists [], l. split_and!; [done..|]. set_solver.
  - intros (l1 & l2 & -> & Hx & Hl1)%IH. exists (a :: l1), l2.
    split_and!; [done..|]. intros y [->|?]%elem_of_cons; auto.
Qed.

Lemma find_skip {A} (f : A → bool) l1 l2 :
  (∀ y, y ∈ l1 → f y = false) → find f (l1 ++ l2) = find f l2.
Proof.
  induction l1 as [|a l1 IH]; [done|]. intros H. cbn.
  rewrite H by set_solver. apply IH. set_solver.
Qed.

Lemma find_None_iff {A} (f : A → bool) l :
  find f l = None ↔ ∀ y, y ∈ l → f y = false.
Proof.
  split.
  - intros H y Hy%list_elem_of_In. by eapply find_none in H.
  - intros H. rewrite <-(app_nil_r l). by rewrite find_skip.
Qed.

Lemma find_ext_elem {A} (f g : A → bool) l :
  (∀ y, y ∈ l → f y = g y) → find f l = find g l.
Proof.
  induction l as [|a l IH]; [done|]. intros H. cbn.
  rewrite (H a) by set_solver. rewrite IH; [done|]. set_solver.
Qed.

Lemma find_fmap {A B} (f : B → bool) (g : A → B) l :
  find f (g <$> l) = g <$> find (f ∘ g) l.
Proof.
  induction l as [|a l IH]; [done|]. cbn. by destruct (f (g a)).
Qed.

Lemma find_filter {A} (f : A → bool) (Q : A → Prop) `{∀ x, Decision (Q x)} l :
  find f (filter Q l) = find (λ x, bool_decide (Q x) && f x) l.
Proof.
  induction l as [|a l IH]; [done|]. rewrite filter_cons. cbn.
  destruct (decide (Q a)) as [Ha|Ha].
  - rewrite bool_decide_eq_true_2 by done. cbn. by rewrite IH.
  - by rewrite bool_decide_eq_false_2 by done.
Qed.

Lemma at_index_nat {A} (l : list A) (i : nat) :
  JS.at_index l (Z.of_nat i) = l !! i.
Proof.
  unfold JS.at_index. rewrite bool_decide_eq_true_2 by lia.
  by rewrite Nat2Z.id.
Qed.

Lemma at_index_neg {A} (l : list A) (i : Z) : i < 0 → JS.at_index l i = None.
Proof. intros. unfold JS.at_index. by rewrite bool_decide_eq_false_2 by lia. Qed.

(** The loop of the resolver holds exactly when the segments of the search
    path are the last segments of the entry. *)
Lemma tail_loop_suffix parts searchParts :
  TailMatch.tail_loop parts searchParts = true
  ↔ searchParts `suffix_of` parts.
Proof.
  unfold TailMatch.tail_loop. rewrite forallb_forall.
  set (n := length searchParts). set (m := length parts). split.
  - intros H.
    assert (Hi : ∀ i : nat, (1 ≤ i ≤ n)%nat →
              JS.at_index parts (Z.of_nat m - Z.of_nat i)
              = searchParts !! (n - i)%nat).
    { intros i Hi. assert (In i (seq 1 n)) as Hin by (apply in_seq; lia).
      apply H, bool_decide_eq_true_1 in Hin. rewrite Hin.
      replace (Z.of_nat n - Z.of_nat i) with (Z.of_nat (n - i)) by lia.
      apply at_index_nat. }
    destruct (decide (n = 0%nat)) as [Hn|Hn].
    { apply length_zero_iff_nil in Hn. rewrite Hn. apply suffix_nil. }
    assert (n ≤ m)%nat as Hnm.
    { destruct (decide (n ≤ m)%nat); [done|].
      specialize (Hi n ltac:(lia)).
      rewrite at_index_neg in Hi by lia.
      destruct (lookup_lt_is_Some_2 searchParts (n - n)%nat) as [x Hx];
        [subst n; lia|]. by rewrite Hx in Hi. }
    exists (take (m - n) parts).
    rewrite <-(take_drop (m - n) parts) at 1. f_equal.
    apply list_eq. intros j. rewrite lookup_drop.
    destruct (decide (j < n)%nat) as [Hj|Hj].
    + specialize (Hi (n - j)%nat ltac:(lia)).
      replace (Z.of_nat m - Z.of_nat (n - j))
        with (Z.of_nat (m - n + j)) in Hi by lia.
      rewrite at_index_nat in Hi. rewrite Hi. f_equal. lia.
    + rewrite !lookup_ge_None_2; [done|subst n; lia|subst m; lia].
  - intros [k ->] i [Hi1 Hi2]%in_seq. apply bool_decide_eq_true_2.
    subst m. rewrite length_app. fold n.
    replace (Z.of_nat (length k + n) - Z.of_nat i)
      with (Z.of_nat (length k + (n - i))) by lia.
    replace (Z.of_nat n - Z.of_nat i) with (Z.of_nat (n - i)) by lia.
    rewrite !at_index_nat. rewrite lookup_app_r by lia. f_equal. lia.
Qed.

Lemma zip_file_Some zip path file :
  zip_file zip path = Some file →
  file ∈ zip ∧ name file = path ∧ dir file = false.
Proof.
  unfold zip_file. destruct (find _ zip) as [o|] eqn:Hfind; [|done].
  apply find_some in Hfind as [Hin Hname%bool_decide_eq_true_1].
  destruct (dir o) eqn:Hdir; [done|]. intros [= <-].
  by rewrite list_elem_of_In.
Qed.

Lemma allFiles_normal zip f : f ∈ allFiles zip → normalizeFilePath f = f.
Proof.
  unfold allFiles. intros [o [-> _]]%list_elem_of_fmap. apply normalize_idemp.
Qed.

(** ** EntryResolver: what a match looks like *)

Lemma tail_findFileInZip_sound zip searchPath file :
  TailMatch.findFileInZip zip searchPath = Some file →
  segments (normalizeFilePath searchPath)
  `suffix_of` segments (normalizeFilePath (name file)).
Proof.
  unfold TailMatch.findFileInZip.
  destruct (zip_file zip (normalizeFilePath searchPath)) as [f|] eqn:Hexact.
  - intros [= ->]. apply zip_file_Some in Hexact as (_ & -> & _).
    by rewrite normalize_idemp.
  - destruct (find _ (allFiles zip)) as [[|c m]|] eqn:Hfind; [done| |done].
    apply find_some in Hfind as [Hin Htail]. apply tail_loop_suffix in Htail.
    apply list_elem_of_In, allFiles_normal in Hin.
    intros (_ & -> & _)%zip_file_Some. by rewrite Hin.
Qed.

Lemma tail_findFileInTar_sound tar searchPath content :
  TailMatch.findFileInTar tar searchPath = Some content →
  ∃ entry, Some entry ∈ tar ∧ buffer entry = content
    ∧ segments (normalizeFilePath searchPath)
      `suffix_of` segments (normalizeFilePath (tar_name entry)).
Proof.
  assert (Hnext : ∀ x (tar : Tar) (P : TarEntry → Prop),
             (∃ e, Some e ∈ tar ∧ P e) → ∃ e, Some e ∈ x :: tar ∧ P e).
  { intros x t P (e & ? & ?). exists e. split; [by apply elem_of_cons; right|done]. }
  induction tar as [|[entry|] tar IH]; cbn; [done| |].
  - destruct (tar_name entry) as [|c n] eqn:Hname.
    { intros H. by apply Hnext, IH. }
    destruct (TailMatch.tail_loop _ _) eqn:Htail.
    + intros [= <-]. exists entry. rewrite Hname.
      apply tail_loop_suffix in Htail.
      split; [by apply elem_of_cons; left|done].
    + intros H. by apply Hnext, IH.
  - intros H. by apply Hnext, IH.
Qed.

Lemma startsWith_drop s p :
  JS.startsWith s p = true → p ++ drop (length p) s = s.
Proof.
  intros [k ->]%bool_decide_eq_true_1. by rewrite drop_app_length.
Qed.

Lemma replace_first_prefix s p :
  JS.startsWith s p = true → JS.replace_first p [] s = drop (length p) s.
Proof. intros H. destruct s; cbn; by rewrite H. Qed.

Lemma prefixed_findFileInZip_shape zip searchPath file :
  MainTestFolder.findFileInZip zip searchPath = Some file →
  normalizeFilePath searchPath `suffix_of` name file
  ∨ normalizeFilePath searchPath = MainTestFolder.prefix ++ name file.
Proof.
  unfold MainTestFolder.findFileInZip.
  set (nsp := normalizeFilePath searchPath).
  destruct (zip_file zip nsp) as [f|] eqn:H1.
  { intros [= ->]. apply zip_file_Some in H1 as (_ & -> & _). by left. }
  destruct (zip_file zip (MainTestFolder.prefix ++ nsp)) as [f|] eqn:H2.
  { intros [= ->]. apply zip_file_Some in H2 as (_ & -> & _). left.
    by apply suffix_app_r. }
  destruct (JS.startsWith nsp MainTestFolder.prefix) eqn:Hstarts.
  - destruct (zip_file zip (JS.replace_first _ _ nsp)) as [f|] eqn:H3.
    { intros [= ->]. apply zip_file_Some in H3 as (_ & -> & _). right.
      rewrite replace_first_prefix by done. by rewrite startsWith_drop. }
    destruct (find _ (allFiles zip)) as [[|c m]|] eqn:Hfind; [done| |done].
    apply find_some in Hfind as [_ Hends%bool_decide_eq_true_1].
    intros (_ & -> & _)%zip_file_Some. by left.
  - destruct (find _ (allFiles zip)) as [[|c m]|] eqn:Hfind; [done| |done].
    apply find_some in Hfind as [_ Hends%bool_decide_eq_true_1].
    intros (_ & -> & _)%zip_file_Some. by left.
Qed.

Lemma prefixed_findFileInTar_shape tar searchPath content :
  MainTestFolder.findFileInTar tar searchPath = Some content →
  ∃ entry, Some entry ∈ tar ∧ buffer entry = content
    ∧ (normalizeFilePath searchPath
       `suffix_of` normalizeFilePath (tar_name entry)
       ∨ normalizeFilePath searchPath
         = MainTestFolder.prefix ++ normalizeFilePath (tar_name entry)).
Proof.
  assert (Hnext : ∀ x (tar : Tar) (P : TarEntry → Prop),
             (∃ e, Some e ∈ tar ∧ P e) → ∃ e, Some e ∈ x :: tar ∧ P e).
  { intros x t P (e & ? & ?). exists e. split; [by apply elem_of_cons; right|done]. }
  induction tar as [|[entry|] tar IH]; cbn -[MainTestFolder.prefix]; [done| |].
  - destruct (tar_name entry) as [|c n] eqn:Hname.
    { intros H. by apply Hnext, IH. }
    destruct (_ || _) eqn:Hmatch.
    + intros [= <-]. exists entry. rewrite Hname.
      split_and!; [by apply elem_of_cons; left|done|].
      apply orb_true_iff in Hmatch as [Hmatch|Hmatch].
      * apply orb_true_iff in Hmatch as [Heq%bool_decide_eq_true_1
                                        | Heq%bool_decide_eq_true_1].
        -- left. by rewrite Heq.
        -- left. rewrite Heq. by apply suffix_app_r.
      * apply andb_true_iff in Hmatch as [Hstarts Heq%bool_decide_eq_true_1].
        right. rewrite Heq, replace_first_prefix by done.
        by rewrite startsWith_drop.
    + intros H. by apply Hnext, IH.
  - intros H. by apply Hnext, IH.
Qed.

(** C1, as the code has it. A match of the tail-matching resolvers is an
    entry whose normalised path, split on the slash, ends with the segments
    of the normalised search path, all of them. A match of the
    [MainTestFolder] resolvers is an entry whose path ends with the
    characters of the normalised search path, or is that search path with
    its leading [MainTestFolder/] taken off. *)
Theorem resolved_entry_matches_search_path
    (zip : JSZip) (tar : Tar) (searchPath : str) :
  (∀ file, TailMatch.findFileInZip zip searchPath = Some file →
     segments (normalizeFilePath searchPath)
     `suffix_of` segments (normalizeFilePath (name file)))
  ∧ (∀ content, TailMatch.findFileInTar tar searchPath = Some content →
     ∃ entry, Some entry ∈ tar ∧ buffer entry = content
       ∧ segments (normalizeFilePath searchPath)
         `suffix_of` segments (normalizeFilePath (tar_name entry)))
  ∧ (∀ file, MainTestFolder.findFileInZip zip searchPath = Some file →
     normalizeFilePath searchPath `suffix_of` name file
     ∨ normalizeFilePath searchPath = MainTestFolder.prefix ++ name file)
  ∧ (∀ content, MainTestFolder.findFileInTar tar searchPath = Some content →
     ∃ entry, Some entry ∈ tar ∧ buffer entry = content
       ∧ (normalizeFilePath searchPath
          `suffix_of` normalizeFilePath (tar_name entry)
          ∨ normalizeFilePath searchPath
            = MainTestFolder.prefix ++ normalizeFilePath (tar_name entry))).
Proof.
  split_and!.
  - intros file. apply tail_findFileInZip_sound.
  - intros content. apply tail_findFileInTar_sound.
  - intros file. apply prefixed_findFileInZip_shape.
  - intros content. apply prefixed_findFileInTar_shape.
Qed.

Lemma resolved_entry_matches_search_path_witness :
  segments (normalizeFilePath $"b/c.txt")
  `suffix_of` segments (normalizeFilePath $"x\a/b/c.txt").
Proof.
  apply (proj1 (resolved_entry_matches_search_path
                  [file_entry $"x\a/b/c.txt" []; file_entry $"x/a/b/c.txt" []]
                  [] $"b/c.txt")
           (file_entry $"x/a/b/c.txt" [])).
  reflexivity.
Defined.

(** C1 as stated fails on the [MainTestFolder] resolver: the search path
    [MainTestFolder/a.txt] is matched by the entry [a.txt], whose one
    segment is not the two of the search path. *)
Lemma prefixed_match_is_not_a_tail :
  MainTestFolder.findFileInZip [file_entry $"a.txt" []] $"MainTestFolder/a.txt"
  = Some (file_entry $"a.txt" [])
  ∧ ¬ segments (normalizeFilePath $"MainTestFolder/a.txt")
      `suffix_of` segments (normalizeFilePath (name (file_entry $"a.txt" []))).
Proof.
  split; [reflexivity|]. intros H%suffix_length. vm_compute in H. lia.
Qed.

(** ** Segments *)

Lemma split_nonempty sep s : JS.split sep s ≠ [].
Proof.
  destruct s as [|c s]; [done|]. cbn. case_bool_decide; [done|].
  by destruct (JS.split sep s).
Qed.

Lemma split_singleton_nil sep s : JS.split sep s = [[]] → s = [].
Proof.
  destruct s as [|c s]; [done|]. cbn. case_bool_decide as Hc.
  - intros [= H]. by apply split_nonempty in H.
  - by destruct (JS.split sep s).
Qed.

Lemma last_split sep s :
  last (JS.split sep s) = Some [] ↔ s = [] ∨ last s = Some sep.
Proof.
  induction s as [|c s IH]; [naive_solver|]. cbn [JS.split].
  pose proof (split_nonempty sep s) as Hne.
  pose proof (split_singleton_nil sep s) as Hnil.
  destruct (JS.split sep s) as [|seg segs] eqn:Hsplit; [done|].
  case_bool_decide as Hc.
  - subst c. change (last ([] :: seg :: segs)) with (last (seg :: segs)).
    rewrite IH. destruct s as [|d s]; [naive_solver|].
    change (last (sep :: d :: s)) with (last (d :: s)). naive_solver.
  - destruct segs as [|seg' segs].
    + cbn [last]. split; [done|]. intros [|Hl]; [done|]. exfalso.
      destruct s as [|d s]; [cbn in Hl; congruence|].
      change (last (c :: d :: s)) with (last (d :: s)) in Hl.
      assert (seg = []) as -> by (cbn in IH; naive_solver).
      by specialize (Hnil eq_refl).
    + change (last ((c :: seg) :: seg' :: segs)) with (last (seg' :: segs)).
      change (last (seg :: seg' :: segs)) with (last (seg' :: segs)) in IH.
      rewrite IH. destruct s as [|d s]; [done|].
      change (last (c :: d :: s)) with (last (d :: s)). naive_solver.
Qed.

Lemma suffix_last {A} (l1 l2 : list A) :
  l1 `suffix_of` l2 → l1 ≠ [] → last l2 = last l1.
Proof.
  intros [k ->] H. rewrite last_app.
  by destruct (last l1) eqn:E; [|apply last_None in E].
Qed.

Lemma segments_suffix_singleton s :
  segments s `suffix_of` [[]] → s = [].
Proof.
  intros [k Hk]. apply split_singleton_nil with JS.slash.
  pose proof (split_nonempty JS.slash s). unfold segments in *.
  destruct k as [|x [|y k]]; destruct (JS.split JS.slash s) as [|? [|]];
    naive_solver.
Qed.

(** ** EntryResolver: the two steps *)

Lemma zip_file_find zip path :
  NoDup (name <$> zip) →
  zip_file zip path
  = find (λ o, bool_decide (dir o = false) && bool_decide (name o = path)) zip.
Proof.
  unfold zip_file. induction zip as [|o zip IH]; [done|].
  rewrite fmap_cons, NoDup_cons. intros [Hfresh Hnodup]. cbn.
  case_bool_decide as Hname; cbn.
  - destruct (dir o) eqn:Hdir; cbn; [|done]. symmetry.
    apply find_None_iff. intros y Hy. apply andb_false_iff. right.
    apply bool_decide_eq_false_2. intros Hy'. apply Hfresh.
    apply list_elem_of_fmap. exists y. by rewrite Hname, Hy'.
  - rewrite andb_false_r. by apply IH.
Qed.

Lemma find_unique {A} (f : A → bool) l x :
  x ∈ l → f x = true → (∀ y, y ∈ l → f y = true → y = x) → find f l = Some x.
Proof.
  intros Hx Hfx Huniq. destruct (find f l) as [y|] eqn:Hfind.
  - apply find_some in Hfind as [Hy%list_elem_of_In Hfy]. f_equal. by apply Huniq.
  - rewrite find_None_iff in Hfind. rewrite Hfind in Hfx; done.
Qed.

Lemma name_inj zip o1 o2 :
  NoDup (name <$> zip) → o1 ∈ zip → o2 ∈ zip → name o1 = name o2 → o1 = o2.
Proof.
  intros Hnodup [i Hi]%list_elem_of_lookup [j Hj]%list_elem_of_lookup Heq.
  assert (i = j) as ->; [|congruence].
  eapply NoDup_lookup; [done| |]; rewrite list_lookup_fmap.
  - by rewrite Hi.
  - by rewrite Hj, Heq.
Qed.

(** C3, as the code has it. On an archive whose stored paths are already
    normalised, the tail-matching [findFileInZip] is the two steps of the
    specification over the file entries: the exact match, then, only when
    there is none, the first entry in listing order whose segments end with
    those of the search path. *)
Theorem tail_resolver_is_exact_then_tail (zip : JSZip) (searchPath : str) :
  well_keyed zip →
  (∀ o, o ∈ zip → normalizeFilePath (name o) = name o) →
  TailMatch.findFileInZip zip searchPath
  = resolve_spec (file_entries zip) searchPath.
Proof.
  intros [Hnodup Hdir] Hnormal.
  unfold TailMatch.findFileInZip, resolve_spec, file_entries.
  set (nsp := normalizeFilePath searchPath).
  rewrite !find_filter, zip_file_find by done.
  rewrite (find_ext_elem
             (λ x, bool_decide (dir x = false)
                   && bool_decide (normalizeFilePath (name x) = nsp))
             (λ o, bool_decide (dir o = false) && bool_decide (name o = nsp)))
    by (intros y Hy; by rewrite Hnormal).
  destruct (find _ zip) as [f|] eqn:Hexact; [done|].
  rewrite find_None_iff in Hexact.
  assert (Hno : ∀ x, x ∈ zip → dir x = false → name x ≠ nsp).
  { intros x Hx Hd Hn. specialize (Hexact x Hx).
    by rewrite !bool_decide_eq_true_2 in Hexact. }
  assert (Hempty : ∀ x, x ∈ zip → name x = [] →
            segments nsp `suffix_of` segments (name x) → False).
  { intros x Hx Hn. rewrite Hn. intros Hs%segments_suffix_singleton.
    apply (Hno x Hx); [|congruence].
    destruct (dir x) eqn:Hd; [|done]. apply Hdir in Hd; [|done].
    by rewrite Hn in Hd. }
  unfold allFiles. rewrite find_fmap. unfold segments in *.
  destruct (find _ zip) as [o|] eqn:Htail; cbn.
  - apply find_Some_split in Htail as (l1 & l2 & Hzip & Ho & Hl1).
    cbn in Ho. apply tail_loop_suffix in Ho.
    assert (o ∈ zip) as Hin by (rewrite Hzip; set_solver).
    rewrite Hnormal in * by done.
    destruct (name o) as [|c m] eqn:Hname.
    { exfalso. apply (Hempty o Hin Hname). by rewrite Hname. }
    rewrite <-Hname in *. rewrite zip_file_find by done.
    destruct (dir o) eqn:Hd.
    + transitivity (@None JSZipObject).
      * apply find_None_iff. intros y Hy. apply andb_false_iff.
        destruct (decide (name y = name o)) as [Heq|Hne].
        -- left. apply (name_inj zip) in Heq; [|done..]. subst y.
           by rewrite Hd.
        -- right. by apply bool_decide_eq_false_2.
      * symmetry. apply find_None_iff. intros y Hy. apply andb_false_iff.
        destruct (dir y) eqn:Hdy; [by left|]. right.
        apply bool_decide_eq_false_2. rewrite Hnormal by done. intros Hs.
        assert (last (JS.split JS.slash (name o)) = Some []) as Hlast.
        { apply last_split. right. by apply Hdir. }
        rewrite (suffix_last _ _ Ho) in Hlast by apply split_nonempty.
        rewrite <-(suffix_last _ _ Hs) in Hlast by apply split_nonempty.
        apply last_split in Hlast as [Hnil|Hslash].
        -- by apply (Hempty y).
        -- apply Hdir in Hslash; [congruence|done].
    + transitivity (Some o).
      * apply find_unique; [done| |].
        -- apply andb_true_iff. split; by apply bool_decide_eq_true_2.
        -- intros y Hy [_ Hn%bool_decide_eq_true_1]%andb_true_iff.
           exact (name_inj zip y o Hnodup Hy Hin Hn).
      * symmetry. rewrite Hzip, find_skip.
        -- cbn [find]. rewrite Hd, Hnormal by done.
           rewrite (bool_decide_eq_true_2 (false = false)) by done.
           by rewrite bool_decide_eq_true_2 by done.
        -- intros y Hy. apply andb_false_iff. right.
           specialize (Hl1 y Hy). cbn in Hl1.
           apply bool_decide_eq_false_2. intros Hs.
           apply tail_loop_suffix in Hs. congruence.
  - symmetry. apply find_None_iff. intros y Hy. apply andb_false_iff. right.
    rewrite find_None_iff in Htail. specialize (Htail y Hy). cbn in Htail.
    apply bool_decide_eq_false_2. intros Hs.
    apply tail_loop_suffix in Hs. congruence.
Qed.

(** Membership in a list written out. *)
Ltac each_element H :=
  repeat (apply elem_of_cons in H as [->|H]); [..|by apply elem_of_nil in H].

Lemma tail_resolver_is_exact_then_tail_witness :
  TailMatch.findFileInZip
    [file_entry $"b/c.txt" []; file_entry $"a/b/c.txt" []] $"\b\c.txt"
  = resolve_spec
      (file_entries [file_entry $"b/c.txt" []; file_entry $"a/b/c.txt" []])
      $"\b\c.txt".
Proof.
  apply tail_resolver_is_exact_then_tail.
  - split.
    + by apply (bool_decide_unpack _).
    + intros o Ho. each_element Ho; by split.
  - intros o Ho. by each_element Ho.
Defined.

(** C3 as stated fails on the [MainTestFolder] resolver: between the exact
    match and the search through the listing it looks the search path up
    under [MainTestFolder/], and that entry wins over an earlier one whose
    tail matches. *)
Lemma prefixed_resolver_is_not_two_steps :
  MainTestFolder.findFileInZip
    [file_entry $"x/a.txt" []; file_entry $"MainTestFolder/a.txt" []] $"a.txt"
  = Some (file_entry $"MainTestFolder/a.txt" [])
  ∧ resolve_spec
      (file_entries
         [file_entry $"x/a.txt" []; file_entry $"MainTestFolder/a.txt" []])
      $"a.txt"
    = Some (file_entry $"x/a.txt" []).
Proof. split; reflexivity. Qed.

(** A tail match is looked up again under its normalised path: with no
    entry stored under that path the resolver finds nothing. *)
Lemma tail_match_lost zip searchPath matchingFile :
  zip_file zip (normalizeFilePath searchPath) = None →
  find (λ f, TailMatch.tail_loop (segments f)
               (segments (normalizeFilePath searchPath))) (allFiles zip)
  = Some matchingFile →
  (∀ o, o ∈ zip → name o ≠ matchingFile) →
  TailMatch.findFileInZip zip searchPath = None.
Proof.
  intros Hexact Hfind Hkeys. unfold TailMatch.findFileInZip.
  rewrite Hexact, Hfind. destruct matchingFile as [|c m]; [done|].
  destruct (zip_file zip (c :: m)) as [f|] eqn:Hf; [|done].
  apply zip_file_Some in Hf as (Hin & Hname & _). by destruct (Hkeys f).
Qed.

(** C10. The ZIP resolver looks a tail match up under its normalised path
    while the entries are keyed by their stored paths: there are archives
    with an entry whose stored path is not its normalisation (here with a
    backslash, with a leading slash, with a doubled slash) and whose
    normalised path ends with the segments of the search path, on which
    the resolver finds nothing. *)
Theorem tail_resolver_misses_stored_path :
  Forall
    (λ stored,
       ∃ zip entry searchPath,
         entry ∈ zip
         ∧ name entry = stored
         ∧ dir entry = false
         ∧ name entry ≠ normalizeFilePath (name entry)
         ∧ segments (normalizeFilePath searchPath)
           `suffix_of` segments (normalizeFilePath (name entry))
         ∧ TailMatch.findFileInZip zip searchPath = None)
    [$"logs\a.txt"; $"/logs/a.txt"; $"logs//a.txt"].
Proof.
  repeat apply Forall_cons_2; [..|apply Forall_nil_2].
  all: match goal with
       | |- ∃ _ _ _, _ ∧ _ = ?stored ∧ _ =>
           exists [file_entry stored []], (file_entry stored []), $"a.txt"
       end.
  all: split_and!;
    [by apply list_elem_of_singleton|done|done|done
    |by exists [$"logs"]|].
  all: eapply tail_match_lost; [reflexivity|reflexivity|].
  all: intros o ->%list_elem_of_singleton; done.
Qed.

(** ** Runs *)

Section Runs.
Context {Stats : Type}.
Implicit Types c : Component Stats.

Lemma bind_Returned {A B} (m : M A) (k : A → M B) c c' b :
  (a ← m; k a) c = (c', Returned b) →
  ∃ c1 a, m c = (c1, Returned a) ∧ k a c1 = (c', Returned b).
Proof.
  unfold mbind, M_bind, bind. destruct (m c) as [c1 [a|e]]; [eauto|done].
Qed.

Lemma bind_run {A B} (m : M A) (k : A → M B) c c1 a :
  m c = (c1, Returned a) → (a ← m; k a) c = k a c1.
Proof. unfold mbind, M_bind, bind. by intros ->. Qed.

Lemma bind_thrown {A B} (m : M A) (k : A → M B) c c1 e :
  m c = (c1, Thrown e) → (a ← m; k a) c = (c1, Thrown e).
Proof. unfold mbind, M_bind, bind. by intros ->. Qed.


(** A property of the variables of a loop that every completed pass
    keeps holds when the loop completes. *)
Lemma for_of_invariant {A B} (P : B → Prop) (body : B → A → M B) xs :
  (∀ acc x c c' acc',
     x ∈ xs → P acc → body acc x c = (c', Returned acc') → P acc') →
  ∀ acc c c' acc',
    P acc → for_of xs body acc c = (c', Returned acc') → P acc'.
Proof.
  induction xs as [|x xs IH]; intros Hbody acc c c' acc' Hacc; cbn.
  - unfold ret. by intros [= _ <-].
  - unfold bind. destruct (body acc x c) as [c1 [a|e]] eqn:Hx; [|done].
    apply IH; [|by eapply Hbody; [apply elem_of_cons; left|..]].
    intros ????? Hin. apply Hbody. by apply elem_of_cons; right.
Qed.

End Runs.

Lemma try_catch_cases {Stats} (body : M (Stats:=Stats) unit) handler c :
  (∃ c', body c = (c', Returned tt)
         ∧ try_catch body handler c = (c', Returned tt))
  ∨ (∃ c' e, body c = (c', Thrown e)
             ∧ try_catch body handler c = handler e c').
Proof.
  unfold try_catch. destruct (body c) as [c' [[]|e]]; [left|right]; eauto.
Qed.

(** The two ways out of the [try] of [processFiles]: names the state the
    body ends in, and the error when it throws. *)
Ltac run_or_throw c c' e Hbody :=
  match goal with
  | |- context [try_catch ?body ?handler c] =>
      destruct (try_catch_cases body handler c)
        as [(c' & Hbody & ->)|(c' & e & Hbody & ->)]
  end.

(** ** GroupingEngine: the counters *)

Lemma operations_process_link_counts zip folderName st out link c c' st' out' :
  counts_agree st →
  Operations.process_link zip folderName (st, out) link c
  = (c', Returned (st', out')) →
  counts_agree st'.
Proof.
  intros [Hsum Hlen]. unfold Operations.process_link.
  intros (c1 & [] & _ & (c2 & path & _ & Hrest)%bind_Returned)%bind_Returned.
  destruct (TailMatch.findFileInZip zip path) as [file|].
  - apply bind_Returned in Hrest as (c3 & [] & _ & [= _ <- _]).
    unfold counts_agree. cbn. rewrite length_app. cbn.
    destruct (Operations.determineOperation path); lia.
  - apply bind_Returned in Hrest as (c3 & [] & _ & [= _ <- _]). by split.
Qed.

Lemma operations_process_folder_counts zip stats out folderConfig c c' stats' out' :
  Forall counts_agree stats →
  Operations.process_folder zip (stats, out) folderConfig c
  = (c', Returned (stats', out')) →
  Forall counts_agree stats'.
Proof.
  intros Hstats. unfold Operations.process_folder.
  destruct (_ || _).
  { by intros [= _ <- _]. }
  intros (c1 & [] & _ & (c2 & [st o] & Hloop & [= _ <- _])%bind_Returned)%bind_Returned.
  apply Forall_app. split; [done|]. apply Forall_singleton.
  unfold for_each in Hloop.
  apply bind_Returned in Hloop as (c3 & links & _ & Hloop).
  eapply (for_of_invariant (λ acc, counts_agree acc.1)) in Hloop; [done| |].
  - intros [s1 o1] x d d' [s2 o2] _. apply operations_process_link_counts.
  - by split.
Qed.

(** C4. After every pass of the loop over the links of a group the counters
    of the group agree, [insertCount + updateCount = fileCount = length
    files], and so they do in every record of the statistics a completed
    run leaves. *)
Theorem counts_agree_throughout :
  (∀ zip folderName st out link c c' st' out',
     counts_agree st →
     Operations.process_link zip folderName (st, out) link c
     = (c', Returned (st', out')) →
     counts_agree st')
  ∧ (∀ archiveFile jsonFile c,
       status (final (Operations.processFiles (Some archiveFile)
                        (Some jsonFile)) c) = success →
       Forall counts_agree
         (folderStats (final (Operations.processFiles (Some archiveFile)
                                (Some jsonFile)) c))).
Proof.
  split; [apply operations_process_link_counts|].
  intros archiveFile jsonFile c. unfold final, Operations.processFiles.
  run_or_throw c c' e Hbody; [|done].
  intros _. cbn.
  apply bind_Returned in Hbody as (c1 & [] & _ & Hbody).
  apply bind_Returned in Hbody as (c2 & [] & _ & Hbody).
  apply bind_Returned in Hbody as (c3 & config & _ & Hbody).
  apply bind_Returned in Hbody as (c4 & [] & _ & Hbody).
  apply bind_Returned in Hbody as (c5 & [] & _ & Hbody).
  apply bind_Returned in Hbody as (c6 & zip & _ & Hbody).
  apply bind_Returned in Hbody as (c7 & [stats out] & Hloop & Hbody).
  apply bind_Returned in Hbody as (c8 & [] & [= <-] & Hbody).
  apply bind_Returned in Hbody as (c9 & [] & [= <-] & Hbody).
  apply bind_Returned in Hbody as (c10 & [] & [= <-] & [= <-]).
  cbn. unfold for_each in Hloop.
  apply bind_Returned in Hloop as (c11 & items & _ & Hloop).
  eapply (for_of_invariant (λ acc, Forall counts_agree acc.1)) in Hloop; [done| |done].
  intros [s1 o1] x d d' [s2 o2] _. apply operations_process_folder_counts.
Qed.

Example scenario_statistics :
  folderStats (final (Operations.processFiles (Some Scenario.archive)
                        (Some (Scenario.config $"Review Text"))) mounted)
  = [ {| Operations.name := Some (JStr $"GroupA");
         Operations.fileCount := 2;
         Operations.insertCount := 1;
         Operations.updateCount := 1;
         Operations.files :=
           [ {| Operations.file_stat_name := $"update_file.txt";
                Operations.operation := Operations.OpUpdate |};
             {| Operations.file_stat_name := $"file2.txt";
                Operations.operation := Operations.OpInsert |} ] |} ].
Proof. reflexivity. Qed.

Lemma counts_agree_throughout_witness :
  Forall counts_agree
    (folderStats (final (Operations.processFiles (Some Scenario.archive)
                           (Some (Scenario.config $"Review Text"))) mounted)).
Proof.
  apply (proj2 counts_agree_throughout). reflexivity.
Defined.

(** ** Keywords under normalisation and lowercasing *)

Lemma startsWith_nil s : JS.startsWith s [] = true.
Proof. apply bool_decide_eq_true_2, prefix_nil. Qed.

Lemma startsWith_nil_cons x p : JS.startsWith [] (x :: p) = false.
Proof. apply bool_decide_eq_false_2, prefix_nil_not. Qed.

Lemma startsWith_cons c s x p :
  JS.startsWith (c :: s) (x :: p) = bool_decide (x = c) && JS.startsWith s p.
Proof.
  unfold JS.startsWith. apply eq_true_iff_eq.
  rewrite andb_true_iff, !bool_decide_eq_true. split.
  - intros H. split; [by eapply prefix_cons_inv_1|by eapply prefix_cons_inv_2].
  - intros [-> H]. by apply prefix_cons.
Qed.

Lemma plain_cons x w :
  plain (x :: w) ↔ x ≠ JS.slash ∧ x ≠ JS.backslash ∧ plain w.
Proof. unfold plain. rewrite !not_elem_of_cons. naive_solver. Qed.

Lemma startsWith_replace_backslashes s w :
  plain w → JS.startsWith (replace_backslashes s) w = JS.startsWith s w.
Proof.
  revert s. induction w as [|x w IH]; intros s Hw.
  { by rewrite !startsWith_nil. }
  apply plain_cons in Hw as (Hs & Hb & Hw).
  destruct s as [|c s]; [done|]. cbn.
  rewrite !startsWith_cons. fold (replace_backslashes s). rewrite IH by done.
  f_equal. apply bool_decide_ext. case_bool_decide; naive_solver.
Qed.

Lemma includes_replace_backslashes s w :
  plain w → JS.includes (replace_backslashes s) w = JS.includes s w.
Proof.
  intros Hw. induction s as [|c s IH]; [done|].
  - change (JS.includes (replace_backslashes (c :: s)) w)
      with (JS.startsWith (replace_backslashes (c :: s)) w
            || JS.includes (replace_backslashes s) w).
    by rewrite startsWith_replace_backslashes, IH.
Qed.

Lemma includes_strip_leading_slashes s x w :
  x ≠ JS.slash →
  JS.includes (strip_leading_slashes s) (x :: w) = JS.includes s (x :: w).
Proof.
  intros Hx. induction s as [|c s IH]; [done|]. cbn [strip_leading_slashes].
  unfold JS.is_slash. case_bool_decide as Hc; [|done].
  rewrite IH. cbn [JS.includes]. rewrite startsWith_cons.
  rewrite bool_decide_eq_false_2; [done|congruence].
Qed.

Lemma startsWith_collapse_slashes s w :
  plain w → JS.startsWith (collapse_slashes false s) w = JS.startsWith s w.
Proof.
  revert s. induction w as [|x w IH]; intros s Hw.
  { by rewrite !startsWith_nil. }
  apply plain_cons in Hw as (Hs & Hb & Hw).
  destruct s as [|c s]; [done|]. cbn [collapse_slashes].
  unfold JS.is_slash. case_bool_decide as Hc.
  - rewrite !startsWith_cons. subst c.
    rewrite !bool_decide_eq_false_2; done.
  - by rewrite !startsWith_cons, IH.
Qed.

Lemma includes_collapse_slashes b s x w :
  plain (x :: w) →
  JS.includes (collapse_slashes b s) (x :: w) = JS.includes s (x :: w).
Proof.
  intros Hw. pose proof Hw as (Hs & Hb & Hw')%plain_cons.
  revert b. induction s as [|c s IH]; intros b; [done|].
  cbn [collapse_slashes]. unfold JS.is_slash. case_bool_decide as Hc.
  - subst c. cbn [JS.includes]. rewrite startsWith_cons.
    rewrite bool_decide_eq_false_2 by done. cbn.
    destruct b; [apply IH|]. cbn [JS.includes]. rewrite startsWith_cons.
    rewrite bool_decide_eq_false_2 by done. apply IH.
  - cbn [JS.includes]. rewrite IH. f_equal.
    pose proof (startsWith_collapse_slashes (c :: s) (x :: w) Hw) as H.
    cbn [collapse_slashes] in H. unfold JS.is_slash in H.
    by rewrite bool_decide_eq_false_2 in H by done.
Qed.

Lemma includes_normalize s w :
  w ≠ [] → plain w →
  JS.includes (normalizeFilePath s) w = JS.includes s w.
Proof.
  destruct w as [|x w]; [done|]. intros _ Hw.
  pose proof Hw as (Hs & Hb & Hw')%plain_cons.
  unfold normalizeFilePath.
  by rewrite includes_collapse_slashes, includes_strip_leading_slashes,
    includes_replace_backslashes.
Qed.

Lemma lower_char_slash c : JS.lower_char c = JS.slash ↔ c = JS.slash.
Proof.
  destruct c as [[] [] [] [] [] [] [] []]; vm_compute; split; congruence.
Qed.

Lemma lower_char_backslash c :
  JS.lower_char c = JS.backslash ↔ c = JS.backslash.
Proof.
  destruct c as [[] [] [] [] [] [] [] []]; vm_compute; split; congruence.
Qed.

Lemma lower_replace_backslashes s :
  JS.toLowerCase (replace_backslashes s)
  = replace_backslashes (JS.toLowerCase s).
Proof.
  unfold JS.toLowerCase, replace_backslashes. rewrite <-!list_fmap_compose.
  apply list_fmap_ext. intros _ c _. cbn.
  pose proof (lower_char_backslash c).
  repeat case_bool_decide; naive_solver.
Qed.

Lemma lower_strip_leading_slashes s :
  JS.toLowerCase (strip_leading_slashes s)
  = strip_leading_slashes (JS.toLowerCase s).
Proof.
  induction s as [|c s IH]; [done|]. cbn. unfold JS.is_slash.
  pose proof (lower_char_slash c).
  repeat case_bool_decide; naive_solver.
Qed.

Lemma lower_collapse_slashes b s :
  JS.toLowerCase (collapse_slashes b s)
  = collapse_slashes b (JS.toLowerCase s).
Proof.
  revert b. induction s as [|c s IH]; intros b; [done|]. cbn.
  unfold JS.is_slash. pose proof (lower_char_slash c).
  repeat case_bool_decide; try naive_solver.
  - destruct b; [apply IH|]. cbn. f_equal. apply IH.
  - cbn. f_equal. apply IH.
Qed.

Lemma lower_normalize s :
  JS.toLowerCase (normalizeFilePath s) = normalizeFilePath (JS.toLowerCase s).
Proof.
  unfold normalizeFilePath.
  by rewrite lower_collapse_slashes, lower_strip_leading_slashes,
    lower_replace_backslashes.
Qed.

Lemma determineOperation_normalized link :
  Operations.determineOperation link
  = if JS.includes (JS.toLowerCase (normalizeFilePath link)) $"update"
       || JS.includes (JS.toLowerCase (normalizeFilePath link)) $"modify"
    then Operations.OpUpdate else Operations.OpInsert.
Proof.
  unfold Operations.determineOperation. rewrite lower_normalize.
  rewrite !includes_normalize; [done|..]; try done;
    split; by apply (bool_decide_unpack _).
Qed.

(** C5. A link that resolves is recorded with the operation [update] when
    the normalised link, lowercased, contains [update] or [modify], and
    with [insert] otherwise; the counter of that operation, and no other,
    grows by one. *)
Theorem operation_follows_keyword
    (zip : JSZip) (folderName : value) (st : Operations.FolderStats)
    (out : Blob) (link : str) (file : JSZipObject)
    (c : Component Operations.FolderStats) :
  TailMatch.findFileInZip zip link = Some file →
  let keyword :=
    JS.includes (JS.toLowerCase (normalizeFilePath link)) $"update"
    || JS.includes (JS.toLowerCase (normalizeFilePath link)) $"modify" in
  ∃ c',
    Operations.process_link zip folderName (st, out) (JStr link) c
    = (c',
       Returned
         ({| Operations.name := Operations.name st;
             Operations.fileCount := S (Operations.fileCount st);
             Operations.insertCount :=
               if keyword then Operations.insertCount st
               else S (Operations.insertCount st);
             Operations.updateCount :=
               if keyword then S (Operations.updateCount st)
               else Operations.updateCount st;
             Operations.files :=
               Operations.files st
               ++ [ {| Operations.file_stat_name := link_fileName link;
                       Operations.operation :=
                         if keyword then Operations.OpUpdate
                         else Operations.OpInsert |} ] |},
          Output.folder_file out folderName (link_fileName link) (data file))).
Proof.
  intros Hfile keyword. subst keyword.
  destruct (_ || _) eqn:Hkeyword; eexists; unfold Operations.process_link.
  all: repeat (erewrite bind_run by reflexivity).
  all: rewrite Hfile, determineOperation_normalized, Hkeyword.
  all: repeat (erewrite bind_run by reflexivity).
  all: reflexivity.
Qed.

Lemma operation_follows_keyword_witness :
  ∃ c',
    Operations.process_link
      [file_entry $"Folder/UPDATE_file.txt" [Byte.x01]] (Some (JStr $"GroupA"))
      ({| Operations.name := Some (JStr $"GroupA"); Operations.fileCount := 0;
          Operations.insertCount := 0; Operations.updateCount := 0;
          Operations.files := [] |}, ∅)
      (JStr $"\Folder\UPDATE_file.txt") mounted
    = (c',
       Returned
         ({| Operations.name := Some (JStr $"GroupA");
             Operations.fileCount := 1;
             Operations.insertCount := 0;
             Operations.updateCount := 1;
             Operations.files :=
               [ {| Operations.file_stat_name := $"\Folder\UPDATE_file.txt";
                    Operations.operation := Operations.OpUpdate |} ] |},
          {[ $"GroupA/\Folder\UPDATE_file.txt" := [Byte.x01] ]})).
Proof.
  exact (operation_follows_keyword
           [file_entry $"Folder/UPDATE_file.txt" [Byte.x01]]
           (Some (JStr $"GroupA"))
           {| Operations.name := Some (JStr $"GroupA");
              Operations.fileCount := 0; Operations.insertCount := 0;
              Operations.updateCount := 0; Operations.files := [] |}
           ∅ $"\Folder\UPDATE_file.txt"
           (file_entry $"Folder/UPDATE_file.txt" [Byte.x01]) mounted eq_refl).
Defined.

(** ** Validation of the configuration *)

Lemma parse_returns {Stats} jsonFile config (c : Component Stats) :
  parsed jsonFile = inr config →
  parse jsonFile c = ((read ReadJson c).1, Returned config).
Proof. unfold parse, mbind, M_bind, bind, lift. by intros ->. Qed.

(** C8. When the configuration parses to a value that is not an array the
    run throws the validation error before it opens the archive: it ends
    in the [error] status with that error's message, sets no blob, and has
    read the configuration file only. *)
Theorem not_an_array_aborts
    (archiveFile : ArchiveFile) (jsonFile : JsonFile) (config : JSON)
    (c : Component Operations.FolderStats)
    (d : Component Counted.FolderStats) :
  parsed jsonFile = inr config →
  Value.isArray (Some config) = false →
  aborted_on_validation c
    (final (Operations.processFiles (Some archiveFile) (Some jsonFile)) c)
  ∧ aborted_on_validation d
      (final (Counted.processFiles (Some archiveFile) (Some jsonFile)) d).
Proof.
  intros Hparsed Harray. split.
  - unfold final, Operations.processFiles, try_catch.
    repeat (erewrite bind_run by reflexivity).
    erewrite bind_run by (by apply parse_returns).
    repeat (erewrite bind_run by reflexivity).
    rewrite Harray. cbn [negb].
    erewrite bind_thrown by reflexivity. by repeat split.
  - unfold final, Counted.processFiles, try_catch.
    repeat (erewrite bind_run by reflexivity).
    erewrite bind_run by (by apply parse_returns).
    rewrite Harray. cbn [negb].
    erewrite bind_thrown by reflexivity. by repeat split.
Qed.

Lemma not_an_array_aborts_witness :
  aborted_on_validation mounted
    (final (Operations.processFiles (Some Scenario.archive)
              (Some {| parsed := inr (JObj [($"Links", JArr [])]) |}))
       mounted)
  ∧ aborted_on_validation mounted
      (final (Counted.processFiles (Some Scenario.archive)
                (Some {| parsed := inr (JObj [($"Links", JArr [])]) |}))
         mounted).
Proof.
  exact (not_an_array_aborts Scenario.archive
           {| parsed := inr (JObj [($"Links", JArr [])]) |}
           (JObj [($"Links", JArr [])]) mounted mounted eq_refl eq_refl).
Defined.

(** ** Runs that differ in the log only *)

Section LogBlind.
Context {Stats : Type}.
Implicit Types c : Component Stats.



Lemma alike_ret {A} (a : A) : alike (Stats:=Stats) (ret a) (ret a).
Proof. by intros c1 c2 Hc. Qed.

Lemma alike_throw {A} e : alike (Stats:=Stats) (throw (A:=A) e) (throw e).
Proof. by intros c1 c2 Hc. Qed.

Lemma alike_lift {A} (r : Error + A) : alike (Stats:=Stats) (lift r) (lift r).
Proof. destruct r; [apply alike_throw|apply alike_ret]. Qed.

Lemma alike_bind {A B} (m1 m2 : M A) (k1 k2 : A → M B) :
  alike m1 m2 → (∀ a, alike (Stats:=Stats) (k1 a) (k2 a)) →
  alike (Stats:=Stats) (a ← m1; k1 a) (a ← m2; k2 a).
Proof.
  intros Hm Hk c1 c2 Hc. unfold mbind, M_bind, bind.
  destruct (Hm c1 c2 Hc) as [Hc' Hr].
  destruct (m1 c1) as [c1' [a1|e1]], (m2 c2) as [c2' [a2|e2]];
    cbn in *; simplify_eq; [by apply Hk|done].
Qed.


Lemma alike_onStatusChange s :
  alike (Stats:=Stats) (onStatusChange s) (onStatusChange s).
Proof. intros c1 c2 (? & ? & ? & ? & ?). by repeat split. Qed.

Lemma alike_onError m : alike (Stats:=Stats) (onError m) (onError m).
Proof. intros c1 c2 (? & ? & ? & ? & ?). by repeat split. Qed.

Lemma alike_setProcessedZip b :
  alike (Stats:=Stats) (setProcessedZip b) (setProcessedZip b).
Proof. intros c1 c2 (? & ? & ? & ? & ?). by repeat split. Qed.

Lemma alike_setFolderStats s :
  alike (Stats:=Stats) (setFolderStats s) (setFolderStats s).
Proof. intros c1 c2 (? & ? & ? & ? & ?). by repeat split. Qed.

Lemma alike_setDebug f g : alike (Stats:=Stats) (setDebug f) (setDebug g).
Proof. intros c1 c2 (? & ? & ? & ? & ?). by repeat split. Qed.

Lemma alike_addDebugLog m :
  alike (Stats:=Stats) (addDebugLog m) (addDebugLog m).
Proof. apply alike_setDebug. Qed.

Lemma alike_read r : alike (Stats:=Stats) (read r) (read r).
Proof.
  intros c1 c2 (? & ? & ? & ? & Hr). repeat split; [done..|].
  cbn. by rewrite Hr.
Qed.

Lemma alike_for_of {A B} (xs : list A) (body : B → A → M B) acc :
  (∀ acc x, alike (Stats:=Stats) (body acc x) (body acc x)) →
  alike (Stats:=Stats) (for_of xs body acc) (for_of xs body acc).
Proof.
  intros Hbody. revert acc. induction xs as [|x xs IH]; intros acc.
  - apply alike_ret.
  - cbn. apply (alike_bind _ _ (for_of xs body) (for_of xs body)); auto.
Qed.

Lemma alike_for_each {B} v (body : B → JSON → M B) acc :
  (∀ acc x, alike (Stats:=Stats) (body acc x) (body acc x)) →
  alike (Stats:=Stats) (for_each v body acc) (for_each v body acc).
Proof.
  intros Hbody. unfold for_each. apply alike_bind; [apply alike_lift|].
  intros items. by apply alike_for_of.
Qed.




End LogBlind.

Create HintDb alike discriminated.
#[export] Hint Resolve alike_ret alike_throw alike_lift alike_onStatusChange
  alike_onError alike_setProcessedZip alike_setFolderStats alike_addDebugLog
  alike_setDebug alike_read : alike.

(** Takes a computation apart along its binds, branches and loops. *)
Ltac alike :=
  repeat
    lazymatch goal with
    | |- alike (for_each _ _ _) _ => apply alike_for_each; intros ? ?
    | |- alike (for_of _ _ _) _ => apply alike_for_of; intros ? ?
    | |- alike (match ?x with _ => _ end) _ => destruct x
    | |- alike (mbind _ _) _ => apply alike_bind; [|intros ?]
    | |- alike _ _ => solve [auto with alike nocore]
    end.

Section LogBlindMore.
Context {Stats : Type}.


Lemma alike_loadAsync archiveFile :
  alike (Stats:=Stats) (loadAsync archiveFile) (loadAsync archiveFile).
Proof.
  unfold loadAsync.
  apply (alike_bind (read ReadArchive) (read ReadArchive));
    [apply alike_read|]. intros ?. apply alike_lift.
Qed.

Lemma alike_arrayBuffer archiveFile :
  alike (Stats:=Stats) (arrayBuffer archiveFile) (arrayBuffer archiveFile).
Proof.
  unfold arrayBuffer.
  apply (alike_bind (read ReadArchive) (read ReadArchive));
    [apply alike_read|]. intros ?. apply alike_ret.
Qed.


Lemma for_each_array {B} items (body : B → JSON → M (Stats:=Stats) B) acc c :
  for_each (Some (JArr items)) body acc c = for_of items body acc c.
Proof. done. Qed.

End LogBlindMore.

#[export] Hint Resolve alike_loadAsync alike_arrayBuffer : alike.

(** ** GroupingEngine: a link that resolves to nothing *)


Lemma operations_process_link_alike zip folderName acc link :
  alike (Operations.process_link zip folderName acc link)
        (Operations.process_link zip folderName acc link).
Proof. unfold Operations.process_link. destruct acc. alike. Qed.

#[export] Hint Resolve operations_process_link_alike : alike.

Lemma operations_process_folder_alike zip acc folderConfig :
  alike (Operations.process_folder zip acc folderConfig)
        (Operations.process_folder zip acc folderConfig).
Proof. unfold Operations.process_folder. destruct acc. alike. Qed.

#[export] Hint Resolve operations_process_folder_alike : alike.




Lemma logged_process_link_alike resolve folderName acc link :
  alike (Logged.process_link resolve folderName acc link)
        (Logged.process_link resolve folderName acc link).
Proof. unfold Logged.process_link. destruct acc. alike. Qed.

#[export] Hint Resolve logged_process_link_alike : alike.

Lemma logged_process_folder_alike resolve acc folderConfig :
  alike (Logged.process_folder resolve acc folderConfig)
        (Logged.process_folder resolve acc folderConfig).
Proof. unfold Logged.process_folder. destruct acc. alike. Qed.

#[export] Hint Resolve logged_process_folder_alike : alike.






(** ** Round trip *)








(** ** Group directories *)

Lemma sanitize_safe s c : c ∈ sanitize s → safe_char c = true.
Proof.
  unfold sanitize. intros (d & -> & _)%list_elem_of_fmap.
  by destruct (safe_char d) eqn:Hd.
Qed.



Lemma receiver_Returned {Stats} expr method v (c c' : Component Stats) s :
  lift (receiver expr method v) c = (c', Returned s) → v = Some (JStr s).
Proof. destruct v as [[]|]; try done. by intros [= _ ->]. Qed.











Example sanitised_directory :
  processedZip
    (final (MainTestFolder.processFiles (Some Scenario.archive)
              (Some {| parsed := inr (JArr Scenario.spaced) |})) mounted)
  = Some {[ $"Group_A/update_file.txt" := [Byte.x01] ]}.
Proof. reflexivity. Qed.



(** ** The variants side by side *)

(** The first component does not check that the configuration is an array:
    on an object it has read the archive before the loop throws. *)
Example plain_reads_the_archive_first :
  reads (final (Plain.processFiles (Some Scenario.archive)
                  (Some {| parsed := inr (JObj []) |})) mounted)
  = [ReadJson; ReadArchive]
  ∧ status (final (Plain.processFiles (Some Scenario.archive)
                     (Some {| parsed := inr (JObj []) |})) mounted)
    = error.
Proof. split; reflexivity. Qed.

(** The component that counts the files of each group writes nothing to
    the log for a link that resolves to nothing. *)
Example counted_logs_no_warning :
  debug (final (Counted.processFiles (Some Scenario.archive)
                  (Some (Scenario.config $"Review Test"))) mounted)
  = [$"JSON config loaded successfully"].
Proof. reflexivity. Qed.

(** The processing log of the scenario, in the component that classifies
    the files. *)
Example scenario_log :
  debug (final (Operations.processFiles (Some Scenario.archive)
                  (Some (Scenario.config $"Review Text"))) mounted)
  = [$"Starting file processing";
     $"JSON configuration loaded successfully";
     $"Processing folder: GroupA";
     $"Processing file: folder/update_file.txt";
     $"Successfully processed file: update_file.txt (update)";
     $"Processing file: other/file2.txt";
     $"Successfully processed file: file2.txt (insert)";
     $"Processing file: missing.txt";
     $"Warning: File not found: missing.txt";
     $"File processing completed successfully"].
Proof. reflexivity. Qed.

(** * Further properties *)

(** ** The resolvers *)

(** A file the ZIP resolvers return is an entry of the archive, and not a
    directory. *)
Theorem found_file_is_an_archive_file (zip : JSZip) (searchPath : str) :
  (∀ file, TailMatch.findFileInZip zip searchPath = Some file →
           file ∈ zip ∧ dir file = false)
  ∧ (∀ file, MainTestFolder.findFileInZip zip searchPath = Some file →
             file ∈ zip ∧ dir file = false).
Proof.
  split; intros file.
  - unfold TailMatch.findFileInZip.
    destruct (zip_file zip _) as [f|] eqn:H1.
    { intros [= ->]. apply zip_file_Some in H1. naive_solver. }
    destruct (find _ _) as [[|ch m]|]; try done.
    intros H%zip_file_Some. naive_solver.
  - unfold MainTestFolder.findFileInZip.
    destruct (zip_file zip _) as [f|] eqn:H1.
    { intros [= ->]. apply zip_file_Some in H1. naive_solver. }
    destruct (zip_file zip (_ ++ _)) as [f|] eqn:H2.
    { intros [= ->]. apply zip_file_Some in H2. naive_solver. }
    destruct (if JS.startsWith _ _ then _ else _) as [f|] eqn:H3.
    { intros [= ->]. destruct (JS.startsWith _ _); [|done].
      apply zip_file_Some in H3. naive_solver. }
    destruct (find _ _) as [[|ch m]|]; try done.
    intros H%zip_file_Some. naive_solver.
Qed.

Lemma found_file_is_an_archive_file_witness :
  file_entry $"x/a/b/c.txt" [] ∈ [ {| name := $"a/b/"; dir := true; data := [] |};
                                  file_entry $"x/a/b/c.txt" [] ]
  ∧ dir (file_entry $"x/a/b/c.txt" []) = false.
Proof.
  apply (proj1 (found_file_is_an_archive_file
                  [ {| name := $"a/b/"; dir := true; data := [] |};
                    file_entry $"x/a/b/c.txt" [] ] $"b/c.txt")).
  reflexivity.
Defined.

Lemma tail_findFileInTar_normalized tar p q :
  normalizeFilePath p = normalizeFilePath q →
  TailMatch.findFileInTar tar p = TailMatch.findFileInTar tar q.
Proof.
  intros H. induction tar as [|[e|] tar IH]; cbn; [done| |done].
  rewrite H, IH. done.
Qed.

Lemma prefixed_findFileInTar_normalized tar p q :
  normalizeFilePath p = normalizeFilePath q →
  MainTestFolder.findFileInTar tar p = MainTestFolder.findFileInTar tar q.
Proof.
  intros H. induction tar as [|[e|] tar IH]; cbn -[MainTestFolder.prefix];
    [done| |done].
  rewrite H, IH. done.
Qed.

(** The resolvers see the search path through its normalisation only: two
    ways of writing a path that normalise alike resolve alike. *)
Theorem resolvers_read_the_normalised_path
    (zip : JSZip) (tar : Tar) (p q : str) :
  normalizeFilePath p = normalizeFilePath q →
  TailMatch.findFileInZip zip p = TailMatch.findFileInZip zip q
  ∧ TailMatch.findFileInTar tar p = TailMatch.findFileInTar tar q
  ∧ MainTestFolder.findFileInZip zip p = MainTestFolder.findFileInZip zip q
  ∧ MainTestFolder.findFileInTar tar p = MainTestFolder.findFileInTar tar q.
Proof.
  intros H. split_and!.
  - unfold TailMatch.findFileInZip. by rewrite H.
  - by apply tail_findFileInTar_normalized.
  - unfold MainTestFolder.findFileInZip. by rewrite H.
  - by apply prefixed_findFileInTar_normalized.
Qed.

Lemma resolvers_read_the_normalised_path_witness :
  TailMatch.findFileInZip RoundTrip.zip $"\b\c.txt"
  = TailMatch.findFileInZip RoundTrip.zip $"//b//c.txt"
  ∧ TailMatch.findFileInTar (as_tar Scenario.tar_archive) $"\b\c.txt"
    = TailMatch.findFileInTar (as_tar Scenario.tar_archive) $"//b//c.txt"
  ∧ MainTestFolder.findFileInZip RoundTrip.zip $"\b\c.txt"
    = MainTestFolder.findFileInZip RoundTrip.zip $"//b//c.txt"
  ∧ MainTestFolder.findFileInTar (as_tar Scenario.tar_archive) $"\b\c.txt"
    = MainTestFolder.findFileInTar (as_tar Scenario.tar_archive) $"//b//c.txt".
Proof.
  apply (resolvers_read_the_normalised_path RoundTrip.zip (as_tar Scenario.tar_archive)
           $"\b\c.txt" $"//b//c.txt").
  reflexivity.
Defined.


(** ** Paths and names *)

Lemma split_cons_sep sep s : JS.split sep (sep :: s) = [] :: JS.split sep s.
Proof. cbn. by rewrite bool_decide_eq_true_2. Qed.

Lemma split_cons_other sep c s :
  c ≠ sep →
  ∃ seg segs, JS.split sep s = seg :: segs
              ∧ JS.split sep (c :: s) = (c :: seg) :: segs.
Proof.
  intros Hc. cbn. rewrite bool_decide_eq_false_2 by done.
  pose proof (split_nonempty sep s).
  destruct (JS.split sep s) as [|seg segs]; [done|]. eauto.
Qed.

Lemma components_strip s :
  components (strip_leading_slashes s) = components s.
Proof.
  induction s as [|c s IH]; [done|]. cbn [strip_leading_slashes].
  unfold JS.is_slash. case_bool_decide as Hc; [|done]. subst c.
  rewrite IH. unfold components, segments. rewrite split_cons_sep.
  by rewrite filter_cons_False by naive_solver.
Qed.

Lemma components_collapse b s :
  (b = false → head (segments (collapse_slashes b s)) = head (segments s)
               ∧ filter (λ seg, seg ≠ []) (tail (segments (collapse_slashes b s)))
                 = filter (λ seg, seg ≠ []) (tail (segments s)))
  ∧ components (collapse_slashes b s) = components s.
Proof.
  revert b. induction s as [|c s IH]; intros b; [done|].
  cbn [collapse_slashes]. unfold JS.is_slash. case_bool_decide as Hc.
  - subst c. destruct (IH true) as [_ IHt]. unfold components, segments in *.
    destruct b.
    + split; [done|]. rewrite split_cons_sep.
      by rewrite filter_cons_False by naive_solver.
    + rewrite !split_cons_sep. cbn [head tail].
      split; [done|]. by rewrite !filter_cons_False by naive_solver.
  - destruct (IH false) as [[Hhead Htail] _]; [done|].
    unfold components, segments in *.
    destruct (split_cons_other JS.slash c s Hc) as (seg & segs & Hs & ->).
    destruct (split_cons_other JS.slash c (collapse_slashes false s) Hc)
      as (seg' & segs' & Hs' & ->).
    rewrite Hs, Hs' in *. cbn in Hhead, Htail. injection Hhead as ->.
    cbn [head tail]. rewrite !filter_cons_True by done.
    by rewrite Htail.
Qed.

(** Normalising a path keeps its components: the segments, other than the
    empty ones, of the path with its backslashes turned into slashes. *)
Theorem normalizeFilePath_keeps_components (p : str) :
  components (normalizeFilePath p) = components (replace_backslashes p).
Proof.
  unfold normalizeFilePath.
  by rewrite (proj2 (components_collapse false _)), components_strip.
Qed.

Example components_ex :
  components (normalizeFilePath $"\\srv\logs//2024\a.txt")
  = [$"srv"; $"logs"; $"2024"; $"a.txt"].
Proof. reflexivity. Qed.

Lemma safe_underscore : safe_char "_"%char = true.
Proof. reflexivity. Qed.

(** Sanitising keeps the length of a name and leaves a name of allowed
    characters as it is; the result holds no slash, so it is one segment,
    and sanitising it again changes nothing. *)
Theorem sanitize_shape (reviewTest : str) :
  length (sanitize reviewTest) = length reviewTest
  ∧ (Forall (λ ch, safe_char ch = true) reviewTest →
     sanitize reviewTest = reviewTest)
  ∧ sanitize (sanitize reviewTest) = sanitize reviewTest
  ∧ segments (sanitize reviewTest) = [sanitize reviewTest].
Proof.
  assert (Hid : ∀ s, Forall (λ ch, safe_char ch = true) s → sanitize s = s).
  { induction 1 as [|ch s Hch _ IH]; [done|]. unfold sanitize in *. cbn.
    by rewrite Hch, IH. }
  assert (Hsafe : Forall (λ ch, safe_char ch = true) (sanitize reviewTest)).
  { apply Forall_forall. intros ch. apply sanitize_safe. }
  split_and!.
  - unfold sanitize. apply length_fmap.
  - apply Hid.
  - by apply Hid.
  - induction Hsafe as [|ch s Hch _ IH]; [done|]. unfold segments in *. cbn.
    rewrite bool_decide_eq_false_2; [by rewrite IH|].
    intros ->. done.
Qed.

Lemma sanitize_shape_witness : sanitize $"Group-A_1" = $"Group-A_1".
Proof.
  apply (proj1 (proj2 (sanitize_shape $"Group-A_1"))).
  by apply (bool_decide_unpack _).
Defined.

Lemma split_no_sep sep s : Forall (λ seg, sep ∉ seg) (JS.split sep s).
Proof.
  induction s as [|c s IH].
  { apply Forall_singleton, not_elem_of_nil. }
  destruct (decide (c = sep)) as [->|Hc].
  - rewrite split_cons_sep. apply Forall_cons. split; [apply not_elem_of_nil|done].
  - destruct (split_cons_other sep c s Hc) as (x & xs & Hs & ->).
    rewrite Hs in IH. apply Forall_cons in IH as [Hx Hxs].
    apply Forall_cons. split; [|done]. by apply not_elem_of_cons.
Qed.

Lemma split_join sep s : Value.join_strings [sep] (JS.split sep s) = s.
Proof.
  induction s as [|c s IH]; [done|].
  pose proof (split_nonempty sep s) as Hne.
  destruct (decide (c = sep)) as [->|Hc].
  - rewrite split_cons_sep.
    destruct (JS.split sep s) as [|x xs]; [done|]. cbn in *. by rewrite IH.
  - destruct (split_cons_other sep c s Hc) as (x & xs & Hs & ->).
    rewrite Hs in IH. destruct xs as [|y xs]; cbn in *; by rewrite IH.
Qed.

Lemma last_join_suffix sep (l : list str) seg :
  last l = Some seg → seg `suffix_of` Value.join_strings sep l.
Proof.
  induction l as [|x [|y l] IH]; [done| |].
  - intros [= ->]. done.
  - intros H. change (Value.join_strings sep (x :: y :: l))
      with (x ++ sep ++ Value.join_strings sep (y :: l)).
    do 2 apply suffix_app_r. by apply IH.
Qed.

(** The name a resolved link is filed under, [link.split('/').pop() ||
    link]: it is the link itself when the link ends with a slash (or is
    empty), and otherwise the last segment of the link, which is not empty
    and holds no slash. In both cases the link ends with it. *)
Theorem link_fileName_is_the_last_segment (link : str) :
  link_fileName link `suffix_of` link
  ∧ (link = [] ∨ last link = Some JS.slash → link_fileName link = link)
  ∧ (link ≠ [] → last link ≠ Some JS.slash →
     JS.pop (segments link) = Some (link_fileName link)
     ∧ link_fileName link ≠ []
     ∧ JS.slash ∉ link_fileName link).
Proof.
  unfold link_fileName, JS.pop, segments.
  pose proof (last_split JS.slash link) as Hempty.
  pose proof (split_no_sep JS.slash link) as Hsep.
  pose proof (last_join_suffix [JS.slash] (JS.split JS.slash link)) as Hsuffix.
  rewrite split_join in Hsuffix.
  destruct (last (JS.split JS.slash link)) as [[|ch seg]|] eqn:Hlast.
  - split_and!; [done..|]. intros ??. naive_solver.
  - split_and!; [by apply Hsuffix| |].
    + intros H. apply Hempty in H. done.
    + intros _ _. split_and!; [done..|].
      rewrite Forall_forall in Hsep. apply Hsep.
      apply list_elem_of_lookup. rewrite last_lookup in Hlast. eauto.
  - apply last_None in Hlast. by apply split_nonempty in Hlast.
Qed.

Lemma link_fileName_is_the_last_segment_witness :
  JS.pop (segments $"logs/2024/a.txt") = Some (link_fileName $"logs/2024/a.txt")
  ∧ link_fileName $"logs/2024/a.txt" ≠ []
  ∧ JS.slash ∉ link_fileName $"logs/2024/a.txt".
Proof.
  apply (proj2 (proj2 (link_fileName_is_the_last_segment $"logs/2024/a.txt")));
    done.
Defined.

(** ** What a run leaves alone *)

Lemma returns_bind {Stats A B} (Q : Component Stats → Prop)
    (m : M A) (k : A → M B) :
  (∀ a, returns_in Q (k a)) → returns_in Q (a ← m; k a).
Proof.
  intros Hk c c' b (c1 & a & _ & H)%bind_Returned. by eapply Hk.
Qed.

Section Keeps.
Context {Stats : Type} (R : relation (Component Stats)) `{!PreOrder R}.

Lemma keeps_ret {A} (a : A) : keeps R (ret a).
Proof using Type*. intros c. reflexivity. Qed.

Lemma keeps_throw {A} e : keeps R (throw (A:=A) e).
Proof using Type*. intros c. reflexivity. Qed.

Lemma keeps_lift {A} (r : Error + A) : keeps R (lift r).
Proof using Type*. destruct r; [apply keeps_throw|apply keeps_ret]. Qed.

Lemma keeps_bind {A B} (m : M A) (k : A → M B) :
  keeps R m → (∀ a, keeps R (k a)) → keeps R (a ← m; k a).
Proof using Type*.
  intros Hm Hk c. unfold mbind, M_bind, bind. specialize (Hm c).
  destruct (m c) as [c1 [a|e]]; [|done]. etrans; [done|]. apply Hk.
Qed.

Lemma keeps_for_of {A B} (xs : list A) (body : B → A → M B) acc :
  (∀ acc x, keeps R (body acc x)) → keeps R (for_of xs body acc).
Proof using Type*.
  intros Hbody. revert acc. induction xs as [|x xs IH]; intros acc.
  - apply keeps_ret.
  - cbn. apply (keeps_bind (body acc x) (for_of xs body)); auto.
Qed.

Lemma keeps_for_each {B} v (body : B → JSON → M B) acc :
  (∀ acc x, keeps R (body acc x)) → keeps R (for_each v body acc).
Proof using Type*.
  intros Hbody. unfold for_each. apply keeps_bind; [apply keeps_lift|].
  intros items. by apply keeps_for_of.
Qed.

Lemma keeps_try_catch body handler :
  keeps R body → (∀ e, keeps R (handler e)) → keeps R (try_catch body handler).
Proof using Type*.
  intros Hb Hh c. unfold try_catch. specialize (Hb c).
  destruct (body c) as [c1 [[]|e]]; [done|]. etrans; [done|]. apply Hh.
Qed.

(** A throw from a sequence comes from its first part, or from what
    follows once the first part has returned. *)
Lemma bind_Thrown_keeps {A B} (m : M A) (k : A → M B) c0 c c' e :
  keeps R m → R c0 c →
  (a ← m; k a) c = (c', Thrown e) →
  R c0 c' ∨ ∃ c1 a, R c0 c1 ∧ k a c1 = (c', Thrown e).
Proof using Type*.
  intros Hm Hc. unfold mbind, M_bind, bind. specialize (Hm c).
  destruct (m c) as [c1 [a|e1]].
  - intros Hk. right. exists c1, a. split; [by etrans|done].
  - intros [= <- _]. left. by etrans.
Qed.

End Keeps.

Lemma throws_bind {Stats A B} (R : relation (Component Stats)) `{!PreOrder R}
    c0 (m : M A) (k : A → M B) :
  keeps R m → (∀ a, throws_in R c0 (k a)) → throws_in R c0 (a ← m; k a).
Proof.
  intros Hm Hk c c' e Hc H.
  destruct (bind_Thrown_keeps R m k c0 c c' e Hm Hc H)
    as [?|(c1 & a & Hc1 & Hk1)]; [done|]. by eapply Hk.
Qed.

Lemma try_catch_bind_run {Stats A} (m : M (Stats:=Stats) A) (k : A → M unit) handler c c1 a :
  m c = (c1, Returned a) →
  try_catch (a ← m; k a) handler c = try_catch (k a) handler c1.
Proof. intros H. unfold try_catch. by rewrite (bind_run _ _ _ _ _ H). Qed.

Lemma try_catch_bind_thrown {Stats A} (m : M (Stats:=Stats) A) (k : A → M unit) handler c c1 e :
  m c = (c1, Thrown e) →
  try_catch (a ← m; k a) handler c = handler e c1.
Proof. intros H. unfold try_catch. by rewrite (bind_thrown _ _ _ _ _ H). Qed.

Global Instance same_results_preorder {Stats} : PreOrder (@same_results Stats).
Proof.
  split; [intros c; by split|]. intros c1 c2 c3 [] []. split; congruence.
Qed.

Global Instance same_reads_preorder {Stats} : PreOrder (@same_reads Stats).
Proof.
  split; [intros c; by unfold same_reads|]. intros c1 c2 c3.
  unfold same_reads. congruence.
Qed.

Global Instance same_error_preorder {Stats} : PreOrder (@same_error Stats).
Proof.
  split; [intros c; by unfold same_error|]. intros c1 c2 c3.
  unfold same_error. congruence.
Qed.

Global Instance log_grows_preorder {Stats} : PreOrder (@log_grows Stats).
Proof.
  split; [intros c; by unfold log_grows|]. intros c1 c2 c3.
  unfold log_grows. by etrans.
Qed.

Create HintDb keeps discriminated.

(** A step that sets one field of the state. *)
Ltac keeps_step :=
  intros ?; unfold same_results, same_reads, same_error, log_grows; cbn;
  first [ done | by split | by apply prefix_app_r ].

(** Takes a computation apart along its binds, branches and loops; the
    steps that set one field are settled by computing. *)
Ltac keeps :=
  repeat
    lazymatch goal with
    | |- keeps _ (for_each _ _ _) =>
        apply keeps_for_each; [tc_solve|intros ? ?]
    | |- keeps _ (for_of _ _ _) => apply keeps_for_of; [tc_solve|intros ? ?]
    | |- keeps _ (try_catch _ _) =>
        apply keeps_try_catch; [tc_solve| |intros ?]
    | |- keeps _ (match ?x with _ => _ end) => destruct x
    | |- keeps _ (mbind _ _) => apply keeps_bind; [tc_solve| |intros ?]
    | |- keeps _ (bind ?m ?k) => apply (keeps_bind _ m k); [|intros ?]
    | |- keeps _ (ret _) => apply keeps_ret; tc_solve
    | |- keeps _ (throw _) => apply keeps_throw; tc_solve
    | |- keeps _ (lift _) => apply keeps_lift; tc_solve
    | |- keeps _ (parse _) => unfold parse
    | |- keeps _ (loadAsync _) => unfold loadAsync
    | |- keeps _ (arrayBuffer _) => unfold arrayBuffer
    | |- keeps _ _ =>
        first [ solve [auto with keeps nocore] | keeps_step ]
    end.

(** Follows a computation to the steps after its last loop: what it ends
    in when all of it returns. *)
Ltac returns :=
  repeat
    lazymatch goal with
    | |- returns_in _ (mbind _ (setProcessedZip _)) => fail
    | |- returns_in _ (mbind _ _) =>
        apply returns_bind; intros ?;
        try match goal with x : (_ * _)%type |- _ => destruct x end
    end.

(** Follows a computation along the steps that keep [R], to the steps that
    cannot throw. *)
Ltac throws :=
  repeat (apply throws_bind;
          [tc_solve|solve [keeps]|
           intros ?;
           try match goal with x : (_ * _)%type |- _ => destruct x end]);
  try by intros ??? _; cbn.

Lemma prefixed_process_folder_keeps (R : relation (Component Empty_set))
    `{!PreOrder R} process_link out folderConfig :
  (∀ m, keeps R (addDebugLog m)) →
  (∀ folderName out link, keeps R (process_link folderName out link)) →
  keeps R (MainTestFolder.process_folder process_link out folderConfig).
Proof. intros Hlog Hlink. unfold MainTestFolder.process_folder. keeps. Qed.

Lemma prefixed_process_link_zip_keeps (R : relation (Component Empty_set))
    `{!PreOrder R} zip folderName out link :
  (∀ m, keeps R (addDebugLog m)) →
  keeps R (MainTestFolder.process_link_zip zip folderName out link).
Proof. intros Hlog. unfold MainTestFolder.process_link_zip. keeps. Qed.

Lemma prefixed_process_link_tar_keeps (R : relation (Component Empty_set))
    `{!PreOrder R} tar folderName out link :
  (∀ m, keeps R (addDebugLog m)) →
  keeps R (MainTestFolder.process_link_tar tar folderName out link).
Proof. intros Hlog. unfold MainTestFolder.process_link_tar. keeps. Qed.

Lemma plain_process_folder_keeps (R : relation (Component Empty_set))
    `{!PreOrder R} zip out folderConfig :
  keeps R (Plain.process_folder zip out folderConfig).
Proof. unfold Plain.process_folder, Plain.process_link. keeps. Qed.

Lemma counted_process_folder_keeps
    (R : relation (Component Counted.FolderStats)) `{!PreOrder R}
    resolve acc folderConfig :
  keeps R (Counted.process_folder resolve acc folderConfig).
Proof.
  unfold Counted.process_folder, Counted.process_link. destruct acc. keeps.
Qed.

Lemma logged_process_folder_keeps
    (R : relation (Component Logged.FolderStats)) `{!PreOrder R}
    resolve acc folderConfig :
  (∀ m, keeps R (addDebugLog m)) →
  keeps R (Logged.process_folder resolve acc folderConfig).
Proof.
  intros Hlog. unfold Logged.process_folder, Logged.process_link.
  destruct acc. keeps.
Qed.

Lemma operations_process_folder_keeps
    (R : relation (Component Operations.FolderStats)) `{!PreOrder R}
    zip acc folderConfig :
  (∀ m, keeps R (addDebugLog m)) →
  keeps R (Operations.process_folder zip acc folderConfig).
Proof.
  intros Hlog. unfold Operations.process_folder, Operations.process_link.
  destruct acc. keeps.
Qed.

(** The loop bodies of the five components. *)
Ltac keeps_folder :=
  first
    [ apply operations_process_folder_keeps; [tc_solve|intros ?; keeps_step]
    | apply logged_process_folder_keeps; [tc_solve|intros ?; keeps_step]
    | apply counted_process_folder_keeps; tc_solve
    | apply plain_process_folder_keeps; tc_solve
    | apply prefixed_process_folder_keeps;
      [tc_solve|intros ?; keeps_step|intros ???]
    | apply prefixed_process_link_zip_keeps; [tc_solve|intros ?; keeps_step]
    | apply prefixed_process_link_tar_keeps; [tc_solve|intros ?; keeps_step] ].

#[export] Hint Extern 1 (keeps _ (Operations.process_folder _ _ _)) =>
  keeps_folder : keeps.
#[export] Hint Extern 1 (keeps _ (Logged.process_folder _ _ _)) =>
  keeps_folder : keeps.
#[export] Hint Extern 1 (keeps _ (Counted.process_folder _ _ _)) =>
  keeps_folder : keeps.
#[export] Hint Extern 1 (keeps _ (Plain.process_folder _ _ _)) =>
  keeps_folder : keeps.
#[export] Hint Extern 1 (keeps _ (MainTestFolder.process_folder _ _ _)) =>
  keeps_folder; keeps_folder : keeps.

(** The ways a run given both files ends. *)
Ltac run_outcome c :=
  let c1 := fresh "c" in
  let e := fresh "e" in
  let Hbody := fresh "Hbody" in
  run_or_throw c c1 e Hbody;
  [ left;
    match type of Hbody with
    | ?body c = _ =>
        assert (returns_in
                  (λ c', status c' = success ∧ is_Some (processedZip c')) body)
          as Hreturns
          by (returns; intros ??? [= <- _]; by split);
        assert (keeps same_error body) as Hkeeps by keeps;
        specialize (Hkeeps c); rewrite Hbody in Hkeeps;
        destruct (Hreturns _ _ _ Hbody); by split_and!
    end
  | right;
    match type of Hbody with
    | ?body c = _ =>
        assert (throws_in same_results c body) as Hthrows by throws;
        specialize (Hthrows c c1 e (reflexivity _) Hbody);
        destruct Hthrows; by split_and!
    end ].

(** A run given both files ends in [success] or in [error], in all five
    components. When it ends in [error] it has set an error message and
    left the blob and the statistics of the run before in place; when it
    ends in [success] it has set a blob and left the error message as it
    found it. *)
Theorem run_ends_in_success_or_error
    (archiveFile : ArchiveFile) (jsonFile : JsonFile) :
  (∀ c, run_outcome c
          (final (Plain.processFiles (Some archiveFile) (Some jsonFile)) c))
  ∧ (∀ c, run_outcome c
            (final (MainTestFolder.processFiles (Some archiveFile)
                      (Some jsonFile)) c))
  ∧ (∀ c, run_outcome c
            (final (Counted.processFiles (Some archiveFile)
                      (Some jsonFile)) c))
  ∧ (∀ c, run_outcome c
            (final (Logged.processFiles (Some archiveFile)
                      (Some jsonFile)) c))
  ∧ (∀ c, run_outcome c
            (final (Operations.processFiles (Some archiveFile)
                      (Some jsonFile)) c)).
Proof.
  split_and!; intros c; unfold final.
  - unfold Plain.processFiles. run_outcome c.
  - unfold MainTestFolder.processFiles. run_outcome c.
  - unfold Counted.processFiles. run_outcome c.
  - unfold Logged.processFiles. run_outcome c.
  - unfold Operations.processFiles. run_outcome c.
Qed.

(** ** The reads of a run *)

Section Reads.
Context {Stats : Type}.
Implicit Types (R L : list FileRead) (handler : Error → M (Stats:=Stats) unit).

Lemma reads_assoc {A B} (m : M A) (f : A → M B) (g : B → M unit)
    handler R L :
  (∀ c, reads c = R →
        reads (try_catch (y ← m; x ← f y; g x) handler c).1 = L) →
  ∀ c, reads c = R →
       reads (try_catch (x ← (y ← m; f y); g x) handler c).1 = L.
Proof.
  intros H c Hc. rewrite <-(H c Hc).
  unfold try_catch, mbind, M_bind, bind. by destruct (m c) as [c1 [a|e]].
Qed.

(** One step of a [try]: the reads it makes, and the two ways on. *)
Lemma reads_bind {A} (m : M A) (k : A → M unit) handler R R' L :
  (∀ c, reads c = R → reads (m c).1 = R') →
  (∀ a c, (∃ c0, m c0 = (c, Returned a)) → reads c = R' →
          reads (try_catch (k a) handler c).1 = L) →
  (∀ e c, (∃ c0, m c0 = (c, Thrown e)) → reads c = R' →
          reads (handler e c).1 = L) →
  ∀ c, reads c = R → reads (try_catch (a ← m; k a) handler c).1 = L.
Proof.
  intros Hm Hk Hh c Hc. specialize (Hm c Hc).
  destruct (m c) as [c1 [a|e]] eqn:Hrun.
  - erewrite try_catch_bind_run by done. eauto.
  - erewrite try_catch_bind_thrown by done. eauto.
Qed.

Lemma reads_handler handler e R L :
  keeps same_reads (handler e) → R = L →
  ∀ c, reads c = R → reads (handler e c).1 = L.
Proof. intros Hh <- c <-. apply Hh. Qed.

(** The rest of a [try] that reads no file. *)
Lemma reads_end (body : M unit) handler R L :
  keeps same_reads body → (∀ e, keeps same_reads (handler e)) → R = L →
  ∀ c, reads c = R → reads (try_catch body handler c).1 = L.
Proof.
  intros Hb Hh <- c <-. by apply (keeps_try_catch same_reads).
Qed.

Lemma reads_keeps {A} (m : M (Stats:=Stats) A) R :
  keeps same_reads m → ∀ c, reads c = R → reads (m c).1 = R.
Proof. intros Hm c <-. apply Hm. Qed.

End Reads.

Lemma lift_Returned {Stats A} (r : Error + A) (c0 c : Component Stats) a :
  lift r c0 = (c, Returned a) → r = inr a.
Proof. destruct r; by intros [= _ ->]. Qed.

(** Follows a [try] step by step, from the reads [R] made so far. *)
Ltac reads_run :=
  repeat
    first
      [ apply reads_end;
        [solve [keeps]|intros ?; solve [keeps]|by rewrite <-?app_assoc]
      | lazymatch goal with
        | |- ∀ c, reads c = _ → reads (try_catch (mbind _ (mbind _ _)) _ c).1 = _ =>
            apply reads_assoc
        | |- ∀ c, reads c = _ → reads (try_catch (mbind _ (bind _ _)) _ c).1 = _ =>
            apply reads_assoc
        | |- ∀ c, reads c = _ →
                  reads (try_catch (mbind _ (if negb ?b then _ else _)) _ c).1
                  = _ =>
            match goal with H : b = _ |- _ => rewrite H; cbn [negb] end
        | |- ∀ c, reads c = _ → reads (try_catch (mbind _ _) _ c).1 = _ =>
            eapply reads_bind;
            [ first [ apply reads_keeps; solve [keeps]
                    | let Hc := fresh "Hc" in
                      intros ? Hc; cbn; by rewrite Hc ]
            | let c1 := fresh "c" in
              let Hrun := fresh "Hrun" in
              intros ? c1 [? Hrun];
              first
                [ by cbn in Hrun
                | try (apply lift_Returned in Hrun; injection Hrun as <-);
                  try clear Hrun;
                  try match goal with x : (_ * _)%type |- _ => destruct x end;
                  revert c1 ]
            | let c1 := fresh "c" in
              let Hrun := fresh "Hrun" in
              intros ? c1 [? Hrun];
              first
                [ by cbn in Hrun
                | clear Hrun; revert c1;
                  apply reads_handler;
                  [solve [keeps]|by rewrite <-?app_assoc] ] ]
        end ].

(** A run given both files reads the configuration file once and first.
    It then reads the archive file, once, when the configuration is the
    JSON text of an array; the first component reads the archive for any
    JSON text. It reads nothing else, however it ends. *)
Theorem archive_is_read_after_the_configuration
    (archiveFile : ArchiveFile) (jsonFile : JsonFile) :
  (∀ c, reads (final (Plain.processFiles (Some archiveFile)
                        (Some jsonFile)) c)
        = reads c ++ file_reads (parsed_value jsonFile))
  ∧ (∀ c, reads (final (MainTestFolder.processFiles (Some archiveFile)
                          (Some jsonFile)) c)
          = reads c ++ file_reads (parsed_array jsonFile))
  ∧ (∀ c, reads (final (Counted.processFiles (Some archiveFile)
                          (Some jsonFile)) c)
          = reads c ++ file_reads (parsed_array jsonFile))
  ∧ (∀ c, reads (final (Logged.processFiles (Some archiveFile)
                          (Some jsonFile)) c)
          = reads c ++ file_reads (parsed_array jsonFile))
  ∧ (∀ c, reads (final (Operations.processFiles (Some archiveFile)
                          (Some jsonFile)) c)
          = reads c ++ file_reads (parsed_array jsonFile)).
Proof.
  split_and!; intros c; generalize (eq_refl (reads c));
    generalize (reads c) at 2 3; intros R; revert c;
    unfold final, Plain.processFiles, MainTestFolder.processFiles,
      Counted.processFiles, Logged.processFiles, Operations.processFiles,
      parsed_value, parsed_array, parse, loadAsync, arrayBuffer;
    (destruct (parsed jsonFile) as [e|config];
     [|destruct (Value.isArray (Some config)) eqn:Harr;
       destruct (isTarFile archiveFile);
       destruct (as_zip archiveFile) as [e|zip]]);
    cbv iota; reads_run.
Qed.

(** ** The processing log *)

(** The two components with a processing log of their own write to the end
    of it: whatever the files, the log a run leaves starts with the log it
    found. *)
Theorem log_only_grows
    (archiveFile : option ArchiveFile) (jsonFile : option JsonFile) :
  (∀ c, debug c
        `prefix_of` debug (final (Logged.processFiles archiveFile jsonFile) c))
  ∧ (∀ c, debug c
          `prefix_of`
          debug (final (Operations.processFiles archiveFile jsonFile) c)).
Proof.
  split; intros c.
  - assert (keeps log_grows (Logged.processFiles archiveFile jsonFile)) as H;
      [|apply H].
    unfold Logged.processFiles. keeps.
  - assert (keeps log_grows (Operations.processFiles archiveFile jsonFile))
      as H; [|apply H].
    unfold Operations.processFiles. keeps.
Qed.

(** ** Input files that cannot be read *)

Section Ends.
Context {Stats : Type}.
Implicit Types (Q : Component Stats → Prop)
  (handler : Error → M (Stats:=Stats) unit).

Lemma ends_assoc {A B} (m : M A) (f : A → M B) (g : B → M unit) handler Q :
  (∀ c, Q (try_catch (y ← m; x ← f y; g x) handler c).1) →
  ∀ c, Q (try_catch (x ← (y ← m; f y); g x) handler c).1.
Proof.
  intros H c. specialize (H c). revert H.
  unfold try_catch, mbind, M_bind, bind. by destruct (m c) as [c1 [a|e]].
Qed.

(** One step of a [try], and the two ways on. *)
Lemma ends_bind {A} (m : M A) (k : A → M unit) handler Q :
  (∀ a c, (∃ c0, m c0 = (c, Returned a)) →
          Q (try_catch (k a) handler c).1) →
  (∀ e c, (∃ c0, m c0 = (c, Thrown e)) → Q (handler e c).1) →
  ∀ c, Q (try_catch (a ← m; k a) handler c).1.
Proof.
  intros Hk Hh c. destruct (m c) as [c1 [a|e]] eqn:Hrun.
  - erewrite try_catch_bind_run by done. eauto.
  - erewrite try_catch_bind_thrown by done. eauto.
Qed.

Lemma lift_Thrown {A} (r : Error + A) (c0 c : Component Stats) e :
  lift r c0 = (c, Thrown e) → r = inl e.
Proof. destruct r; by intros [= _ ->]. Qed.

End Ends.

(** Follows a [try] step by step to the step that throws. *)
Ltac ends_run :=
  repeat
    lazymatch goal with
    | |- ∀ c, _ (try_catch (mbind _ (mbind _ _)) _ c).1 => apply ends_assoc
    | |- ∀ c, _ (try_catch (mbind _ (bind _ _)) _ c).1 => apply ends_assoc
    | |- ∀ c, _ (try_catch (mbind _ (if negb ?b then _ else _)) _ c).1 =>
        match goal with H : b = _ |- _ => rewrite H; cbn [negb] end
    | |- ∀ c, _ (try_catch (mbind _ _) _ c).1 =>
        apply ends_bind;
        [ let c1 := fresh "c" in
          let Hrun := fresh "Hrun" in
          intros ? c1 [? Hrun];
          first
            [ by cbn in Hrun
            | try (apply lift_Returned in Hrun; injection Hrun as <-);
              try clear Hrun;
              revert c1 ]
        | let c1 := fresh "c" in
          let Hrun := fresh "Hrun" in
          intros ? c1 [? Hrun];
          first
            [ by cbn in Hrun
            | apply lift_Thrown in Hrun; injection Hrun as <-; by split ] ]
    end.

(** A configuration file that is not JSON text ends the run, in all five
    components, in [error] with the message of the parser. *)
Theorem unparsable_configuration_is_reported
    (archiveFile : ArchiveFile) (jsonFile : JsonFile) (e : Error) :
  parsed jsonFile = inl e →
  (∀ c, reports e (final (Plain.processFiles (Some archiveFile)
                            (Some jsonFile)) c))
  ∧ (∀ c, reports e (final (MainTestFolder.processFiles (Some archiveFile)
                              (Some jsonFile)) c))
  ∧ (∀ c, reports e (final (Counted.processFiles (Some archiveFile)
                              (Some jsonFile)) c))
  ∧ (∀ c, reports e (final (Logged.processFiles (Some archiveFile)
                              (Some jsonFile)) c))
  ∧ (∀ c, reports e (final (Operations.processFiles (Some archiveFile)
                              (Some jsonFile)) c)).
Proof.
  intros Hparsed.
  split_and!;
    unfold final, Plain.processFiles, MainTestFolder.processFiles,
      Counted.processFiles, Logged.processFiles, Operations.processFiles,
      parse; rewrite Hparsed; ends_run.
Qed.

Lemma unparsable_configuration_is_reported_witness :
  reports (LibraryError $"Unexpected end of JSON input")
    (final (Operations.processFiles (Some Scenario.archive)
              (Some {| parsed :=
                         inl (LibraryError $"Unexpected end of JSON input") |}))
       mounted).
Proof.
  apply (unparsable_configuration_is_reported Scenario.archive
           {| parsed := inl (LibraryError $"Unexpected end of JSON input") |}
           (LibraryError $"Unexpected end of JSON input")).
  reflexivity.
Defined.

(** An archive that JSZip cannot load ends the run in [error] with the
    message of the library, once the configuration has passed: any JSON text
    in the first component, an array in the others. The last component
    loads every archive with JSZip; the three with a TAR branch do when
    the file is not taken for a TAR file. *)
Theorem unloadable_archive_is_reported
    (archiveFile : ArchiveFile) (jsonFile : JsonFile) (e : Error)
    (items : list JSON) :
  as_zip archiveFile = inl e →
  parsed jsonFile = inr (JArr items) →
  (∀ c, reports e (final (Plain.processFiles (Some archiveFile)
                            (Some jsonFile)) c))
  ∧ (∀ c, reports e (final (Operations.processFiles (Some archiveFile)
                              (Some jsonFile)) c))
  ∧ (isTarFile archiveFile = false →
     (∀ c, reports e (final (MainTestFolder.processFiles (Some archiveFile)
                               (Some jsonFile)) c))
     ∧ (∀ c, reports e (final (Counted.processFiles (Some archiveFile)
                                 (Some jsonFile)) c))
     ∧ (∀ c, reports e (final (Logged.processFiles (Some archiveFile)
                                 (Some jsonFile)) c))).
Proof.
  intros Hzip Hparsed.
  assert (Value.isArray (Some (JArr items)) = true) as Harr by done.
  split_and!; [| |intros Htar; split_and!];
    unfold final, Plain.processFiles, MainTestFolder.processFiles,
      Counted.processFiles, Logged.processFiles, Operations.processFiles,
      parse, loadAsync; rewrite Hparsed, Hzip, ?Htar; ends_run.
Qed.

Lemma unloadable_archive_is_reported_witness :
  reports (LibraryError $"Corrupted zip: missing bytes")
    (final (Logged.processFiles
              (Some {| file_name := $"logs.zip";
                       file_type := $"application/zip";
                       as_zip :=
                         inl (LibraryError $"Corrupted zip: missing bytes");
                       as_tar := [] |})
              (Some {| parsed := inr (JArr []) |}))
       mounted).
Proof.
  apply (unloadable_archive_is_reported
           {| file_name := $"logs.zip";
              file_type := $"application/zip";
              as_zip := inl (LibraryError $"Corrupted zip: missing bytes");
              as_tar := [] |}
           {| parsed := inr (JArr []) |}
           (LibraryError $"Corrupted zip: missing bytes") []);
    reflexivity.
Defined.

(** ** The loops *)

(** A loop whose every completed pass computes [f] from the variables and
    the element, on elements where [Q] holds, has folded [f] over the
    elements when it completes, and [Q] holds of them all. *)
Lemma for_of_fold {Stats A B} (f : B → A → B) (Q : A → Prop)
    (body : B → A → M (Stats:=Stats) B) xs :
  (∀ acc x c c' acc',
     body acc x c = (c', Returned acc') → Q x ∧ acc' = f acc x) →
  ∀ acc c c' acc',
    for_of xs body acc c = (c', Returned acc') →
    Forall Q xs ∧ acc' = foldl f acc xs.
Proof.
  intros Hbody. induction xs as [|x xs IH]; intros acc c c' acc'; cbn.
  - by intros [= _ <-].
  - unfold bind. destruct (body acc x c) as [c1 [a|e]] eqn:Hx; [|done].
    apply Hbody in Hx as [Hx ->]. intros [Hxs ->]%IH. by split; [constructor|].
Qed.

Lemma as_path_Returned {Stats} link (c c' : Component Stats) l :
  lift (as_path link) c = (c', Returned l) → link = JStr l.
Proof. unfold as_path. by intros [= ->]%receiver_Returned. Qed.

Lemma counted_link_pass resolve folderName acc link c c' acc' :
  Counted.process_link resolve folderName acc link c = (c', Returned acc') →
  Value.is_string (Some link)
  ∧ acc' = link_pass resolve folderName counted_add acc link.
Proof.
  destruct acc as [st out]. unfold Counted.process_link, link_pass.
  intros (c1 & l & ->%as_path_Returned & Hrest)%bind_Returned. cbn.
  split; [done|]. by destruct (resolve l); injection Hrest as _ <-.
Qed.

Lemma logged_link_pass resolve folderName acc link c c' acc' :
  Logged.process_link resolve folderName acc link c = (c', Returned acc') →
  Value.is_string (Some link)
  ∧ acc' = link_pass resolve folderName logged_add acc link.
Proof.
  destruct acc as [st out]. unfold Logged.process_link, link_pass.
  intros (c1 & [] & _ & (c2 & l & ->%as_path_Returned & Hrest)%bind_Returned)
           %bind_Returned.
  cbn. split; [done|].
  destruct (resolve l);
    by apply bind_Returned in Hrest as (c3 & [] & _ & [= _ <-]).
Qed.

Lemma operations_link_pass zip folderName acc link c c' acc' :
  Operations.process_link zip folderName acc link c = (c', Returned acc') →
  Value.is_string (Some link)
  ∧ acc' = link_pass (λ link, data <$> TailMatch.findFileInZip zip link)
             folderName operations_add acc link.
Proof.
  destruct acc as [st out]. unfold Operations.process_link, link_pass.
  intros (c1 & [] & _ & (c2 & l & ->%as_path_Returned & Hrest)%bind_Returned)
           %bind_Returned.
  cbn. split; [done|].
  destruct (TailMatch.findFileInZip zip l);
    by apply bind_Returned in Hrest as (c3 & [] & _ & [= _ <-]).
Qed.

(** The loop over the links of a group, when it completes. *)
Lemma links_loop {Stats St} (resolve : str → option bytes)
    (folderName : value)
    (add : St → str → St)
    (body : St * Blob → JSON → M (Stats:=Stats) (St * Blob))
    folderConfig acc c c' acc' :
  (∀ acc link c c' acc',
     body acc link c = (c', Returned acc') →
     Value.is_string (Some link)
     ∧ acc' = link_pass resolve folderName add acc link) →
  for_each (or_empty (Value.get $"Links" folderConfig)) body acc c
  = (c', Returned acc') →
  string_links folderConfig
  ∧ acc' = foldl (link_pass resolve folderName add) acc (links_of folderConfig).
Proof.
  intros Hbody. unfold for_each, string_links, links_of.
  intros (c1 & links & Hlinks & Hloop)%bind_Returned.
  destruct (iterate _) as [|links']; [done|]. injection Hlinks as _ ->.
  apply (for_of_fold _ _ _ _ Hbody) in Hloop as [Htext ->]. split; [|done].
  by apply forallb_True.
Qed.

Lemma skipped_group (folderConfig : JSON) :
  negb (Value.truthy (Some folderConfig))
  || negb (Value.is_object folderConfig)
  = negb (is_group folderConfig).
Proof. unfold is_group. by rewrite negb_andb. Qed.

Lemma counted_group_pass resolve acc folderConfig c c' acc' :
  Counted.process_folder resolve acc folderConfig c = (c', Returned acc') →
  (is_group folderConfig → string_links folderConfig)
  ∧ acc' = group_pass $"Review Test" resolve counted_init counted_add acc
             folderConfig.
Proof.
  destruct acc as [stats out]. unfold Counted.process_folder, group_pass.
  rewrite skipped_group. destruct (is_group folderConfig); cbn [negb].
  - intros (c1 & [st o] & Hloop & [= _ <-])%bind_Returned.
    eapply links_loop in Hloop as [Hlinks <-];
      [done|intros *; apply counted_link_pass].
  - by intros [= _ <-].
Qed.

Lemma logged_group_pass resolve acc folderConfig c c' acc' :
  Logged.process_folder resolve acc folderConfig c = (c', Returned acc') →
  (is_group folderConfig → string_links folderConfig)
  ∧ acc' = group_pass $"Review Text" resolve logged_init logged_add acc
             folderConfig.
Proof.
  destruct acc as [stats out]. unfold Logged.process_folder, group_pass.
  rewrite skipped_group. destruct (is_group folderConfig); cbn [negb].
  - intros (c1 & [] & _ & (c2 & [st o] & Hloop & [= _ <-])%bind_Returned)
             %bind_Returned.
    eapply links_loop in Hloop as [Hlinks <-];
      [done|intros *; apply logged_link_pass].
  - by intros [= _ <-].
Qed.

Lemma operations_group_pass zip acc folderConfig c c' acc' :
  Operations.process_folder zip acc folderConfig c = (c', Returned acc') →
  (is_group folderConfig → string_links folderConfig)
  ∧ acc' = group_pass $"Review Text"
             (λ link, data <$> TailMatch.findFileInZip zip link)
             operations_init operations_add acc folderConfig.
Proof.
  destruct acc as [stats out]. unfold Operations.process_folder, group_pass.
  rewrite skipped_group. destruct (is_group folderConfig); cbn [negb].
  - intros (c1 & [] & _ & (c2 & [st o] & Hloop & [= _ <-])%bind_Returned)
             %bind_Returned.
    eapply links_loop in Hloop as [Hlinks <-];
      [done|intros *; apply operations_link_pass].
  - by intros [= _ <-].
Qed.

(** ** The folds, in closed form *)

Lemma foldl_link_pass {St} resolve folderName (add : St → str → St) links acc :
  foldl (link_pass resolve folderName add) acc links
  = (foldl add acc.1
       (filter (λ link, is_Some (resolve link)) (omap link_text links)),
     foldl (write resolve folderName) acc.2 (omap link_text links)).
Proof.
  revert acc. induction links as [|link links IH]; intros [st out]; [done|].
  cbn [foldl]. rewrite IH. unfold link_pass. cbn [omap list_omap fst snd].
  destruct (link_text link) as [l|]; [|done].
  destruct (resolve l) as [content|] eqn:Hl; cbn [fst snd].
  - rewrite filter_cons_True by (by rewrite Hl). cbn. unfold write at 3.
    by rewrite Hl.
  - rewrite filter_cons_False by (rewrite Hl; by intros []). cbn.
    unfold write at 3. by rewrite Hl.
Qed.

Lemma foldl_group_pass {St} key resolve init (add : St → str → St) items acc :
  foldl (group_pass key resolve init add) acc items
  = (acc.1
     ++ ((λ g, foldl add (init (Value.get key g)) (resolved resolve g))
         <$> filter (λ g, is_group g) items),
     foldl (λ out g, foldl (write resolve (Value.get key g)) out
                       (links_text g))
       acc.2 (filter (λ g, is_group g) items)).
Proof.
  revert acc. induction items as [|g items IH]; intros [stats out].
  { cbn. by rewrite app_nil_r. }
  cbn [foldl]. rewrite IH. unfold group_pass.
  destruct (is_group g) eqn:Hg.
  - rewrite filter_cons_True by (by rewrite Hg). rewrite foldl_link_pass.
    cbn. rewrite <-app_assoc. reflexivity.
  - rewrite filter_cons_False by (rewrite Hg; by intros []). done.
Qed.

Lemma foldl_counted_add st links :
  foldl counted_add st links
  = {| Counted.name := Counted.name st;
       Counted.fileCount := Counted.fileCount st + length links;
       Counted.files := Counted.files st ++ (link_fileName <$> links) |}.
Proof.
  revert st. induction links as [|l links IH]; intros st; cbn.
  - destruct st; cbn. by rewrite Nat.add_0_r, app_nil_r.
  - rewrite IH. cbn. f_equal; [lia|by rewrite <-app_assoc].
Qed.

Lemma foldl_logged_add st links :
  foldl logged_add st links
  = {| Logged.name := Logged.name st;
       Logged.fileCount := Logged.fileCount st + length links;
       Logged.files := Logged.files st ++ (link_fileName <$> links) |}.
Proof.
  revert st. induction links as [|l links IH]; intros st; cbn.
  - destruct st; cbn. by rewrite Nat.add_0_r, app_nil_r.
  - rewrite IH. cbn. f_equal; [lia|by rewrite <-app_assoc].
Qed.

Lemma foldl_operations_add st links :
  foldl operations_add st links
  = {| Operations.name := Operations.name st;
       Operations.fileCount := Operations.fileCount st + length links;
       Operations.insertCount :=
         Operations.insertCount st
         + length (filter (λ op, op = Operations.OpInsert)
                     (Operations.determineOperation <$> links));
       Operations.updateCount :=
         Operations.updateCount st
         + length (filter (λ op, op = Operations.OpUpdate)
                     (Operations.determineOperation <$> links));
       Operations.files :=
         Operations.files st
         ++ ((λ link,
                {| Operations.file_stat_name := link_fileName link;
                   Operations.operation :=
                     Operations.determineOperation link |})
             <$> links) |}.
Proof.
  revert st. induction links as [|l links IH]; intros st.
  - destruct st; cbn. by rewrite !Nat.add_0_r, app_nil_r.
  - cbn [foldl]. rewrite IH, !fmap_cons. unfold operations_add.
    destruct (Operations.determineOperation l) eqn:Hop.
    + rewrite filter_cons_True, filter_cons_False by done. cbn.
      f_equal; [lia..|by rewrite <-app_assoc].
    + rewrite filter_cons_False, filter_cons_True by done. cbn.
      f_equal; [lia..|by rewrite <-app_assoc].
Qed.

(** ** A run that completes *)

Lemma parse_Returned {Stats} jsonFile (c c' : Component Stats) config :
  parse jsonFile c = (c', Returned config) → parsed jsonFile = inr config.
Proof. unfold parse, bind, lift. by destruct (parsed jsonFile); intros [= _ ->]. Qed.

Lemma loadAsync_Returned_inv {Stats} archiveFile (c c' : Component Stats) zip :
  loadAsync archiveFile c = (c', Returned zip) → as_zip archiveFile = inr zip.
Proof.
  unfold loadAsync, bind, lift. by destruct (as_zip archiveFile); intros [= _ ->].
Qed.

Lemma arrayBuffer_Returned {Stats} archiveFile (c c' : Component Stats) tar :
  arrayBuffer archiveFile c = (c', Returned tar) → tar = as_tar archiveFile.
Proof. unfold arrayBuffer, bind. by intros [= _ <-]. Qed.

Lemma Forall_groups (P : JSON → Prop) items :
  Forall (λ g, is_group g → P g) items →
  Forall P (filter (λ g, is_group g) items).
Proof.
  rewrite !Forall_forall. intros H g [Hg Hin]%list_elem_of_filter. auto.
Qed.

(** Takes a completed sequence apart into its completed steps. *)
Ltac unbind H :=
  repeat
    (let c := fresh "c" in
     let a := fresh "a" in
     let Hm := fresh "Hm" in
     lazymatch type of H with mbind _ _ _ = _ => idtac end;
     apply bind_Returned in H as (c & a & Hm & H);
     try match type of a with (_ * _)%type => destruct a end).

(** The state a completed run ends in, from its last steps. *)
Ltac last_steps :=
  repeat match goal with
         | H : _ = (_, Returned _) |- _ =>
             cbn in H; injection H as <- _ || injection H as <-
         end;
  cbn.

Lemma operations_completed archiveFile jsonFile items c :
  parsed jsonFile = inr (JArr items) →
  status (final (Operations.processFiles (Some archiveFile) (Some jsonFile)) c)
  = success →
  ∃ resolve,
    source_of false archiveFile = Some resolve
    ∧ Forall (λ g, string_links g) (filter (λ g, is_group g) items)
    ∧ folderStats (final (Operations.processFiles (Some archiveFile)
                            (Some jsonFile)) c)
      = operations_stats resolve <$> filter (λ g, is_group g) items
    ∧ processedZip (final (Operations.processFiles (Some archiveFile)
                             (Some jsonFile)) c)
      = Some (new_archive $"Review Text" resolve items).
Proof.
  intros Hparsed. unfold final, Operations.processFiles.
  run_or_throw c c' e Hbody; [|done]. intros _. unbind Hbody.
  apply parse_Returned in Hm1. rewrite Hparsed in Hm1. injection Hm1 as <-.
  apply loadAsync_Returned_inv in Hm4. rewrite for_each_array in Hm5.
  apply (for_of_fold _ _ _ _ (operations_group_pass a4)) in Hm5 as [Hwf Hfold].
  rewrite foldl_group_pass in Hfold. injection Hfold as -> ->.
  clear Hm Hm0 Hm2 Hm3. last_steps.
  eexists. unfold source_of. rewrite Hm4. cbn.
  split_and!; [done|apply Forall_groups, Hwf| |done].
  apply list_fmap_ext. intros _ g _. rewrite foldl_operations_add. reflexivity.
Qed.

Lemma logged_completed archiveFile jsonFile items c :
  parsed jsonFile = inr (JArr items) →
  status (final (Logged.processFiles (Some archiveFile) (Some jsonFile)) c)
  = success →
  ∃ resolve,
    source_of true archiveFile = Some resolve
    ∧ Forall (λ g, string_links g) (filter (λ g, is_group g) items)
    ∧ folderStats (final (Logged.processFiles (Some archiveFile)
                            (Some jsonFile)) c)
      = logged_stats resolve <$> filter (λ g, is_group g) items
    ∧ processedZip (final (Logged.processFiles (Some archiveFile)
                             (Some jsonFile)) c)
      = Some (new_archive $"Review Text" resolve items).
Proof.
  intros Hparsed. unfold final, Logged.processFiles.
  run_or_throw c c' e Hbody; [|done]. intros _. unbind Hbody.
  apply parse_Returned in Hm1. rewrite Hparsed in Hm1. injection Hm1 as <-.
  clear Hm Hm0 Hm2 Hm3. unfold source_of. cbn [andb].
  destruct (isTarFile archiveFile); unbind Hm4;
    rewrite for_each_array in Hm4;
    apply (for_of_fold _ _ _ _ (logged_group_pass _)) in Hm4 as [Hwf Hfold];
    rewrite foldl_group_pass in Hfold; injection Hfold as -> ->.
  - match goal with
    | H : arrayBuffer _ _ = _ |- _ => apply arrayBuffer_Returned in H as ->
    end.
    last_steps.
    eexists. split_and!; [done|apply Forall_groups, Hwf| |done].
    apply list_fmap_ext. intros _ g _. rewrite foldl_logged_add. unfold logged_stats.
    rewrite length_fmap. reflexivity.
  - match goal with
    | H : loadAsync _ _ = _ |- _ => apply loadAsync_Returned_inv in H as ->
    end.
    last_steps.
    eexists. split_and!; [done|apply Forall_groups, Hwf| |done].
    apply list_fmap_ext. intros _ g _. rewrite foldl_logged_add. unfold logged_stats.
    rewrite length_fmap. reflexivity.
Qed.

Lemma counted_completed archiveFile jsonFile items c :
  parsed jsonFile = inr (JArr items) →
  status (final (Counted.processFiles (Some archiveFile) (Some jsonFile)) c)
  = success →
  ∃ resolve,
    source_of true archiveFile = Some resolve
    ∧ Forall (λ g, string_links g) (filter (λ g, is_group g) items)
    ∧ folderStats (final (Counted.processFiles (Some archiveFile)
                            (Some jsonFile)) c)
      = counted_stats resolve <$> filter (λ g, is_group g) items
    ∧ processedZip (final (Counted.processFiles (Some archiveFile)
                             (Some jsonFile)) c)
      = Some (new_archive $"Review Test" resolve items).
Proof.
  intros Hparsed. unfold final, Counted.processFiles.
  run_or_throw c c' e Hbody; [|done]. intros _. unbind Hbody.
  apply parse_Returned in Hm1. rewrite Hparsed in Hm1. injection Hm1 as <-.
  clear Hm Hm0 Hm2 Hm3. unfold source_of. cbn [andb].
  destruct (isTarFile archiveFile); unbind Hm4;
    rewrite for_each_array in Hm4;
    apply (for_of_fold _ _ _ _ (counted_group_pass _)) in Hm4 as [Hwf Hfold];
    rewrite foldl_group_pass in Hfold; injection Hfold as -> ->.
  - match goal with
    | H : arrayBuffer _ _ = _ |- _ => apply arrayBuffer_Returned in H as ->
    end.
    last_steps.
    eexists. split_and!; [done|apply Forall_groups, Hwf| |done].
    apply list_fmap_ext. intros _ g _. rewrite foldl_counted_add.
    unfold counted_stats. rewrite length_fmap. reflexivity.
  - match goal with
    | H : loadAsync _ _ = _ |- _ => apply loadAsync_Returned_inv in H as ->
    end.
    last_steps.
    eexists. split_and!; [done|apply Forall_groups, Hwf| |done].
    apply list_fmap_ext. intros _ g _. rewrite foldl_counted_add.
    unfold counted_stats. rewrite length_fmap. reflexivity.
Qed.

(** ** The new archive *)







Lemma completed_or_failed {Stats} (body : M (Stats:=Stats) unit) handler c :
  returns_in (λ c', status c' = success) body →
  (∀ e c1, status (handler e c1).1 = error) →
  status (try_catch body handler c).1 = success
  ∨ status (try_catch body handler c).1 = error.
Proof.
  intros Hbody Hhandler.
  destruct (try_catch_cases body handler c)
    as [(c' & Hrun & ->)|(c' & e & Hrun & ->)]; [left|right; apply Hhandler].
  by eapply Hbody.
Qed.

Lemma counted_run_status archiveFile jsonFile c :
  status (final (Counted.processFiles (Some archiveFile) (Some jsonFile)) c)
  = success
  ∨ status (final (Counted.processFiles (Some archiveFile) (Some jsonFile)) c)
    = error.
Proof.
  apply completed_or_failed; [|done]. returns. by intros ??? [= <- _].
Qed.

Lemma logged_run_status archiveFile jsonFile c :
  status (final (Logged.processFiles (Some archiveFile) (Some jsonFile)) c)
  = success
  ∨ status (final (Logged.processFiles (Some archiveFile) (Some jsonFile)) c)
    = error.
Proof.
  apply completed_or_failed; [|done]. returns. by intros ??? [= <- _].
Qed.

Lemma operations_run_status archiveFile jsonFile c :
  status (final (Operations.processFiles (Some archiveFile) (Some jsonFile)) c)
  = success
  ∨ status (final (Operations.processFiles (Some archiveFile)
                     (Some jsonFile)) c)
    = error.
Proof.
  apply completed_or_failed; [|done]. returns. by intros ??? [= <- _].
Qed.

(** ** What a completed run leaves *)

(** The statistics of a completed run are those of the groups of the
    configuration, in order: for each entry the loop does not skip, the
    name under the key the component reads, and the file names of the
    links that resolve, in the order of the links; in the last component
    with the operation of each and the two counters. *)
Theorem statistics_list_the_resolved_links
    (archiveFile : ArchiveFile) (jsonFile : JsonFile) (items : list JSON) :
  parsed jsonFile = inr (JArr items) →
  (∀ c, status (final (Counted.processFiles (Some archiveFile)
                         (Some jsonFile)) c) = success →
        ∃ resolve,
          source_of true archiveFile = Some resolve
          ∧ folderStats (final (Counted.processFiles (Some archiveFile)
                                  (Some jsonFile)) c)
            = counted_stats resolve <$> filter (λ g, is_group g) items)
  ∧ (∀ c, status (final (Logged.processFiles (Some archiveFile)
                           (Some jsonFile)) c) = success →
          ∃ resolve,
            source_of true archiveFile = Some resolve
            ∧ folderStats (final (Logged.processFiles (Some archiveFile)
                                    (Some jsonFile)) c)
              = logged_stats resolve <$> filter (λ g, is_group g) items)
  ∧ (∀ c, status (final (Operations.processFiles (Some archiveFile)
                           (Some jsonFile)) c) = success →
          ∃ resolve,
            source_of false archiveFile = Some resolve
            ∧ folderStats (final (Operations.processFiles (Some archiveFile)
                                    (Some jsonFile)) c)
              = operations_stats resolve <$> filter (λ g, is_group g) items).
Proof.
  intros Hparsed. split_and!; intros c Hstatus.
  - destruct (counted_completed _ _ _ _ Hparsed Hstatus)
      as (resolve & ? & _ & ? & _). eauto.
  - destruct (logged_completed _ _ _ _ Hparsed Hstatus)
      as (resolve & ? & _ & ? & _). eauto.
  - destruct (operations_completed _ _ _ _ Hparsed Hstatus)
      as (resolve & ? & _ & ? & _). eauto.
Qed.

Lemma statistics_list_the_resolved_links_witness :
  ∃ resolve,
    source_of false Scenario.archive = Some resolve
    ∧ folderStats (final (Operations.processFiles (Some Scenario.archive)
                            (Some (Scenario.config $"Review Text"))) mounted)
      = operations_stats resolve
        <$> filter (λ g, is_group g)
              [Scenario.group $"Review Text"
                 (Scenario.found ++ [JStr $"missing.txt"])].
Proof.
  apply (statistics_list_the_resolved_links Scenario.archive
           (Scenario.config $"Review Text")
           [Scenario.group $"Review Text"
              (Scenario.found ++ [JStr $"missing.txt"])]);
    reflexivity.
Defined.



(** A run completes only over groups whose links can be iterated and are
    all strings: in the three components that keep statistics one link
    that is a number, or a [Links] that is an object, ends the run in
    [error], whatever the archive holds. *)
Theorem malformed_links_fail_the_run
    (archiveFile : ArchiveFile) (jsonFile : JsonFile) (items : list JSON)
    (folderConfig : JSON) :
  parsed jsonFile = inr (JArr items) →
  folderConfig ∈ items → is_group folderConfig →
  string_links folderConfig = false →
  (∀ c, status (final (Counted.processFiles (Some archiveFile)
                         (Some jsonFile)) c) = error)
  ∧ (∀ c, status (final (Logged.processFiles (Some archiveFile)
                           (Some jsonFile)) c) = error)
  ∧ (∀ c, status (final (Operations.processFiles (Some archiveFile)
                           (Some jsonFile)) c) = error).
Proof.
  intros Hparsed Hin Hg Hill.
  assert (¬ Forall (λ g, string_links g) (filter (λ g, is_group g) items))
    as Hnot.
  { rewrite Forall_forall. intros H.
    assert (string_links folderConfig) as Hwf
      by by apply H, list_elem_of_filter.
    by rewrite Hill in Hwf. }
  split_and!; intros c.
  - destruct (counted_run_status archiveFile jsonFile c) as [Hs|He]; [|done].
    by destruct (counted_completed _ _ _ _ Hparsed Hs) as (? & _ & ? & _).
  - destruct (logged_run_status archiveFile jsonFile c) as [Hs|He]; [|done].
    by destruct (logged_completed _ _ _ _ Hparsed Hs) as (? & _ & ? & _).
  - destruct (operations_run_status archiveFile jsonFile c) as [Hs|He];
      [|done].
    by destruct (operations_completed _ _ _ _ Hparsed Hs) as (? & _ & ? & _).
Qed.

Lemma malformed_links_fail_the_run_witness :
  status (final (Operations.processFiles (Some Scenario.archive)
                   (Some {| parsed :=
                              inr (JArr [Scenario.group $"Review Text"
                                           [JStr $"a.txt"; JNull]]) |}))
            mounted)
  = error.
Proof.
  apply (malformed_links_fail_the_run Scenario.archive
           {| parsed := inr (JArr [Scenario.group $"Review Text"
                                     [JStr $"a.txt"; JNull]]) |}
           [Scenario.group $"Review Text" [JStr $"a.txt"; JNull]]
           (Scenario.group $"Review Text" [JStr $"a.txt"; JNull]));
    [reflexivity|by left|reflexivity|reflexivity].
Defined.

(** ** The component that skips what it cannot use *)

Section Completes.
Context {Stats : Type}.

Lemma completes_ret {A} (a : A) : completes (Stats:=Stats) (ret a).
Proof. intros c. by exists c, a. Qed.

Lemma completes_bind {A B} (m : M (Stats:=Stats) A) (k : A → M B) :
  completes m → (∀ a, completes (k a)) → completes (a ← m; k a).
Proof.
  intros Hm Hk c. destruct (Hm c) as (c1 & a & Hrun).
  erewrite bind_run by done. apply Hk.
Qed.

Lemma completes_run {A B} (m : M (Stats:=Stats) A) (k : A → M B) a :
  (∀ c, ∃ c', m c = (c', Returned a)) → completes (k a) →
  completes (a ← m; k a).
Proof.
  intros Hm Hk c. destruct (Hm c) as (c1 & Hrun).
  erewrite bind_run by done. apply Hk.
Qed.

Lemma completes_assoc {A B C} (m : M (Stats:=Stats) A) (f : A → M B)
    (g : B → M C) :
  completes (y ← m; x ← f y; g x) → completes (x ← (y ← m; f y); g x).
Proof.
  intros H c. destruct (H c) as (c' & r & Hrun). exists c', r. revert Hrun.
  unfold mbind, M_bind, bind. by destruct (m c) as [c1 [a|e]].
Qed.

Lemma completes_for_of {A B} (xs : list A) (body : B → A → M (Stats:=Stats) B)
    acc :
  (∀ acc x, completes (body acc x)) → completes (for_of xs body acc).
Proof.
  intros Hbody. revert acc. induction xs as [|x xs IH]; intros acc.
  - apply completes_ret.
  - cbn. apply (completes_bind (body acc x) (for_of xs body)); auto.
Qed.

Lemma completes_for_each_array {B} items (body : B → JSON → M (Stats:=Stats) B)
    acc :
  (∀ acc x, completes (body acc x)) →
  completes (for_each (Some (JArr items)) body acc).
Proof.
  intros Hbody c. rewrite for_each_array. by apply completes_for_of.
Qed.

Lemma completes_modify (f : Component Stats → Component Stats) :
  completes (modify f).
Proof. intros c. by eexists _, _. Qed.

End Completes.

(** Takes a computation apart along its binds, branches and loops. *)
Ltac completes :=
  repeat
    lazymatch goal with
    | |- completes (for_of _ _ _) => apply completes_for_of; intros ? ?
    | |- completes (for_each (Some (JArr _)) _ _) =>
        apply completes_for_each_array; intros ? ?
    | |- completes (match ?x with _ => _ end) => destruct x
    | |- completes (mbind _ (mbind _ _)) => apply completes_assoc
    | |- completes (mbind _ (bind _ _)) => apply completes_assoc
    | |- completes (mbind _ (lift (inr ?x))) =>
        apply (completes_run _ _ x); [by intros ?; eexists|]
    | |- completes (mbind _ (ret ?x)) =>
        apply (completes_run _ _ x); [by intros ?; eexists|]
    | |- completes (mbind _ (if negb (Value.isArray (Some (JArr _)))
                             then _ else _)) =>
        cbn [Value.isArray negb]; cbv iota
    | |- completes (mbind _ (if ?b then _ else _)) => destruct b
    | |- completes (mbind _ _) => apply completes_bind; [|intros ?]
    | |- completes (bind ?m ?k) => apply (completes_bind m k); [|intros ?]
    | |- completes (ret _) => apply completes_ret
    | |- completes _ => first [solve [auto] | by intros ?; eexists _, _]
    end.






(** ** The tree of the archive *)

Section Tree.
Import FileTree.
Context {Size Stats : Type}.
Implicit Types (level children : list (TreeNode Size Stats))
  (n node : TreeNode Size Stats).

Lemma well_formed_nil parent : well_formed (Size:=Size) (Stats:=Stats) parent [].
Proof.
  constructor; [constructor|by intros n ?%elem_of_nil|].
  by intros ???? ?%elem_of_nil.
Qed.

Lemma find_name_None part level :
  list_find (λ n, node_name n = part) level = None →
  part ∉ node_name <$> level.
Proof.
  intros H%list_find_None (n & -> & Hn)%list_elem_of_fmap.
  by eapply Forall_forall in H.
Qed.

Lemma find_name_Some part level i node :
  list_find (λ n, node_name n = part) level = Some (i, node) →
  level !! i = Some node ∧ node_name node = part.
Proof. intros (? & ? & _)%list_find_Some. done. Qed.

Lemma names_insert level i node node' :
  level !! i = Some node → node_name node' = node_name node →
  node_name <$> <[i := node']> level = node_name <$> level.
Proof.
  intros Hi Hname. rewrite list_fmap_insert, Hname.
  apply list_insert_id. by rewrite list_lookup_fmap, Hi.
Qed.

Lemma elem_of_insert level i node n :
  n ∈ <[i := node]> level → n = node ∨ n ∈ level.
Proof.
  intros (j & Hj)%list_elem_of_lookup.
  destruct (decide (i = j)) as [<-|Hne].
  - left. apply list_lookup_insert_Some in Hj as [(_ & -> & _)|[? _]]; done.
  - right. rewrite list_lookup_insert_ne in Hj by done.
    by eapply list_elem_of_lookup_2.
Qed.

Lemma process_parts_well_formed size zero endsWithSlash parts :
  Forall (λ part, JS.slash ∉ part) parts →
  ∀ currentPath level level',
    well_formed currentPath level →
    process_parts size zero endsWithSlash currentPath parts level
    = inr level' →
    well_formed currentPath level'.
Proof.
  induction 1 as [|part rest Hpart _ IH]; intros cp level level' Hwf; cbn.
  { by intros [= <-]. }
  case_bool_decide as Hempty; [by apply IH|].
  destruct Hwf as [parent level Hnames Hnodes Hfolders].
  destruct (list_find _ level) as [[i [name path sz|name path children st]]|]
    eqn:Hfind.
  - destruct (_ && _); [by intros [= <-]; constructor|].
    destruct (off_the_tree rest); [done|]. by intros [= <-]; constructor.
  - apply find_name_Some in Hfind as [Hi Hname]. cbn in Hname. subst name.
    destruct (_ && _); [by intros [= <-]; constructor|].
    assert (Folder part path children st ∈ level) as Hin
      by by eapply list_elem_of_lookup_2.
    destruct (Hnodes _ Hin) as (_ & _ & Hpath). cbn in Hpath. rewrite <-Hpath.
    destruct (process_parts _ _ _ _ _ _) as [|children'] eqn:Hrec; [done|].
    intros [= <-]. apply IH in Hrec; [|by eapply Hfolders].
    constructor.
    + by erewrite names_insert.
    + intros n [->|Hn]%elem_of_insert; [|by apply Hnodes].
      by apply (Hnodes _ Hin).
    + intros name' path' children'' st' [[= <- <- <- <-]|Hn]%elem_of_insert;
        [done|by eapply Hfolders].
  - apply find_name_None in Hfind.
    assert (∀ node,
              node_name node = part →
              node_path node = child_path parent part →
              (∀ name path children st,
                 node = Folder name path children st →
                 well_formed path children) →
              well_formed parent (level ++ [node])) as Hpush.
    { intros node Hname Hpath Hchildren. constructor.
      - rewrite fmap_app. apply NoDup_app. split_and!; [done| |].
        + intros x Hx [= ->]%list_elem_of_singleton. cbn in *. congruence.
        + apply NoDup_singleton.
      - intros n [Hn| ->%list_elem_of_singleton]%elem_of_app; [by apply Hnodes|].
        by rewrite Hname.
      - intros name path children st
          [Hn|Hn%list_elem_of_singleton]%elem_of_app; [by eapply Hfolders|].
        by eapply Hchildren. }
    destruct (_ && _).
    + intros [= <-]. by apply Hpush.
    + destruct (process_parts _ _ _ _ _ _) as [|children] eqn:Hrec; [done|].
      intros [= <-]. apply IH in Hrec; [|apply well_formed_nil].
      apply Hpush; [done..|]. by intros ???? [= <- <- <- <-].
Qed.

Lemma find_insert_same (P : TreeNode Size Stats → Prop)
    `{!∀ n, Decision (P n)} level i node node' :
  list_find P level = Some (i, node) → P node' →
  list_find P (<[i := node']> level) = Some (i, node').
Proof.
  intros (Hi & _ & Hfirst)%list_find_Some Hnode'.
  apply list_find_insert_Some. right. left.
  split_and!; [done..|by eapply lookup_lt_Some|done|].
  intros j z Hj Hlt. by eapply Hfirst.
Qed.

Lemma find_insert_other (P : TreeNode Size Stats → Prop)
    `{!∀ n, Decision (P n)} level i node node' :
  level !! i = Some node → ¬ P node → ¬ P node' →
  list_find P (<[i := node']> level) = list_find P level.
Proof.
  intros Hi Hnode Hnode'.
  destruct (list_find P level) as [[j z]|] eqn:Hfind.
  - apply list_find_insert_Some.
    pose proof Hfind as (Hj & Hz & _)%list_find_Some.
    destruct (decide (j < i)%nat); [by left|]. right. right. left.
    assert (i ≠ j) by (intros ->; naive_solver).
    split_and!; [lia|done..|]. naive_solver.
  - apply list_find_None. apply list_find_None in Hfind.
    rewrite Forall_forall in *. intros n [->|?]%elem_of_insert; auto.
Qed.

(** A node at a path stays there through every later pass. *)
Lemma process_parts_keeps_nodes size zero endsWithSlash parts :
  ∀ currentPath level level' ps,
    process_parts size zero endsWithSlash currentPath parts level
    = inr level' →
    is_Some (find_node ps level) → is_Some (find_node ps level').
Proof.
  induction parts as [|part rest IH]; intros cp level level' ps; cbn.
  { by intros [= <-]. }
  case_bool_decide as Hempty; [by apply IH|].
  destruct (list_find _ level) as [[i [name path sz|name path children st]]|]
    eqn:Hfind.
  - destruct (_ && _); [by intros [= <-]|].
    destruct (off_the_tree rest); [done|]. by intros [= <-].
  - destruct (_ && _); [by intros [= <-]|].
    destruct (process_parts _ _ _ _ _ _) as [|children'] eqn:Hrec; [done|].
    intros [= <-]. destruct ps as [|p ps]; [done|]. cbn.
    pose proof Hfind as [Hi Hname]%find_name_Some. cbn in Hname.
    destruct (decide (p = part)) as [->|Hne].
    + rewrite Hfind.
      erewrite (find_insert_same (λ n, node_name n = part)) by done.
      destruct ps; [done|]. by eapply IH.
    + erewrite (find_insert_other (λ n, node_name n = p));
        [done..|by cbn; congruence|by cbn; congruence].
  - assert (∀ node,
              is_Some (find_node ps level) →
              is_Some (find_node ps (level ++ [node]))) as Hpush.
    { intros node. destruct ps as [|p ps]; [done|]. cbn.
      destruct (list_find (λ n, node_name n = p) level) as [[j n]|] eqn:Hp;
        [|by intros [? [=]]].
      by rewrite (list_find_app_l _ _ _ _ _ Hp). }
    destruct (_ && _); [by intros [= <-]; apply Hpush|].
    destruct (process_parts _ _ _ _ _ _) as [|children]; [done|].
    intros [= <-]. apply Hpush.
Qed.

Lemma filter_all_empty (parts : list str) :
  forallb (λ part, bool_decide (part = [])) parts = true →
  filter (λ part, part ≠ []) parts = [].
Proof.
  induction parts as [|part parts IH]; [done|]. cbn [forallb].
  intros [Hpart%bool_decide_eq_true Hparts]%andb_true_iff.
  rewrite filter_cons_False by naive_solver. auto.
Qed.

(** A pass over a path leaves a node at its non-empty parts. *)
Lemma process_parts_adds_node size zero endsWithSlash parts :
  ∀ currentPath level level',
    process_parts size zero endsWithSlash currentPath parts level
    = inr level' →
    filter (λ part, part ≠ []) parts ≠ [] →
    is_Some (find_node (filter (λ part, part ≠ []) parts) level').
Proof.
  induction parts as [|part rest IH]; intros cp level level'; [done|].
  cbn [process_parts]. case_bool_decide as Hempty.
  { rewrite filter_cons_False by naive_solver. by apply IH. }
  rewrite filter_cons_True by done. intros Hrun _. cbn. revert Hrun.
  assert (off_the_tree rest = inr tt →
          filter (λ part, part ≠ []) rest = []) as Hoff.
  { unfold off_the_tree. destruct (forallb _ rest) eqn:Hall; [|done].
    intros _. by apply filter_all_empty. }
  assert (∀ b, bool_decide (rest = []) && b = true →
               filter (λ part, part ≠ []) rest = []) as Hlast.
  { intros b [->%bool_decide_eq_true _]%andb_true_iff. done. }
  destruct (list_find _ level) as [[i [name path sz|name path children st]]|]
    eqn:Hfind.
  - destruct (_ && _) eqn:HisFile.
    { intros [= <-]. rewrite Hfind. by rewrite (Hlast _ HisFile). }
    destruct (off_the_tree rest) as [|[]] eqn:Hrest; [done|].
    intros [= <-]. rewrite Hfind. by rewrite Hoff by done.
  - destruct (_ && _) eqn:HisFile.
    { intros [= <-]. rewrite Hfind. by rewrite (Hlast _ HisFile). }
    destruct (process_parts _ _ _ _ _ _) as [|children'] eqn:Hrec; [done|].
    intros [= <-].
    pose proof Hfind as [Hi Hname]%find_name_Some.
    erewrite (find_insert_same (λ n, node_name n = part)) by done.
    destruct (filter (λ part, part ≠ []) rest) eqn:Hparts; [done|].
    by apply (IH _ _ _ Hrec).
  - destruct (_ && _) eqn:HisFile.
    { intros [= <-]. rewrite (list_find_app_r _ _ _ Hfind). cbn.
      rewrite decide_True by done. cbn. by rewrite (Hlast _ HisFile). }
    destruct (process_parts _ _ _ _ _ _) as [|children] eqn:Hrec; [done|].
    intros [= <-]. rewrite (list_find_app_r _ _ _ Hfind). cbn.
    rewrite decide_True by done. cbn.
    destruct (filter (λ part, part ≠ []) rest) eqn:Hparts; [done|].
    by apply (IH _ _ _ Hrec).
Qed.

(** The path of the node at given parts. *)
Lemma find_node_path ps :
  ∀ parent level node,
    well_formed parent level → find_node ps level = Some node →
    node_path node = foldl child_path parent ps.
Proof.
  induction ps as [|p ps IH]; intros parent level node Hwf; [done|]. cbn.
  destruct (list_find _ level) as [[i n]|] eqn:Hfind; [|done].
  apply find_name_Some in Hfind as [Hi <-].
  apply list_elem_of_lookup_2 in Hi. destruct Hwf as [parent level _ Hnodes Hfolders].
  destruct (Hnodes _ Hi) as (_ & _ & Hpath). rewrite <-Hpath.
  destruct ps as [|p' ps]; [by intros [= <-]|].
  destruct n as [|name path children st]; [done|].
  intros Hnode. eapply IH in Hnode; [done|]. by eapply Hfolders.
Qed.

Lemma process_all_invariant {A T} (I : T → Prop) (step : A → T → Error + T)
    xs :
  (∀ x t t', x ∈ xs → I t → step x t = inr t' → I t') →
  ∀ t t', I t → process_all step xs t = inr t' → I t'.
Proof.
  induction xs as [|x xs IH]; intros Hstep t t' Ht; cbn.
  { by intros [= <-]. }
  destruct (step x t) as [|t1] eqn:Hx; [done|].
  apply IH; [|by eapply Hstep; [left|..]].
  intros y u u' Hy. apply Hstep. by right.
Qed.

Lemma process_all_app {A T} (step : A → T → Error + T) xs ys t :
  process_all step (xs ++ ys) t
  = match process_all step xs t with
    | inr t => process_all step ys t
    | inl e => inl e
    end.
Proof.
  revert t. induction xs as [|x xs IH]; intros t; cbn; [done|].
  by destruct (step x t).
Qed.

Lemma tree_ind' (P : TreeNode Size Stats → Prop) :
  (∀ name path size, P (File name path size)) →
  (∀ name path children fileStats,
     Forall P children → P (Folder name path children fileStats)) →
  ∀ n, P n.
Proof.
  intros Hfile Hfolder. fix IH 1.
  intros [name path sz|name path children st]; [apply Hfile|].
  apply Hfolder. induction children as [|c cs IHc]; constructor;
    [apply IH|apply IHc].
Qed.

End Tree.

Section Counts.
Import FileTree.
Implicit Types (level children : list (TreeNode nat FileStats))
  (n node : TreeNode nat FileStats).

Lemma stats_of_app l1 l2 :
  stats_of (l1 ++ l2) = add_stats (stats_of l1) (stats_of l2).
Proof.
  unfold stats_of, add_stats. cbn. by rewrite !filter_app, !length_app.
Qed.

Lemma add_stats_assoc a b c :
  add_stats (add_stats a b) c = add_stats a (add_stats b c).
Proof. unfold add_stats. cbn. f_equal; lia. Qed.

Lemma add_stats_no_files a : add_stats a no_files = a.
Proof. destruct a. unfold add_stats. cbn. f_equal; lia. Qed.

Lemma count_node_sizes n :
  ∀ acc, count_node n acc = add_stats acc (stats_of (sizes n)).
Proof.
  induction n as [name path sz|name path children st IH] using tree_ind';
    intros acc.
  - destruct acc as [e ne t]. cbn [count_node sizes].
    unfold add_stats, stats_of. cbn [empty nonEmpty total].
    case_bool_decide as Hsz.
    + rewrite filter_cons_True, filter_cons_False by (done || lia). cbn.
      f_equal; lia.
    + rewrite filter_cons_False, filter_cons_True by done. cbn.
      f_equal; lia.
  - cbn [count_node sizes]. revert acc.
    induction IH as [|c cs Hc _ IHcs]; intros acc.
    + by rewrite add_stats_no_files.
    + cbn [foldl mbind list_bind]. rewrite IHcs, Hc, stats_of_app.
      by rewrite add_stats_assoc.
Qed.

Lemma count_children children :
  foldl (λ acc n, count_node n acc) no_files children
  = stats_of (children ≫= sizes).
Proof.
  change (foldl (λ acc n, count_node n acc) no_files children)
    with (count_node (Folder [] [] children no_files) no_files).
  rewrite count_node_sizes. unfold add_stats, no_files. by destruct (stats_of _).
Qed.

Lemma sizes_updateFolderStats n : sizes (updateFolderStats n) = sizes n.
Proof.
  induction n as [|name path children st IH] using tree_ind'; [done|].
  cbn [updateFolderStats sizes].
  induction IH as [|c cs Hc _ IHcs]; [done|]. cbn. by rewrite Hc, IHcs.
Qed.

Lemma sizes_update_children children :
  (updateFolderStats <$> children) ≫= sizes = children ≫= sizes.
Proof.
  induction children as [|c cs IH]; [done|]. cbn.
  by rewrite sizes_updateFolderStats, IH.
Qed.

Lemma name_updateFolderStats n : node_name (updateFolderStats n) = node_name n.
Proof. by destruct n. Qed.

Lemma path_updateFolderStats n : node_path (updateFolderStats n) = node_path n.
Proof. by destruct n. Qed.

Lemma updateFolderStats_Folder n name path children st :
  updateFolderStats n = Folder name path children st →
  ∃ children0 st0,
    n = Folder name path children0 st0
    ∧ children = updateFolderStats <$> children0
    ∧ st = stats_of (children0 ≫= sizes).
Proof.
  destruct n as [|name' path' children0 st0]; [done|]. cbn.
  intros [= <- <- <- <-]. rewrite count_children. eauto.
Qed.

Lemma updateFolderStats_counted level : counted (updateFolderStats <$> level).
Proof.
  assert (∀ n name path children st,
            updateFolderStats n = Folder name path children st →
            st = stats_of (children ≫= sizes) ∧ counted children) as Hnode.
  { induction n as [|name path children st IH] using tree_ind'; [done|].
    intros name' path' children' st'
      (ch & s & [= <- <- <- <-] & -> & ->)%updateFolderStats_Folder.
    split; [by rewrite sizes_update_children|].
    constructor; intros ???? (n & Hn & Hin)%list_elem_of_fmap;
      symmetry in Hn; rewrite Forall_forall in IH;
      by apply (IH _ Hin) in Hn as []. }
  constructor; intros ???? (n & Hn & Hin)%list_elem_of_fmap;
    symmetry in Hn; by apply Hnode in Hn as [].
Qed.

Lemma updateFolderStats_well_formed parent level :
  well_formed parent level →
  well_formed parent (updateFolderStats <$> level).
Proof.
  induction 1 as [parent level Hnames Hnodes _ IH]. constructor.
  - rewrite <-list_fmap_compose.
    erewrite list_fmap_ext; [done|]. intros i n _. cbn.
    apply name_updateFolderStats.
  - intros n' (n & -> & Hn)%list_elem_of_fmap.
    rewrite name_updateFolderStats, path_updateFolderStats. by apply Hnodes.
  - intros name path children st (n & Hn & Hin)%list_elem_of_fmap.
    symmetry in Hn.
    apply updateFolderStats_Folder in Hn as (ch & s & -> & -> & _).
    by eapply IH.
Qed.

Lemma find_node_updateFolderStats ps :
  ∀ level,
    find_node ps (updateFolderStats <$> level)
    = updateFolderStats <$> find_node ps level.
Proof.
  induction ps as [|p ps IH]; intros level; [done|]. cbn.
  rewrite list_find_fmap.
  rewrite (list_find_ext _ (λ n, node_name n = p))
    by (intros n; cbn; by rewrite name_updateFolderStats).
  destruct (list_find _ level) as [[i n]|]; [|done]. cbn.
  destruct ps as [|p' ps]; [done|].
  destruct n as [|name path children st]; [done|]. cbn [updateFolderStats].
  apply IH.
Qed.

End Counts.

Section TreeOfTheArchive.
Import FileTree.

Lemma processNode_well_formed {Size Stats} (size : Size) (zero : Stats) path
    (tree tree' : list (TreeNode Size Stats)) :
  well_formed [] tree → processNode size zero path tree = inr tree' →
  well_formed [] tree'.
Proof. apply process_parts_well_formed, split_no_sep. Qed.

Lemma processTarEntry_well_formed {Size Stats} (size : Size) (zero : Stats)
    path (tree tree' : list (TreeNode Size Stats)) :
  well_formed [] tree → processTarEntry size zero path tree = inr tree' →
  well_formed [] tree'.
Proof. apply process_parts_well_formed, split_no_sep. Qed.

Lemma logged_zip_tree_well_formed zip tree :
  LoggedTree.zip_tree zip = inr tree → well_formed [] tree.
Proof.
  apply process_all_invariant; [|apply well_formed_nil].
  intros path t t' _. apply processNode_well_formed.
Qed.

Lemma logged_tar_tree_well_formed tar tree :
  LoggedTree.tar_tree tar = inr tree → well_formed [] tree.
Proof.
  apply process_all_invariant; [|apply well_formed_nil].
  intros path t t' _. apply processTarEntry_well_formed.
Qed.

Lemma operations_zip_tree_well_formed zip tree :
  OperationsTree.zip_tree zip = inr tree → well_formed [] tree.
Proof.
  unfold OperationsTree.zip_tree.
  destruct (process_all _ (name <$> zip) []) as [|t] eqn:Hall; [done|].
  intros [= <-]. apply updateFolderStats_well_formed.
  revert Hall. apply process_all_invariant; [|apply well_formed_nil].
  intros o t1 t2 _. apply processNode_well_formed.
Qed.

(** The tree [buildFileTree] passes to [setFileTree] is well formed, in
    both components: at every level the names are distinct, none is empty
    or holds a slash, and the path of a node is the names from the root
    down to it, joined by slashes. *)
Theorem tree_is_well_formed (file : ArchiveFile) :
  (∀ tree, LoggedTree.buildFileTree file = inr tree → well_formed [] tree)
  ∧ (∀ tree, OperationsTree.buildFileTree file = inr tree →
             well_formed [] tree).
Proof.
  split; intros tree.
  - unfold LoggedTree.buildFileTree.
    destruct (JS.endsWith _ $".zip");
      [destruct (as_zip file) as [|zip]; [done|]
      |destruct (JS.endsWith _ $".tar");
       [|intros [= <-]; apply well_formed_nil]].
    + apply logged_zip_tree_well_formed.
    + apply logged_tar_tree_well_formed.
  - unfold OperationsTree.buildFileTree.
    destruct (JS.endsWith _ $".zip");
      [destruct (as_zip file) as [|zip]; [done|]
      |intros [= <-]; apply well_formed_nil].
    apply operations_zip_tree_well_formed.
Qed.

Lemma tree_is_well_formed_witness :
  well_formed []
    [Folder $"folder" $"folder"
       [File $"update_file.txt" $"folder/update_file.txt" 1%nat]
       {| empty := 0; nonEmpty := 1; total := 1 |};
     Folder $"x" $"x"
       [Folder $"other" $"x/other"
          [File $"file2.txt" $"x/other/file2.txt" 1%nat]
          {| empty := 0; nonEmpty := 1; total := 1 |}]
       {| empty := 0; nonEmpty := 1; total := 1 |}].
Proof.
  apply (proj2 (tree_is_well_formed Scenario.archive)). reflexivity.
Defined.

(** In the component that classifies the files every folder of the tree,
    at every depth, holds the counts of the files below it: as many empty
    files as there are files of size zero, as many others as there are
    files of another size, and their sum for total. *)
Theorem folders_count_the_files_below (file : ArchiveFile) :
  (∀ tree, OperationsTree.buildFileTree file = inr tree → counted tree)
  ∧ (∀ sizes, total (stats_of sizes)
              = (empty (stats_of sizes) + nonEmpty (stats_of sizes))%nat).
Proof.
  split.
  - intros tree. unfold OperationsTree.buildFileTree, OperationsTree.zip_tree.
    destruct (JS.endsWith _ $".zip").
    + destruct (as_zip file) as [|zip]; [done|].
      destruct (process_all _ (name <$> zip) []) as [|t]; [done|].
      intros [= <-]. apply updateFolderStats_counted.
    + intros [= <-]. constructor; by intros ???? ?%elem_of_nil.
  - intros sizes. unfold stats_of. cbn.
    induction sizes as [|sz sizes IH]; [done|].
    destruct (decide (sz = 0%nat)).
    + rewrite filter_cons_True, filter_cons_False by (done || lia). cbn. lia.
    + rewrite filter_cons_False, filter_cons_True by done. cbn. lia.
Qed.

Lemma folders_count_the_files_below_witness :
  counted
    [Folder $"folder" $"folder"
       [File $"update_file.txt" $"folder/update_file.txt" 1%nat]
       {| empty := 0; nonEmpty := 1; total := 1 |};
     Folder $"x" $"x"
       [Folder $"other" $"x/other"
          [File $"file2.txt" $"x/other/file2.txt" 1%nat]
          {| empty := 0; nonEmpty := 1; total := 1 |}]
       {| empty := 0; nonEmpty := 1; total := 1 |}].
Proof.
  apply (proj1 (folders_count_the_files_below Scenario.archive)). reflexivity.
Defined.

Lemma path_of_parts (ps : list str) :
  head ps ≠ Some [] →
  foldl child_path [] ps = Value.join_strings [JS.slash] ps.
Proof.
  assert (∀ ps cp, cp ≠ [] →
            foldl child_path cp ps = Value.join_strings [JS.slash] (cp :: ps))
    as Hfrom.
  { clear ps. induction ps as [|p ps IH]; intros cp Hcp; [done|].
    cbn [foldl]. rewrite IH by (unfold child_path; by destruct cp).
    unfold child_path. rewrite bool_decide_eq_false_2 by done.
    destruct ps as [|q ps]; [done|].
    change (Value.join_strings [JS.slash] ((cp ++ [JS.slash] ++ p) :: q :: ps))
      with ((cp ++ [JS.slash] ++ p) ++ [JS.slash]
            ++ Value.join_strings [JS.slash] (q :: ps)).
    change (Value.join_strings [JS.slash] (cp :: p :: q :: ps))
      with (cp ++ [JS.slash] ++ p ++ [JS.slash]
            ++ Value.join_strings [JS.slash] (q :: ps)).
    by rewrite <-!app_assoc. }
  destruct ps as [|p ps]; [done|]. intros Hp. cbn [foldl].
  unfold child_path at 2. cbn. apply Hfrom. naive_solver.
Qed.

Lemma components_head p : head (components p) ≠ Some [].
Proof.
  unfold components. intros H.
  assert ([] ∈ filter (λ seg : str, seg ≠ []) (segments p)) as Hin.
  { destruct (filter _ _); [done|]. injection H as ->. by left. }
  by apply list_elem_of_filter in Hin as [? _].
Qed.

Section Nodes.
Context {Size Stats : Type}.

Lemma process_all_keeps_nodes {A} (size : A → Size) (zero : Stats)
    (path : A → str) xs ps (t t' : list (TreeNode Size Stats)) :
  process_all (λ x, processNode (size x) zero (path x)) xs t = inr t' →
  is_Some (find_node ps t) → is_Some (find_node ps t').
Proof.
  intros Hall Ht. revert Hall.
  apply (process_all_invariant (λ t, is_Some (find_node ps t))); [|done].
  intros x t1 t2 _ H1 Hx. by eapply process_parts_keeps_nodes.
Qed.

Lemma process_all_adds_nodes {A} (size : A → Size) (zero : Stats)
    (path : A → str) xs x (tree : list (TreeNode Size Stats)) :
  process_all (λ x, processNode (size x) zero (path x)) xs [] = inr tree →
  x ∈ xs → components (path x) ≠ [] →
  is_Some (find_node (components (path x)) tree).
Proof.
  intros Hall (xs1 & xs2 & ->)%list_elem_of_split Hparts.
  rewrite process_all_app in Hall.
  destruct (process_all _ xs1 []) as [|t1]; [done|]. cbn in Hall.
  destruct (processNode _ _ _ t1) as [|t2] eqn:Hx; [done|].
  eapply process_all_keeps_nodes; [done|].
  by eapply process_parts_adds_node.
Qed.

End Nodes.

(** Every entry of the archive has a node in the tree: when the tree is
    built, the non-empty parts of the key of an entry lead from the root to
    a node, and the path of that node is those parts joined by slashes. *)
Theorem every_entry_has_a_node (zip : JSZip) (file : JSZipObject) :
  file ∈ zip → components (name file) ≠ [] →
  (∀ tree, LoggedTree.zip_tree zip = inr tree →
           ∃ node, find_node (components (name file)) tree = Some node
                   ∧ node_path node
                     = Value.join_strings [JS.slash] (components (name file)))
  ∧ (∀ tree, OperationsTree.zip_tree zip = inr tree →
             ∃ node, find_node (components (name file)) tree = Some node
                     ∧ node_path node
                       = Value.join_strings [JS.slash]
                           (components (name file))).
Proof.
  intros Hin Hparts. split; intros tree Htree.
  - assert (is_Some (find_node (components (name file)) tree)) as [node Hnode].
    { apply (process_all_adds_nodes (λ _, tt) tt id (name <$> zip)
               (name file)); [done| |done].
      apply list_elem_of_fmap. eauto. }
    exists node. split; [done|].
    rewrite <-path_of_parts by apply components_head.
    eapply find_node_path; [|done]. by eapply logged_zip_tree_well_formed.
  - assert (is_Some (find_node (components (name file)) tree)) as [node Hnode].
    { unfold OperationsTree.zip_tree in Htree.
      destruct (process_all _ (name <$> zip) []) as [|t] eqn:Hall; [done|].
      injection Htree as <-. rewrite find_node_updateFolderStats.
      apply fmap_is_Some.
      apply (process_all_adds_nodes (OperationsTree.size_at zip) no_files id
               (name <$> zip) (name file)); [done| |done].
      apply list_elem_of_fmap. eauto. }
    exists node. split; [done|].
    rewrite <-path_of_parts by apply components_head.
    eapply find_node_path; [|done]. by eapply operations_zip_tree_well_formed.
Qed.

Lemma every_entry_has_a_node_witness :
  ∃ node,
    find_node (components $"x/other/file2.txt")
      [Folder $"folder" $"folder"
         [File $"update_file.txt" $"folder/update_file.txt" 1%nat]
         {| empty := 0; nonEmpty := 1; total := 1 |};
       Folder $"x" $"x"
         [Folder $"other" $"x/other"
            [File $"file2.txt" $"x/other/file2.txt" 1%nat]
            {| empty := 0; nonEmpty := 1; total := 1 |}]
         {| empty := 0; nonEmpty := 1; total := 1 |}]
    = Some node
    ∧ node_path node
      = Value.join_strings [JS.slash] (components $"x/other/file2.txt").
Proof.
  apply (proj2 (every_entry_has_a_node
                  [file_entry $"folder/update_file.txt" [Byte.x01];
                   file_entry $"x/other/file2.txt" [Byte.x02]]
                  (file_entry $"x/other/file2.txt" [Byte.x02])
                  ltac:(by right; left) ltac:(done))).
  reflexivity.
Defined.

Section TarAndZip.
Context {Size Stats : Type} (size : Size) (zero : Stats).





End TarAndZip.



Section Failure.
Context {Size Stats : Type} (size : Size) (zero : Stats).
Implicit Types (level : list (TreeNode Size Stats)).






End Failure.




End TreeOfTheArchive.

(** ** Choosing the files *)

(** The components take a file for an archive exactly when it passes the
    test for a ZIP file of the first [MainTestFolder] component or the
    test for a TAR file: every file a run reads as a TAR file has passed
    the validation. *)
Theorem archive_is_zip_or_tar (file : ArchiveFile) :
  isValidArchive file = isZipFile file || isTarFile file.
Proof.
  unfold isValidArchive, isZipFile, isTarFile.
  destruct (bool_decide (file_type file = $"application/zip"));
    destruct (bool_decide (file_type file = $"application/x-zip-compressed"));
    destruct (bool_decide (file_type file = $"application/x-tar"));
    destruct (JS.endsWith _ $".zip"); destruct (JS.endsWith _ $".tar"); done.
Qed.

(** Expanding and collapsing a node of the tree: [toggleNode] flips the
    path it is given and no other, so that two calls on a path restore the
    set, and calls on two paths commute. *)
Theorem toggleNode_flips_one_path (path other : str) (expanded : gset str) :
  (path ∈ toggleNode path expanded ↔ path ∉ expanded)
  ∧ (other ≠ path → other ∈ toggleNode path expanded ↔ other ∈ expanded)
  ∧ toggleNode path (toggleNode path expanded) = expanded
  ∧ toggleNode path (toggleNode other expanded)
    = toggleNode other (toggleNode path expanded).
Proof.
  assert (∀ p q (s : gset str),
            q ∈ toggleNode p s ↔ (q = p ∧ p ∉ s) ∨ (q ≠ p ∧ q ∈ s)) as Hin.
  { intros p q s. unfold toggleNode. destruct (decide (p ∈ s)); set_solver. }
  split_and!.
  - rewrite Hin. naive_solver.
  - intros Hne. rewrite Hin. naive_solver.
  - apply set_eq. intros q. rewrite !Hin.
    destruct (decide (q = path)) as [->|]; [|naive_solver].
    destruct (decide (path ∈ expanded)); naive_solver.
  - apply set_eq. intros q. rewrite !Hin.
    destruct (decide (q = path)); destruct (decide (q = other));
      destruct (decide (path ∈ expanded)); destruct (decide (other ∈ expanded));
      naive_solver.
Qed.

Lemma toggleNode_flips_one_path_witness :
  $"x/other" ∈ toggleNode $"x" {[ $"x/other" ]}
  ↔ $"x/other" ∈ ({[ $"x/other" ]} : gset str).
Proof.
  apply (toggleNode_flips_one_path $"x" $"x/other" {[ $"x/other" ]}).
  done.
Defined.

(** ** The guards of the [MainTestFolder] component *)

Section Guards.
Context {Stats : Type}.

Lemma bind_ext {A B} (m1 m2 : M (Stats:=Stats) A) (k1 k2 : A → M B) c :
  m1 c = m2 c → (∀ a c', k1 a c' = k2 a c') →
  (a ← m1; k1 a) c = (a ← m2; k2 a) c.
Proof.
  intros Hm Hk. unfold mbind, M_bind, bind. rewrite Hm.
  destruct (m2 c) as [c' [a|e]]; [apply Hk|done].
Qed.

Lemma for_of_ext {A B} (xs : list A) (f g : B → A → M (Stats:=Stats) B) :
  (∀ x acc c, x ∈ xs → f acc x c = g acc x c) →
  ∀ acc c, for_of xs f acc c = for_of xs g acc c.
Proof.
  induction xs as [|x xs IH]; intros Hfg acc c; [done|]. cbn [for_of].
  apply (bind_ext (f acc x) (g acc x)).
  - apply Hfg, elem_of_cons. by left.
  - intros acc' c'. apply IH. intros y ?? Hy. apply Hfg, elem_of_cons. by right.
Qed.

End Guards.

Lemma guarded_link_same zip folderName out link c :
  guarded_link link = true →
  Unguarded.process_link zip folderName out link c
  = MainTestFolder.process_link_zip zip folderName out link c.
Proof.
  unfold guarded_link, Unguarded.process_link, MainTestFolder.process_link_zip.
  intros [Htruthy Hstring]%andb_prop. rewrite Htruthy, Hstring.
  by destruct link.
Qed.

Lemma guarded_group_same zip out group c :
  guarded_group group = true →
  Unguarded.process_folder zip out group c
  = MainTestFolder.process_folder (MainTestFolder.process_link_zip zip)
      out group c.
Proof.
  unfold guarded_group, Unguarded.process_folder, MainTestFolder.process_folder.
  intros [[[Htruthy Hobject]%andb_prop Hname]%andb_prop Hlinks]%andb_prop.
  rewrite Htruthy, Hobject.
  destruct (Value.get $"Review Test" group) as [[| | |[|ch name]| |]|] eqn:Hget;
    try done.
  destruct (Value.get $"Links" group) as [[| | | |[|link links]|]|]; try done.
  assert (group ≠ JNull) as Hgroup by (by intros ->).
  destruct group; try done;
    (cbn -[Unguarded.process_link MainTestFolder.process_link_zip for_of
           sanitize Value.join];
     rewrite ?Hget;
     cbn -[Unguarded.process_link MainTestFolder.process_link_zip for_of
           sanitize Value.join];
     apply for_of_ext; intros x acc c' Hx; apply guarded_link_same;
     rewrite forallb_forall in Hlinks; by apply Hlinks, list_elem_of_In).
Qed.

(** On a ZIP archive and a configuration whose groups all pass the guards
    of the [MainTestFolder] component, the component without the guards
    does what the guarded one does: the two runs leave the same state,
    log included, also when the archive cannot be loaded or the
    configuration cannot be parsed. *)
Theorem guards_are_idle_on_guarded_groups
    (archiveFile : ArchiveFile) (jsonFile : JsonFile) :
  isTarFile archiveFile = false →
  (∀ config, parsed jsonFile = inr config →
     ∃ groups, config = JArr groups ∧ forallb guarded_group groups = true) →
  ∀ c, Unguarded.processFiles (Some archiveFile) (Some jsonFile) c
       = MainTestFolder.processFiles (Some archiveFile) (Some jsonFile) c.
Proof.
  intros Htar Hconfig c.
  unfold Unguarded.processFiles, MainTestFolder.processFiles, try_catch.
  match goal with
  | |- match ?m1 c with _ => _ end = match ?m2 c with _ => _ end =>
      enough (m1 c = m2 c) as -> by done
  end.
  rewrite Htar.
  apply bind_ext; [done|intros _ c1].
  apply bind_ext; [done|intros _ c2].
  unfold parse. destruct (parsed jsonFile) as [e|config]; [done|].
  destruct (Hconfig config eq_refl) as (groups & -> & Hgroups).
  unfold loadAsync.
  destruct (as_zip archiveFile) as [e|zip] eqn:Hzip; [done|].
  unfold for_each, mbind, M_bind, bind, read, modify.
  cbn -[Unguarded.process_folder MainTestFolder.process_folder for_of
        Value.join_strings allFiles].
  match goal with
  | |- context [for_of groups (Unguarded.process_folder zip) ∅ ?c'] =>
      rewrite (for_of_ext groups (Unguarded.process_folder zip)
                 (MainTestFolder.process_folder
                    (MainTestFolder.process_link_zip zip)))
  end; [done|].
  intros group acc c' Hgroup. apply guarded_group_same.
  rewrite forallb_forall in Hgroups. by apply Hgroups, list_elem_of_In.
Qed.

Lemma guards_are_idle_on_guarded_groups_witness :
  Unguarded.processFiles (Some Scenario.archive)
    (Some {| parsed := inr (JArr [Scenario.group $"Review Test"
                                    [JStr $"a.txt"; JStr $"logs\b.txt"]]) |})
    mounted
  = MainTestFolder.processFiles (Some Scenario.archive)
      (Some {| parsed := inr (JArr [Scenario.group $"Review Test"
                                      [JStr $"a.txt"; JStr $"logs\b.txt"]]) |})
      mounted.
Proof.
  apply (guards_are_idle_on_guarded_groups Scenario.archive
           {| parsed := inr (JArr [Scenario.group $"Review Test"
                                     [JStr $"a.txt"; JStr $"logs\b.txt"]]) |});
    [reflexivity|].
  intros config [= <-]. eexists. split; reflexivity.
Defined.

(** ** The component without guards *)

Section Fails.
Context {Stats : Type}.








End Fails.




